(** * Name resolution and graph construction in the MLIR operation parser

    A shallow embedding of [mlir/lib/AsmParser/Parser.cpp]: the base
    [Parser] helpers (token cursor, diagnostics, comma separated lists) and
    the [OperationParser] class (SSA name scopes, block registry, deferred
    locations, the structural parser and [finalize]), followed by the
    properties of that code.

    Conventions of the embedding.
    - A [SmallVector] used as a stack keeps its [back()] at the head of the
      Rocq list; [push_back] is cons and [pop_back] drops the head.
    - Pointers ([SMLoc], [Block *], [Operation *]) are numbers; a null
      pointer or a null [Value]/[Attribute] is [None].
    - [StringMap], [DenseMap] and [DenseSet] are [gmap] and [gset].  The
      iteration order of a [DenseMap] is unspecified; the code sorts what it
      reads from one before reporting.
    - A function that returns [ParseResult] is a computation in the monad
      [M]: it threads the parser and ends in [Success], [Failure], or
      [Undefined] where the C++ has no defined behaviour ([back()] of an
      empty vector, a failed [assert]) or where the recursion budget of the
      embedding is spent.
    - [state.asmState] and [state.codeCompleteContext] are null. *)

From stdpp Require Import base numbers option list strings gmap sorting.
From Stdlib Require Import Ascii.

(** ** Source locations, types, attributes and diagnostics *)

(** [llvm::SMLoc]: a pointer into the source buffer. *)
Definition SMLoc := Z.

(** [mlir::Type]: types are uniqued in the context, so equality is equality
    of the handle. *)
Definition Ty := positive.

Inductive TypeID :=
| DeferredLocInfoID
| OtherTypeID (n : nat).

Inductive Location :=
| FileLineColLoc (l : SMLoc)
| UnknownLoc
| OpaqueLoc (underlying : nat) (id : TypeID) (fallback : Location)
| LiteralLoc (n : nat).

Inductive Attribute :=
| LocationAttr (l : Location)
| OtherAttr (n : nat).

#[global] Instance TypeID_eq_dec : EqDecision TypeID.
Proof. solve_decision. Defined.
#[global] Instance Location_eq_dec : EqDecision Location.
Proof. solve_decision. Defined.
#[global] Instance Attribute_eq_dec : EqDecision Attribute.
Proof. solve_decision. Defined.

(** [getEncodedSourceLocation]. *)
Definition getEncodedSourceLocation (l : SMLoc) : Location := FileLineColLoc l.

(** [dyn_cast<LocationAttr>]. *)
Definition dyn_cast_LocationAttr (a : Attribute) : option Location :=
  match a with LocationAttr l => Some l | OtherAttr _ => None end.

(** The arguments a [Diagnostic] is made of. *)
Inductive DiagnosticArgument :=
| ArgString (s : string)
| ArgUnsigned (n : Z)
| ArgType (t : Ty)
| ArgAttribute (a : Attribute).

Record Diagnostic := mkDiagnostic {
  diag_loc : Location;
  diag_args : list DiagnosticArgument;
  diag_notes : list (Location * list DiagnosticArgument)
}.

#[global] Instance DiagnosticArgument_eq_dec : EqDecision DiagnosticArgument.
Proof. solve_decision. Defined.
#[global] Instance Diagnostic_eq_dec : EqDecision Diagnostic.
Proof. solve_decision. Defined.

(** ** Tokens *)

Module Token.

Inductive Kind :=
| eof | error | code_complete
| bare_identifier | hash_identifier | percent_identifier | caret_identifier
| exclamation_identifier | integer | inttype | string
| arrow | colon | comma | equal | less | greater
| l_brace | r_brace | l_paren | r_paren | l_square | r_square
| file_metadata_begin
| kw_loc | kw_other | punctuation.

Record t := mk {
  kind : Kind;
  spelling : String.string;
  loc : SMLoc
}.

#[global] Instance Kind_eq_dec : EqDecision Kind.
Proof. solve_decision. Defined.

Definition is_ (tok : t) (k : Kind) : bool := bool_decide (kind tok = k).
Definition isNot (tok : t) (k : Kind) : bool := negb (is_ tok k).
Definition isKeyword (tok : t) : bool := is_ tok kw_loc || is_ tok kw_other.
Definition isCodeCompletion (tok : t) : bool := is_ tok code_complete.

End Token.

(** ** The outcome of a parsing step and the parser monad *)

Inductive Outcome (A : Type) :=
| Success (a : A)
| Failure
| Undefined.
Arguments Success {A} a.
Arguments Failure {A}.
Arguments Undefined {A}.

Definition StateM (St A : Type) : Type := St → Outcome A * St.

Definition ret {St A} (a : A) : StateM St A := λ s, (Success a, s).
Definition failure {St A} : StateM St A := λ s, (Failure, s).
Definition undefined {St A} : StateM St A := λ s, (Undefined, s).
Definition bind {St A B} (m : StateM St A) (k : A → StateM St B) : StateM St B :=
  λ s, match m s with
       | (Success a, s') => k a s'
       | (Failure, s') => (Failure, s')
       | (Undefined, s') => (Undefined, s')
       end.
Definition get {St} : StateM St St := λ s, (Success s, s).
Definition gets {St A} (f : St → A) : StateM St A := λ s, (Success (f s), s).
Definition modify {St} (f : St → St) : StateM St unit := λ s, (Success (), f s).
(** A null pointer where the code goes on to dereference it. *)
Definition deref {St A} (o : option A) : StateM St A :=
  match o with Some a => ret a | None => undefined end.
(** Run [m] on a component of the state. *)
Definition zoom {St T A} (proj : St → T) (inj : T → St → St) (m : StateM T A)
  : StateM St A :=
  λ s, let '(r, t) := m (proj s) in (r, inj t s).
(** [succeeded]/[failed]: observe the result without stopping. *)
Definition attempt {St A} (m : StateM St A) : StateM St (option A) :=
  λ s, match m s with
       | (Success a, s') => (Success (Some a), s')
       | (Failure, s') => (Success None, s')
       | (Undefined, s') => (Undefined, s')
       end.

Declare Scope parser_scope.
Delimit Scope parser_scope with parser.
Notation "x <- m ;; k" := (bind m (λ x, k))
  (at level 100, m at next level, right associativity) : parser_scope.
Notation "m ;;; k" := (bind m (λ _, k))
  (at level 100, right associativity) : parser_scope.
#[local] Open Scope parser_scope.

(** [while (cond) body], with a budget of iterations. *)
Fixpoint while {St} (fuel : nat) (cond : StateM St bool) (body : StateM St unit)
  : StateM St unit :=
  match fuel with
  | O => undefined
  | S fuel' =>
      c <- cond ;;
      if c then (body ;;; while fuel' cond body) else ret ()
  end.

(** Run [f] on each element in order, stopping at the first failure. *)
Fixpoint forEach {St A} (f : A → StateM St unit) (l : list A) : StateM St unit :=
  match l with
  | [] => ret ()
  | a :: l' => f a ;;; forEach f l'
  end.

(** ** The base [Parser] and its [ParserState] *)

Record ParserState := mkParserState {
  (** The source buffer the lexer reads: address of its first character and
      its characters. *)
  bufferBegin : Z;
  bufferText : list ascii;
  (** [state.curToken], and the tokens the lexer will return next. *)
  curToken : Token.t;
  lexRest : list Token.t;
  (** [state.symbols.attributeAliasDefinitions] and
      [state.symbols.typeAliasDefinitions]. *)
  attributeAliasDefinitions : gmap string Attribute;
  typeAliasDefinitions : gmap string Ty;
  (** The diagnostics reported so far, oldest first. *)
  diagnostics : list Diagnostic
}.

Definition set_tokens (c : Token.t) (r : list Token.t) (st : ParserState) :=
  mkParserState (bufferBegin st) (bufferText st) c r
    (attributeAliasDefinitions st) (typeAliasDefinitions st) (diagnostics st).
Definition set_diagnostics (d : list Diagnostic) (st : ParserState) :=
  mkParserState (bufferBegin st) (bufferText st) (curToken st) (lexRest st)
    (attributeAliasDefinitions st) (typeAliasDefinitions st) d.
Definition set_attributeAliasDefinitions (a : gmap string Attribute)
    (st : ParserState) :=
  mkParserState (bufferBegin st) (bufferText st) (curToken st) (lexRest st)
    a (typeAliasDefinitions st) (diagnostics st).
Definition set_typeAliasDefinitions (a : gmap string Ty) (st : ParserState) :=
  mkParserState (bufferBegin st) (bufferText st) (curToken st) (lexRest st)
    (attributeAliasDefinitions st) a (diagnostics st).

Definition P := StateM ParserState.

(** [state.lex.lexToken()]: the next token; at the end of the buffer the
    lexer keeps returning [eof]. *)
Definition eofToken (st : ParserState) : Token.t :=
  Token.mk Token.eof "" (bufferBegin st + Z.of_nat (length (bufferText st)))%Z.

Definition getToken : P Token.t := gets curToken.
Definition getTokenSpelling : P string := gets (λ st, Token.spelling (curToken st)).

(** [consumeToken()]: [assert(state.curToken.isNot(eof, error))]. *)
Definition consumeToken : P unit :=
  λ st,
    if Token.is_ (curToken st) Token.eof || Token.is_ (curToken st) Token.error
    then (Undefined, st)
    else match lexRest st with
         | [] => (Success (), set_tokens (eofToken st) [] st)
         | t :: r => (Success (), set_tokens t r st)
         end.

(** [consumeToken(kind)]: [assert(state.curToken.is(kind))]. *)
Definition consumeTokenOfKind (k : Token.Kind) : P unit :=
  tok <- getToken ;;
  if Token.is_ tok k then consumeToken else undefined.

Definition consumeIf (k : Token.Kind) : P bool :=
  tok <- getToken ;;
  if Token.isNot tok k then ret false else (consumeToken ;;; ret true).

(** [mlir::emitError(loc, ...)]: the diagnostic is reported when the
    in-flight diagnostic is finished. *)
Definition reportDiagnostic (d : Diagnostic) : P unit :=
  modify (λ st, set_diagnostics (diagnostics st ++ [d]) st).

(** [Parser::emitError(SMLoc, message)] with what is appended to the
    in-flight diagnostic and the notes attached to it; the diagnostic is
    abandoned when the current token is a lexer error.  The result converts
    to [failure()]. *)
Definition emitErrorAt {A} (l : SMLoc) (args : list DiagnosticArgument)
    (notes : list (Location * list DiagnosticArgument)) : P A :=
  tok <- getToken ;;
  (if Token.is_ tok Token.error then ret ()
   else reportDiagnostic (mkDiagnostic (getEncodedSourceLocation l) args notes)) ;;;
  failure.

(** [Parser::emitError(message)]: at the current token, one character back
    at the end of the file. *)
Definition emitError {A} (args : list DiagnosticArgument) : P A :=
  tok <- getToken ;;
  if Token.isNot tok Token.eof then emitErrorAt (Token.loc tok) args []
  else emitErrorAt (Token.loc tok - 1)%Z args [].

(** *** [emitWrongTokenError]: where a missing token is reported *)

(** The [StringRef] operations the back-up heuristic uses, on the characters
    of the buffer. *)
Definition isBlank (c : ascii) : bool :=
  bool_decide (c = " "%char) || bool_decide (c = "009"%char).
Definition isNewline (c : ascii) : bool :=
  bool_decide (c = "010"%char) || bool_decide (c = "013"%char).

Fixpoint dropWhile {A} (p : A → bool) (l : list A) : list A :=
  match l with
  | [] => []
  | a :: l' => if p a then dropWhile p l' else l
  end.

Definition rtrim (p : ascii → bool) (s : list ascii) : list ascii :=
  rev (dropWhile p (rev s)).
Definition drop_back (n : nat) (s : list ascii) : list ascii :=
  take (length s - n) s.

(** [find_last_of]: index of the last character satisfying [p]. *)
Fixpoint find_last_of (p : ascii → bool) (s : list ascii) : option nat :=
  match s with
  | [] => None
  | c :: s' =>
      match find_last_of p s' with
      | Some i => Some (S i)
      | None => if p c then Some 0 else None
      end
  end.

(** [find("//")]: index of the first occurrence. *)
Fixpoint findComment (s : list ascii) : option nat :=
  match s with
  | c1 :: s' =>
      match s' with
      | c2 :: _ =>
          if bool_decide (c1 = "/"%char) && bool_decide (c2 = "/"%char)
          then Some 0 else S <$> findComment s'
      | [] => None
      end
  | [] => None
  end.

(** The loop of [emitWrongTokenError]: the location to report at, given the
    part of the buffer before the token.  Each round drops at least the line
    break it stopped at, so a budget of the length of that part suffices. *)
Fixpoint backUpLoc (fuel : nat) (bufferStart originalLoc : SMLoc)
    (startOfBuffer : list ascii) : option SMLoc :=
  match fuel with
  | O => None
  | S fuel' =>
      let startOfBuffer := rtrim isBlank startOfBuffer in
      match last startOfBuffer with
      | None => Some originalLoc
      | Some c =>
          if negb (isNewline c)
          then Some (bufferStart + Z.of_nat (length startOfBuffer))%Z
          else
            let startOfBuffer := drop_back 1 startOfBuffer in
            let prevLine :=
              match find_last_of isNewline startOfBuffer with
              | Some newLineIndex => drop newLineIndex startOfBuffer
              | None => startOfBuffer
              end in
            let startOfBuffer :=
              match findComment prevLine with
              | Some commentStart =>
                  drop_back (length prevLine - commentStart) startOfBuffer
              | None => startOfBuffer
              end in
            backUpLoc fuel' bufferStart originalLoc startOfBuffer
      end
  end.

(** [emitWrongTokenError].  The location of a token is in the buffer, so
    [curPtr - bufferStart] is the length of the part of the buffer before
    it; the step back at the end of the file leaves the buffer when the
    buffer is empty: the length of [startOfBuffer] is then [(size_t)-1], and
    [rtrim] reads outside the buffer. *)
Definition emitWrongTokenError {A} (message : string) : P A :=
  st <- get ;;
  let tok := curToken st in
  let loc := if Token.is_ tok Token.eof then (Token.loc tok - 1)%Z
             else Token.loc tok in
  startOfBuffer <-
    (if Token.is_ tok Token.eof && bool_decide (loc < bufferBegin st)%Z
     then undefined
     else ret (take (Z.to_nat (loc - bufferBegin st)) (bufferText st))) ;;
  l <- deref (backUpLoc (S (length startOfBuffer)) (bufferBegin st) loc
                startOfBuffer) ;;
  emitErrorAt l [ArgString message] [].

(** [parseToken]: consume the expected token or report that it is missing. *)
Definition parseToken (expectedToken : Token.Kind) (message : string) : P unit :=
  c <- consumeIf expectedToken ;;
  if c then ret () else emitWrongTokenError message.

(** ** The IR graph

    Operations, regions and blocks live in the context and are reached
    through pointers; the graph is a store indexed by those pointers.  Only
    what the parser reads and writes is kept. *)

Definition OpId := nat.
Definition BlockId := nat.
Definition RegionId := nat.

(** [mlir::Value]: a result of an operation or an argument of a block. *)
Inductive Value :=
| OpResult (op : OpId) (i : nat)
| BlockArgument (b : BlockId) (i : nat).

#[global] Instance Value_eq_dec : EqDecision Value.
Proof. solve_decision. Defined.
#[global] Instance Value_countable : Countable Value.
Proof.
  refine (inj_countable'
            (λ v, match v with
                  | OpResult o i => inl (o, i)
                  | BlockArgument b i => inr (b, i)
                  end)
            (λ s, match s with
                  | inl (o, i) => OpResult o i
                  | inr (b, i) => BlockArgument b i
                  end) _).
  by intros [].
Defined.

Definition NamedAttribute : Type := string * Attribute.

Record Operation := mkOperation {
  op_name : string;
  op_loc : Location;
  op_operands : list Value;
  op_types : list Ty;
  op_successors : list BlockId;
  op_regions : list RegionId;
  op_attributes : list NamedAttribute;
  op_properties : option Attribute
}.

Record Block := mkBlock {
  blk_arguments : list (Ty * Location);
  blk_operations : list OpId
}.

Record IR := mkIR {
  ir_ops : gmap OpId Operation;
  ir_blocks : gmap BlockId Block;
  ir_regions : gmap RegionId (list BlockId);
  (** The next addresses the allocator hands out. *)
  ir_nextOp : OpId;
  ir_nextBlock : BlockId;
  ir_nextRegion : RegionId
}.

Definition set_ops (f : gmap OpId Operation → gmap OpId Operation) (g : IR) :=
  mkIR (f (ir_ops g)) (ir_blocks g) (ir_regions g)
    (ir_nextOp g) (ir_nextBlock g) (ir_nextRegion g).
Definition set_blocks (f : gmap BlockId Block → gmap BlockId Block) (g : IR) :=
  mkIR (ir_ops g) (f (ir_blocks g)) (ir_regions g)
    (ir_nextOp g) (ir_nextBlock g) (ir_nextRegion g).
Definition set_regions
    (f : gmap RegionId (list BlockId) → gmap RegionId (list BlockId)) (g : IR) :=
  mkIR (ir_ops g) (ir_blocks g) (f (ir_regions g))
    (ir_nextOp g) (ir_nextBlock g) (ir_nextRegion g).

Definition set_op_loc (l : Location) (o : Operation) :=
  mkOperation (op_name o) l (op_operands o) (op_types o) (op_successors o)
    (op_regions o) (op_attributes o) (op_properties o).
Definition set_op_operands (vs : list Value) (o : Operation) :=
  mkOperation (op_name o) (op_loc o) vs (op_types o) (op_successors o)
    (op_regions o) (op_attributes o) (op_properties o).

(** [Value::getType]. *)
Definition getType (g : IR) (v : Value) : option Ty :=
  match v with
  | OpResult o i => o' ← ir_ops g !! o; op_types o' !! i
  | BlockArgument b i => b' ← ir_blocks g !! b; fst <$> blk_arguments b' !! i
  end.

(** [Operation::getNumResults]. *)
Definition getNumResults (g : IR) (o : OpId) : option nat :=
  (λ o', length (op_types o')) <$> ir_ops g !! o.

(** [new Block()]. *)
Definition newBlock (g : IR) : BlockId * IR :=
  (ir_nextBlock g,
   mkIR (ir_ops g) (<[ir_nextBlock g := mkBlock [] []]> (ir_blocks g))
     (ir_regions g) (ir_nextOp g) (S (ir_nextBlock g)) (ir_nextRegion g)).

(** [new Region(parent)]. *)
Definition newRegion (g : IR) : RegionId * IR :=
  (ir_nextRegion g,
   mkIR (ir_ops g) (ir_blocks g) (<[ir_nextRegion g := []]> (ir_regions g))
     (ir_nextOp g) (ir_nextBlock g) (S (ir_nextRegion g))).

(** [Operation::create]: the operation is not in any block yet. *)
Definition createOperation (o : Operation) (g : IR) : OpId * IR :=
  (ir_nextOp g,
   mkIR (<[ir_nextOp g := o]> (ir_ops g)) (ir_blocks g) (ir_regions g)
     (S (ir_nextOp g)) (ir_nextBlock g) (ir_nextRegion g)).

(** [region.push_back(block)]. *)
Definition region_push_back (r : RegionId) (b : BlockId) (g : IR) : IR :=
  set_regions (alter (λ bs, bs ++ [b]) r) g.

(** [block->push_back(op)]: insertion at the end of a block. *)
Definition block_push_back (b : BlockId) (o : OpId) (g : IR) : IR :=
  set_blocks (alter (λ blk, mkBlock (blk_arguments blk)
                              (blk_operations blk ++ [o])) b) g.

(** [block->addArgument(type, loc)]: the new argument. *)
Definition addArgument (b : BlockId) (t : Ty) (l : Location) (g : IR)
  : option (Value * IR) :=
  blk ← ir_blocks g !! b;
  Some (BlockArgument b (length (blk_arguments blk)),
        set_blocks (<[b := mkBlock (blk_arguments blk ++ [(t, l)])
                             (blk_operations blk)]>) g).

(** [Value::replaceAllUsesWith]: every operand that is [old] becomes [new]. *)
Definition replaceAllUsesWith (old new : Value) (g : IR) : IR :=
  set_ops (fmap (λ o, set_op_operands
                        ((λ v, if decide (v = old) then new else v)
                           <$> op_operands o) o)) g.

(** [op->setLoc] and [arg.setLoc]. *)
Definition setOpLoc (o : OpId) (l : Location) (g : IR) : IR :=
  set_ops (alter (set_op_loc l) o) g.
Definition setArgLoc (b : BlockId) (i : nat) (l : Location) (g : IR) : IR :=
  set_blocks (alter (λ blk, mkBlock (alter (λ a, (a.1, l)) i (blk_arguments blk))
                              (blk_operations blk)) b) g.

(** ** The [OperationParser] *)

(** [OpAsmParser::UnresolvedOperand]. *)
Record UnresolvedOperand := mkUnresolvedOperand {
  location : SMLoc;
  name : string;
  number : nat
}.

(** [OpAsmParser::Argument]. *)
Record Argument := mkArgument {
  ssaName : UnresolvedOperand;
  type : Ty;
  sourceLoc : option Location
}.

Record DeferredLocInfo := mkDeferredLocInfo {
  dl_loc : SMLoc;
  dl_identifier : string
}.

Record BlockDefinition := mkBlockDefinition {
  bd_block : option BlockId;
  bd_loc : SMLoc
}.

Record ValueDefinition := mkValueDefinition {
  vd_value : option Value;
  vd_loc : SMLoc
}.

(** A default-constructed [SMLoc] is the null pointer. *)
Definition nullLoc : SMLoc := 0%Z.

Record IsolatedSSANameScope := mkIsolatedSSANameScope {
  values : gmap string (list ValueDefinition);
  definitionsPerScope : list (gset string)
}.

(** [ResultRecord]: name, number of results, location. *)
Definition ResultRecord : Type := string * Z * SMLoc.

Record OperationParser := mkOperationParser {
  state : ParserState;
  (** The graph the builder and the parser allocate into. *)
  ir : IR;
  isolatedNameScopes : list IsolatedSSANameScope;
  blocksByName : list (gmap string BlockDefinition);
  forwardRef : list (gmap BlockId SMLoc);
  forwardRefPlaceholders : gmap Value SMLoc;
  forwardRefOps : gset OpId;
  (** A [std::vector]: oldest first, indexed from 0. *)
  deferredLocsReferences : list DeferredLocInfo;
  (** [opBuilder]: the block operations are appended to, if one is set. *)
  opBuilder : option BlockId;
  topLevelOp : OpId
}.

Definition set_state (s : ParserState) (p : OperationParser) :=
  mkOperationParser s (ir p) (isolatedNameScopes p) (blocksByName p)
    (forwardRef p) (forwardRefPlaceholders p) (forwardRefOps p)
    (deferredLocsReferences p) (opBuilder p) (topLevelOp p).
Definition set_ir (g : IR) (p : OperationParser) :=
  mkOperationParser (state p) g (isolatedNameScopes p) (blocksByName p)
    (forwardRef p) (forwardRefPlaceholders p) (forwardRefOps p)
    (deferredLocsReferences p) (opBuilder p) (topLevelOp p).
Definition set_isolatedNameScopes (x : list IsolatedSSANameScope)
    (p : OperationParser) :=
  mkOperationParser (state p) (ir p) x (blocksByName p)
    (forwardRef p) (forwardRefPlaceholders p) (forwardRefOps p)
    (deferredLocsReferences p) (opBuilder p) (topLevelOp p).
Definition set_blocksByName (x : list (gmap string BlockDefinition))
    (p : OperationParser) :=
  mkOperationParser (state p) (ir p) (isolatedNameScopes p) x
    (forwardRef p) (forwardRefPlaceholders p) (forwardRefOps p)
    (deferredLocsReferences p) (opBuilder p) (topLevelOp p).
Definition set_forwardRef (x : list (gmap BlockId SMLoc)) (p : OperationParser) :=
  mkOperationParser (state p) (ir p) (isolatedNameScopes p) (blocksByName p)
    x (forwardRefPlaceholders p) (forwardRefOps p)
    (deferredLocsReferences p) (opBuilder p) (topLevelOp p).
Definition set_forwardRefPlaceholders (x : gmap Value SMLoc)
    (p : OperationParser) :=
  mkOperationParser (state p) (ir p) (isolatedNameScopes p) (blocksByName p)
    (forwardRef p) x (forwardRefOps p)
    (deferredLocsReferences p) (opBuilder p) (topLevelOp p).
Definition set_forwardRefOps (x : gset OpId) (p : OperationParser) :=
  mkOperationParser (state p) (ir p) (isolatedNameScopes p) (blocksByName p)
    (forwardRef p) (forwardRefPlaceholders p) x
    (deferredLocsReferences p) (opBuilder p) (topLevelOp p).
Definition set_deferredLocsReferences (x : list DeferredLocInfo)
    (p : OperationParser) :=
  mkOperationParser (state p) (ir p) (isolatedNameScopes p) (blocksByName p)
    (forwardRef p) (forwardRefPlaceholders p) (forwardRefOps p)
    x (opBuilder p) (topLevelOp p).
Definition set_opBuilder (x : option BlockId) (p : OperationParser) :=
  mkOperationParser (state p) (ir p) (isolatedNameScopes p) (blocksByName p)
    (forwardRef p) (forwardRefPlaceholders p) (forwardRefOps p)
    (deferredLocsReferences p) x (topLevelOp p).

Definition M := StateM OperationParser.

(** A method of the base [Parser] run by the [OperationParser]. *)
Definition liftP {A} (m : P A) : M A := zoom state set_state m.

(** A change of the graph that cannot fail. *)
Definition modifyIR (f : IR → IR) : M unit := modify (λ p, set_ir (f (ir p)) p).
(** An allocation in the graph. *)
Definition allocIR {A} (f : IR → A * IR) : M A :=
  λ p, let '(a, g) := f (ir p) in (Success a, set_ir g p).

(** *** Comma separated lists

    The element parser is a callback of the caller, which may keep locals of
    its own: the list parsers work over any state [St] that contains the
    [ParserState]. *)

Inductive Delimiter :=
| DelimNone | Paren | Square | LessGreater | Braces
| OptionalParen | OptionalSquare | OptionalLessGreater | OptionalBraces.

Section CommaSeparated.
Context {St : Type} (lift : ∀ A, P A → StateM St A).
Arguments lift {A} _.

(** The opening of [parseCommaSeparatedList]: [true] when the list goes on
    with an element, [false] when the function has returned success. *)
Definition parseListOpening (delimiter : Delimiter) (contextMessage : string)
  : StateM St bool :=
  let delimited (optional : bool) (l r : Token.Kind) (msg : string)
      (failureIsSuccess : bool) : StateM St bool :=
    tok <- lift getToken ;;
    if optional && Token.isNot tok l then ret false
    else
      opened <- attempt (lift (parseToken l (msg ++ contextMessage))) ;;
      match opened with
      | None => if failureIsSuccess then ret false else failure
      | Some _ => empty <- lift (consumeIf r) ;; ret (negb empty)
      end in
  match delimiter with
  | DelimNone => ret true
  | OptionalParen => delimited true Token.l_paren Token.r_paren "expected '('" false
  | Paren => delimited false Token.l_paren Token.r_paren "expected '('" false
  | OptionalLessGreater => delimited true Token.less Token.greater "expected '<'" true
  | LessGreater => delimited false Token.less Token.greater "expected '<'" true
  | OptionalSquare => delimited true Token.l_square Token.r_square "expected '['" false
  | Square => delimited false Token.l_square Token.r_square "expected '['" false
  | OptionalBraces => delimited true Token.l_brace Token.r_brace "expected '{'" false
  | Braces => delimited false Token.l_brace Token.r_brace "expected '{'" false
  end.

Definition parseListClosing (delimiter : Delimiter) (contextMessage : string)
  : StateM St unit :=
  match delimiter with
  | DelimNone => ret ()
  | OptionalParen | Paren =>
      lift (parseToken Token.r_paren ("expected ')'" ++ contextMessage))
  | OptionalLessGreater | LessGreater =>
      lift (parseToken Token.greater ("expected '>'" ++ contextMessage))
  | OptionalSquare | Square =>
      lift (parseToken Token.r_square ("expected ']'" ++ contextMessage))
  | OptionalBraces | Braces =>
      lift (parseToken Token.r_brace ("expected '}'" ++ contextMessage))
  end.

Definition parseCommaSeparatedList (fuel : nat) (delimiter : Delimiter)
    (parseElementFn : StateM St unit) (contextMessage : string)
  : StateM St unit :=
  more <- parseListOpening delimiter contextMessage ;;
  if more then
    parseElementFn ;;;
    while fuel (lift (consumeIf Token.comma)) parseElementFn ;;;
    parseListClosing delimiter contextMessage
  else ret ().

(** [Token::getTokenSpelling(kind)] for the closing tokens in use. *)
Definition tokenSpelling (k : Token.Kind) : string :=
  match k with
  | Token.r_paren => ")"
  | Token.r_square => "]"
  | Token.r_brace => "}"
  | Token.greater => ">"
  | _ => ""
  end.

Definition parseCommaSeparatedListUntil (fuel : nat) (rightToken : Token.Kind)
    (parseElement : StateM St unit) (allowEmptyList : bool) : StateM St unit :=
  tok <- lift getToken ;;
  if Token.is_ tok rightToken then
    if negb allowEmptyList
    then lift (emitWrongTokenError "expected list element")
    else lift (consumeTokenOfKind rightToken)
  else
    parseCommaSeparatedList fuel DelimNone parseElement "" ;;;
    lift (parseToken rightToken
            ("expected ',' or '" ++ tokenSpelling rightToken ++ "'")).

End CommaSeparated.

(** ** The collaborators of the parser

    What [Parser.cpp] calls but does not define: the payload of tokens
    ([Token.h]), the grammars of types, attributes and locations, the
    operation registry of the context, the graph primitives that drop uses and
    free nodes, the verifier, the traversal of [Operation::walk], and the
    custom assembly of the dialects. *)
Record Collaborators := mkCollaborators {
  getUInt64IntegerValue : Token.t → option Z;
  getHashIdentifierNumber : Token.t → option nat;
  getStringValue : Token.t → string;
  isCodeCompletionFor : Token.t → Token.Kind → bool;
  parseType : P Ty;
  parseAttribute : P Attribute;
  parseAttributeDict : P (list NamedAttribute);
  parseLocationInstance : P Location;
  (** [dyn_cast<FunctionType>] with [getInputs] and [getResults]. *)
  dyn_cast_FunctionType : Ty → option (list Ty * list Ty);
  (** [OperationName::isRegistered], once the dialect has been looked for. *)
  isRegistered : string → bool;
  (** A dialect of that name is loaded or can be loaded. *)
  dialectAvailable : string → bool;
  allowsUnregisteredDialects : bool;
  (** [OperationName::mightHaveTrait<OpTrait::IsTerminator>]. *)
  mightHaveTrait_IsTerminator : string → bool;
  verifyInherentAttrs : string → list NamedAttribute → Location → P unit;
  (** [setPropertiesFromAttribute]: [None] on success, else what it adds to
      the diagnostic. *)
  setPropertiesFromAttribute :
    string → Attribute → option (list DiagnosticArgument);
  shouldVerifyAfterParse : bool;
  verify : IR → OpId → P unit;
  (** The operations [op->walk] calls back on, in order. *)
  walk : IR → OpId → list OpId;
  (** [Block::dropAllDefinedValueUses], [Block::dropAllUses] and
      [delete block]; [Operation::dropAllUses] and [Operation::destroy]. *)
  dropAllDefinedValueUses : BlockId → IR → IR;
  dropAllUsesOfBlock : BlockId → IR → IR;
  deleteBlock : BlockId → IR → IR;
  dropAllUsesOfOperation : OpId → IR → IR;
  destroyOperation : OpId → IR → IR;
  (** The resource entries of a file-level metadata dictionary. *)
  parseFileMetadataDictionary : P unit;
  (** [parseCustomOperation]: the operation a dialect's assembly builds. *)
  parseCustomOperation : list ResultRecord → M OpId
}.

(** [unsigned] and [size_t] arithmetic. *)
Definition wrap32 (z : Z) : Z := (z mod 2 ^ 32)%Z.
Definition wrap64 (z : Z) : Z := (z mod 2 ^ 64)%Z.

(** [SmallVector::resize] with default-constructed elements. *)
Definition resizeEntries (n : nat) (l : list ValueDefinition) :=
  resize n (mkValueDefinition None nullLoc) l.

(** Pointer order on locations, and the order of [std::pair] on a location
    and a block: what [array_pod_sort] sorts by. *)
Definition pair_le (x y : SMLoc * BlockId) : Prop :=
  (x.1 < y.1)%Z ∨ (x.1 = y.1 ∧ x.2 ≤ y.2).
#[global] Instance pair_le_dec : RelDecision pair_le.
Proof. intros x y. unfold pair_le. apply _. Defined.

Definition array_pod_sort_locs (l : list SMLoc) : list SMLoc :=
  merge_sort Z.le l.
Definition array_pod_sort_pairs (l : list (SMLoc * BlockId))
  : list (SMLoc * BlockId) :=
  merge_sort pair_le l.

Section OperationParser.
Context (env : Collaborators).

(** [Parser::emitError(loc, message)] whose result is dropped: the error is
    reported and the function goes on. *)
Definition reportErrorAt (l : SMLoc) (args : list DiagnosticArgument)
    (notes : list (Location * list DiagnosticArgument)) : P unit :=
  tok <- getToken ;;
  if Token.is_ tok Token.error then ret ()
  else reportDiagnostic (mkDiagnostic (getEncodedSourceLocation l) args notes).

(** *** SSA name scopes *)

Definition backScope : M IsolatedSSANameScope :=
  p <- get ;; deref (head (isolatedNameScopes p)).

Definition setBackScope (s : IsolatedSSANameScope) : M unit :=
  p <- get ;;
  match isolatedNameScopes p with
  | [] => undefined
  | _ :: rest => modify (set_isolatedNameScopes (s :: rest))
  end.

(** [IsolatedSSANameScope::pushSSANameScope]. *)
Definition Isolated_pushSSANameScope (s : IsolatedSSANameScope) :=
  mkIsolatedSSANameScope (values s) (∅ :: definitionsPerScope s).

(** [IsolatedSSANameScope::popSSANameScope]. *)
Definition Isolated_popSSANameScope (s : IsolatedSSANameScope)
  : option IsolatedSSANameScope :=
  match definitionsPerScope s with
  | [] => None
  | defs :: rest =>
      Some (mkIsolatedSSANameScope (foldr delete (values s) (elements defs)) rest)
  end.

(** [IsolatedSSANameScope::recordDefinition]. *)
Definition Isolated_recordDefinition (def : string) (s : IsolatedSSANameScope)
  : option IsolatedSSANameScope :=
  match definitionsPerScope s with
  | [] => None
  | defs :: rest =>
      Some (mkIsolatedSSANameScope (values s) (({[def]} ∪ defs) :: rest))
  end.

Definition pushSSANameScope (isIsolated : bool) : M unit :=
  modify (λ p, set_blocksByName (∅ :: blocksByName p) p) ;;;
  modify (λ p, set_forwardRef (∅ :: forwardRef p) p) ;;;
  (if isIsolated
   then modify (λ p, set_isolatedNameScopes
                       (mkIsolatedSSANameScope ∅ [] :: isolatedNameScopes p) p)
   else ret ()) ;;;
  s <- backScope ;;
  setBackScope (Isolated_pushSSANameScope s).

(** [topLevelOp->getRegion(0)]. *)
Definition topLevelRegion : M RegionId :=
  p <- get ;;
  o <- deref (ir_ops (ir p) !! topLevelOp p) ;;
  deref (op_regions o !! 0).

Definition popSSANameScope : M unit :=
  p <- get ;;
  match forwardRef p with
  | [] => undefined
  | forwardRefInCurrentScope :: rest =>
      modify (set_forwardRef rest) ;;;
      if negb (bool_decide (forwardRefInCurrentScope = ∅)) then
        (* Verify that all referenced blocks were defined. *)
        r <- topLevelRegion ;;
        forEach (λ entry : BlockId * SMLoc,
                   modifyIR (region_push_back r entry.1))
                (map_to_list forwardRefInCurrentScope) ;;;
        let errors :=
          array_pod_sort_pairs
            ((λ entry : BlockId * SMLoc, (entry.2, entry.1))
               <$> map_to_list forwardRefInCurrentScope) in
        forEach (λ entry : SMLoc * BlockId,
                   liftP (reportErrorAt entry.1
                            [ArgString "reference to an undefined block"] []))
                errors ;;;
        failure
      else
        currentNameScope <- backScope ;;
        (if bool_decide (length (definitionsPerScope currentNameScope) = 1)
         then modify (λ p, set_isolatedNameScopes (tail (isolatedNameScopes p)) p)
         else s <- deref (Isolated_popSSANameScope currentNameScope) ;;
              setBackScope s) ;;;
        p <- get ;;
        match blocksByName p with
        | [] => undefined
        | _ :: rest => modify (set_blocksByName rest)
        end
  end.

(** [recordDefinition]. *)
Definition recordDefinition (def : string) : M unit :=
  s <- backScope ;;
  s' <- deref (Isolated_recordDefinition def s) ;;
  setBackScope s'.

(** [getSSAValueEntry]: [values[name]] of the innermost isolated scope; the
    subscript creates an empty entry for a name that has none. *)
Definition setSSAValueEntry (n : string) (entries : list ValueDefinition)
  : M unit :=
  s <- backScope ;;
  setBackScope (mkIsolatedSSANameScope (<[n := entries]> (values s))
                  (definitionsPerScope s)).

Definition getSSAValueEntry (n : string) : M (list ValueDefinition) :=
  s <- backScope ;;
  let entries := default [] (values s !! n) in
  setSSAValueEntry n entries ;;;
  ret entries.

Definition isForwardRefPlaceholder (p : OperationParser) (v : Value) : bool :=
  bool_decide (is_Some (forwardRefPlaceholders p !! v)).

(** [createForwardRefPlaceholder]. *)
Definition createForwardRefPlaceholder (l : SMLoc) (t : Ty) : M Value :=
  op <- allocIR (createOperation
                   (mkOperation "builtin.unrealized_conversion_cast"
                      (getEncodedSourceLocation l) [] [t] [] [] [] None)) ;;
  modify (λ p, set_forwardRefPlaceholders
                 (<[OpResult op 0 := l]> (forwardRefPlaceholders p)) p) ;;;
  modify (λ p, set_forwardRefOps ({[op]} ∪ forwardRefOps p) p) ;;;
  ret (OpResult op 0).

(** [value.getType()] of a value of the graph. *)
Definition typeOf (v : Value) : M Ty :=
  p <- get ;; deref (getType (ir p) v).

(** [addDefinition]: register a definition of a value with the symbol
    table. *)
Definition addDefinition (useInfo : UnresolvedOperand) (value : Value) : M unit :=
  entries <- getSSAValueEntry (name useInfo) ;;
  (* Make sure there is a slot for this value. *)
  let entries :=
    if bool_decide (length entries ≤ number useInfo)
    then resizeEntries (Z.to_nat (wrap32 (Z.of_nat (number useInfo) + 1))) entries
    else entries in
  setSSAValueEntry (name useInfo) entries ;;;
  entry <- deref (entries !! number useInfo) ;;
  match vd_value entry with
  | Some existing =>
      p <- get ;;
      if negb (isForwardRefPlaceholder p existing) then
        liftP (emitErrorAt (location useInfo)
                 [ArgString "redefinition of SSA value '";
                  ArgString (name useInfo); ArgString "'"]
                 [(getEncodedSourceLocation (vd_loc entry),
                   [ArgString "previously defined here"])])
      else
        existingType <- typeOf existing ;;
        valueType <- typeOf value ;;
        if negb (bool_decide (existingType = valueType)) then
          liftP (emitErrorAt (location useInfo)
                   [ArgString "definition of SSA value '";
                    ArgString (name useInfo); ArgString "#";
                    ArgUnsigned (Z.of_nat (number useInfo));
                    ArgString "' has type "; ArgType valueType]
                   [(getEncodedSourceLocation (vd_loc entry),
                     [ArgString "previously used here with type ";
                      ArgType existingType])])
        else
          modifyIR (replaceAllUsesWith existing value) ;;;
          modify (λ p, set_forwardRefPlaceholders
                         (delete existing (forwardRefPlaceholders p)) p)
  | None => ret ()
  end ;;;
  (* Record this definition for the current scope. *)
  setSSAValueEntry (name useInfo)
    (<[number useInfo := mkValueDefinition (Some value) (location useInfo)]>
       entries) ;;;
  recordDefinition (name useInfo).

(** [resolveSSAUse]: the value a use refers to; null, here [Failure], when
    an error was reported. *)
Definition resolveSSAUse (useInfo : UnresolvedOperand) (t : Ty) : M Value :=
  entries <- getSSAValueEntry (name useInfo) ;;
  match entries !! number useInfo ≫= (λ e, (λ v, (v, e)) <$> vd_value e) with
  | Some (result, entry) =>
      (* If we have already seen a value of this name, return it. *)
      resultType <- typeOf result ;;
      if bool_decide (resultType = t) then ret result
      else
        liftP (emitErrorAt (location useInfo)
                 [ArgString "use of value '"; ArgString (name useInfo);
                  ArgString "' expects different type than prior uses: ";
                  ArgType t; ArgString " vs "; ArgType resultType]
                 [(getEncodedSourceLocation (vd_loc entry),
                   [ArgString "prior use here"])])
  | None =>
      (* Make sure we have enough slots for this. *)
      let entries :=
        if bool_decide (length entries ≤ number useInfo)
        then resizeEntries (Z.to_nat (wrap32 (Z.of_nat (number useInfo) + 1)))
               entries
        else entries in
      setSSAValueEntry (name useInfo) entries ;;;
      first <- deref (entries !! 0) ;;
      p <- get ;;
      match vd_value first with
      | Some v0 =>
          if negb (isForwardRefPlaceholder p v0)
          then liftP (emitErrorAt (location useInfo)
                        [ArgString "reference to invalid result number"] [])
          else ret ()
      | None => ret ()
      end ;;;
      (* Otherwise, this is a forward reference. *)
      result <- createForwardRefPlaceholder (location useInfo) t ;;
      (if bool_decide (number useInfo < length entries) then ret ()
       else undefined) ;;;
      setSSAValueEntry (name useInfo)
        (<[number useInfo := mkValueDefinition (Some result) (location useInfo)]>
           entries) ;;;
      ret result
  end.

(** [getReferenceLoc]. *)
Definition getReferenceLoc (n : string) (num : nat) : M (option SMLoc) :=
  s <- backScope ;;
  match values s !! n with
  | None => ret None
  | Some entries =>
      match entries !! num with
      | None => ret None
      | Some e => ret (match vd_value e with
                       | Some _ => Some (vd_loc e)
                       | None => None
                       end)
      end
  end.

(** *** Locals captured by reference

    A callback that updates a local of its caller runs over the pair of that
    local and the parser. *)
Definition liftLocal {L St A} (m : StateM St A) : StateM (L * St) A :=
  zoom snd (λ s ls, (ls.1, s)) m.
Definition getLocal {L St} : StateM (L * St) L := gets fst.
Definition setLocal {L St} (l : L) : StateM (L * St) unit :=
  modify (λ ls, (l, ls.2)).
(** The caller's view: the result with the final value of the local. *)
Definition runLocal {L St A} (l0 : L) (m : StateM (L * St) A) : StateM St (A * L) :=
  λ s, match m (l0, s) with
       | (Success a, (l, s')) => (Success (a, l), s')
       | (Failure, (_, s')) => (Failure, s')
       | (Undefined, (_, s')) => (Undefined, s')
       end.
(** The same where the caller still needs the local after a failure. *)
Definition runLocalAttempt {L St A} (l0 : L) (m : StateM (L * St) A)
  : StateM St (option A * L) :=
  λ s, match m (l0, s) with
       | (Success a, (l, s')) => (Success (Some a, l), s')
       | (Failure, (l, s')) => (Success (None, l), s')
       | (Undefined, (_, s')) => (Undefined, s')
       end.

(** *** SSA uses *)

(** [codeCompleteSSAUse], [codeCompleteBlock] and the other completion
    methods return failure to stop the parse. *)
Definition codeComplete {St A} : StateM St A := failure.

Definition parseSSAUse (allowResultNumber : bool) : P UnresolvedOperand :=
  tok <- getToken ;;
  if Token.isCodeCompletion tok then codeComplete
  else
    parseToken Token.percent_identifier "expected SSA operand" ;;;
    tok' <- getToken ;;
    if Token.is_ tok' Token.hash_identifier then
      if negb allowResultNumber
      then emitError [ArgString "result number not allowed in argument list"]
      else
        match getHashIdentifierNumber env tok' with
        | Some value =>
            consumeTokenOfKind Token.hash_identifier ;;;
            ret (mkUnresolvedOperand (Token.loc tok) (Token.spelling tok) value)
        | None => emitError [ArgString "invalid SSA value result number"]
        end
    else ret (mkUnresolvedOperand (Token.loc tok) (Token.spelling tok) 0).

Definition isOrIsCodeCompletionFor (tok : Token.t) (k : Token.Kind) : bool :=
  Token.is_ tok k || isCodeCompletionFor env tok k.

(** [parseOptionalSSAUseList]: the uses appended to [results]. *)
Definition parseOptionalSSAUseList (fuel : nat) : P (list UnresolvedOperand) :=
  tok <- getToken ;;
  if negb (isOrIsCodeCompletionFor tok Token.percent_identifier) then ret []
  else
    r <- runLocal []
           (parseCommaSeparatedList (@liftLocal _ _) fuel DelimNone
              (result <- liftLocal (parseSSAUse true) ;;
               results <- getLocal ;;
               setLocal (results ++ [result])) "") ;;
    ret r.2.

(** [parseSSADefOrUseAndType]. *)
Definition parseSSADefOrUseAndType {St} (lift : ∀ A, P A → StateM St A)
    (action : UnresolvedOperand → Ty → StateM St unit) : StateM St unit :=
  useInfo <- lift _ (parseSSAUse true) ;;
  lift _ (parseToken Token.colon "expected ':' and type for SSA operand") ;;;
  t <- lift _ (parseType env) ;;
  action useInfo t.

(** *** The block registry *)

Definition setBlockInfoByName (n : string) (bd : BlockDefinition) : M unit :=
  p <- get ;;
  match blocksByName p with
  | [] => undefined
  | m :: rest => modify (set_blocksByName (<[n := bd]> m :: rest))
  end.

(** [getBlockInfoByName]: [blocksByName.back()[name]]; the subscript creates
    a null entry for a name that has none. *)
Definition getBlockInfoByName (n : string) : M BlockDefinition :=
  p <- get ;;
  m <- deref (head (blocksByName p)) ;;
  let bd := default (mkBlockDefinition None nullLoc) (m !! n) in
  setBlockInfoByName n bd ;;;
  ret bd.

(** [insertForwardRef]: [try_emplace] keeps an entry that is there. *)
Definition insertForwardRef (block : BlockId) (l : SMLoc) : M unit :=
  p <- get ;;
  match forwardRef p with
  | [] => undefined
  | m :: rest =>
      match m !! block with
      | Some _ => ret ()
      | None => modify (set_forwardRef (<[block := l]> m :: rest))
      end
  end.

(** [eraseForwardRef]: whether an entry was erased. *)
Definition eraseForwardRef (block : BlockId) : M bool :=
  p <- get ;;
  match forwardRef p with
  | [] => undefined
  | m :: rest =>
      modify (set_forwardRef (delete block m :: rest)) ;;;
      ret (bool_decide (is_Some (m !! block)))
  end.

(** [getBlockNamed]: the block of that name, created as a forward reference
    if it does not exist yet. *)
Definition getBlockNamed (n : string) (l : SMLoc) : M BlockId :=
  blockDef <- getBlockInfoByName n ;;
  match bd_block blockDef with
  | None =>
      b <- allocIR newBlock ;;
      setBlockInfoByName n (mkBlockDefinition (Some b) l) ;;;
      insertForwardRef b l ;;;
      ret b
  | Some b => ret b
  end.

(** *** Successors *)

Definition parseSuccessor : M BlockId :=
  tok <- liftP getToken ;;
  if Token.isCodeCompletion tok then codeComplete
  else if negb (Token.is_ tok Token.caret_identifier)
  then liftP (emitWrongTokenError "expected block name")
  else
    dest <- getBlockNamed (Token.spelling tok) (Token.loc tok) ;;
    liftP consumeToken ;;;
    ret dest.

(** [parseSuccessors]: the blocks appended to [destinations]. *)
Definition parseSuccessors (fuel : nat) : M (list BlockId) :=
  liftP (parseToken Token.l_square "expected '['") ;;;
  r <- runLocal []
         (parseCommaSeparatedListUntil
            (λ A (m : P A), liftLocal (liftP m)) fuel Token.r_square
            (dest <- liftLocal parseSuccessor ;;
             destinations <- getLocal ;;
             setLocal (destinations ++ [dest]))
            false) ;;
  ret r.2.

(** *** Trailing locations *)

Fixpoint contains (c : ascii) (s : string) : bool :=
  match s with
  | EmptyString => false
  | String c' s' => bool_decide (c = c') || contains c s'
  end.

Definition drop_front (s : string) : string :=
  match s with
  | EmptyString => EmptyString
  | String _ s' => s'
  end.

(** [parseLocationAlias]: the location of an alias that is defined already,
    or a marker to resolve in [finalize]. *)
Definition parseLocationAlias : M Location :=
  tok <- liftP getToken ;;
  liftP (consumeTokenOfKind Token.hash_identifier) ;;;
  let identifier := drop_front (Token.spelling tok) in
  if contains "."%char identifier then undefined
  else
    p <- get ;;
    (* If this alias can be resolved, do it now. *)
    match attributeAliasDefinitions (state p) !! identifier with
    | Some attr =>
        match dyn_cast_LocationAttr attr with
        | Some l => ret l
        | None =>
            liftP (emitErrorAt (Token.loc tok)
                     [ArgString "expected location, but found '";
                      ArgAttribute attr; ArgString "'"] [])
        end
    | None =>
        (* Otherwise, remember this operation and resolve its location later. *)
        modify (set_deferredLocsReferences
                  (deferredLocsReferences p
                     ++ [mkDeferredLocInfo (Token.loc tok) identifier])) ;;;
        ret (OpaqueLoc (length (deferredLocsReferences p)) DeferredLocInfoID
               UnknownLoc)
    end.

(** [OpOrArgument]. *)
Inductive OpOrArgument :=
| IsOperation (o : OpId)
| IsArgument (b : BlockId) (i : nat).

Definition getLoc (g : IR) (x : OpOrArgument) : option Location :=
  match x with
  | IsOperation o => op_loc <$> ir_ops g !! o
  | IsArgument b i => blk ← ir_blocks g !! b; snd <$> blk_arguments blk !! i
  end.

Definition setLoc (x : OpOrArgument) (l : Location) (g : IR) : IR :=
  match x with
  | IsOperation o => setOpLoc o l g
  | IsArgument b i => setArgLoc b i l g
  end.

Definition parseTrailingLocationSpecifier (opOrArgument : OpOrArgument) : M unit :=
  isLoc <- liftP (consumeIf Token.kw_loc) ;;
  if negb isLoc then ret ()
  else
    liftP (parseToken Token.l_paren "expected '(' in location") ;;;
    tok <- liftP getToken ;;
    directLoc <-
      (if Token.is_ tok Token.hash_identifier
          && negb (contains "."%char (Token.spelling tok))
       then parseLocationAlias
       else liftP (parseLocationInstance env)) ;;
    liftP (parseToken Token.r_paren "expected ')' in location") ;;;
    modifyIR (setLoc opOrArgument directLoc).

(** *** Operations, regions and blocks *)

Record OperationState := mkOperationState {
  os_location : Location;
  os_name : string;
  os_operands : list Value;
  os_types : list Ty;
  os_successors : list BlockId;
  os_regions : list RegionId;
  os_attributes : list NamedAttribute;
  os_propertiesAttr : option Attribute
}.

Definition addSuccessors (bs : list BlockId) (r : OperationState) :=
  mkOperationState (os_location r) (os_name r) (os_operands r) (os_types r)
    (os_successors r ++ bs) (os_regions r) (os_attributes r)
    (os_propertiesAttr r).
Definition addRegions (rs : list RegionId) (r : OperationState) :=
  mkOperationState (os_location r) (os_name r) (os_operands r) (os_types r)
    (os_successors r) (os_regions r ++ rs) (os_attributes r)
    (os_propertiesAttr r).
Definition addAttributes (a : list NamedAttribute) (r : OperationState) :=
  mkOperationState (os_location r) (os_name r) (os_operands r) (os_types r)
    (os_successors r) (os_regions r) (os_attributes r ++ a)
    (os_propertiesAttr r).
Definition addTypes (ts : list Ty) (r : OperationState) :=
  mkOperationState (os_location r) (os_name r) (os_operands r)
    (os_types r ++ ts) (os_successors r) (os_regions r) (os_attributes r)
    (os_propertiesAttr r).
Definition addOperand (v : Value) (r : OperationState) :=
  mkOperationState (os_location r) (os_name r) (os_operands r ++ [v])
    (os_types r) (os_successors r) (os_regions r) (os_attributes r)
    (os_propertiesAttr r).
Definition set_propertiesAttr (a : option Attribute) (r : OperationState) :=
  mkOperationState (os_location r) (os_name r) (os_operands r) (os_types r)
    (os_successors r) (os_regions r) (os_attributes r) a.

(** [opBuilder.create(state)]: the operation is created and inserted at the
    insertion point. *)
Definition create (r : OperationState) : M OpId :=
  op <- allocIR (createOperation
                   (mkOperation (os_name r) (os_location r) (os_operands r)
                      (os_types r) (os_successors r) (os_regions r)
                      (os_attributes r) None)) ;;
  p <- get ;;
  match opBuilder p with
  | Some b => modifyIR (block_push_back b op)
  | None => ret ()
  end ;;;
  ret op.

Definition getNumArguments (b : BlockId) : M nat :=
  p <- get ;;
  blk <- deref (ir_blocks (ir p) !! b) ;;
  ret (length (blk_arguments blk)).

(** A [std::unique_ptr<Block>] that still owns its block when the scope is
    left: the uses of what the block defines are dropped, then the block is
    freed. *)
Definition releaseOwnedBlock (b : BlockId) : M unit :=
  modifyIR (dropAllDefinedValueUses env b) ;;;
  modifyIR (deleteBlock env b).

(** [CleanupOpStateRegions] followed by the destruction of the regions the
    [OperationState] still owns. *)
Definition cleanupOpStateRegions (r : OperationState) : M unit :=
  forEach (λ region,
             p <- get ;;
             let blocks := default [] (ir_regions (ir p) !! region) in
             forEach (λ b, modifyIR (dropAllDefinedValueUses env b)) blocks ;;;
             forEach (λ b, modifyIR (deleteBlock env b)) blocks ;;;
             modifyIR (set_regions (delete region)))
          (os_regions r).

(** Run [m]; if it fails, run [cleanup] and fail. *)
Definition onFailure {St A} (cleanup : StateM St unit) (m : StateM St A)
  : StateM St A :=
  r <- attempt m ;;
  match r with
  | Some a => ret a
  | None => cleanup ;;; failure
  end.

Section Recursive.
(** The budget for the loops of one function, and [parseOperation] for the
    operations nested in a block. *)
Context (fuel : nat) (parseOperationRec : M unit).

(** [parseBlockBody]: the operations of a block. *)
Definition parseBlockBody (block : BlockId) : M unit :=
  modify (set_opBuilder (Some block)) ;;;
  while fuel
    (tok <- liftP getToken ;;
     ret (Token.isNot tok Token.caret_identifier
          && Token.isNot tok Token.r_brace))
    parseOperationRec.

(** [parseOptionalBlockArgList]; [nextArgument] is the local the element
    parser counts in. *)
Definition parseOptionalBlockArgList (owner : BlockId) : M unit :=
  tok <- liftP getToken ;;
  if Token.is_ tok Token.r_brace then ret ()
  else
    numArguments <- getNumArguments owner ;;
    let definingExistingArgs := negb (bool_decide (numArguments = 0)) in
    r <- runLocal 0
      (parseCommaSeparatedList (λ A (m : P A), liftLocal (liftP m)) fuel Paren
         (parseSSADefOrUseAndType (λ A (m : P A), liftLocal (liftP m))
            (λ useInfo t,
               arg <-
                 (if definingExistingArgs then
                    nextArgument <- getLocal ;;
                    n <- liftLocal (getNumArguments owner) ;;
                    if bool_decide (n ≤ nextArgument)
                    then liftLocal (liftP (emitError
                           [ArgString "too many arguments specified in argument list"]))
                    else
                      setLocal (S nextArgument) ;;;
                      argType <- liftLocal (typeOf (BlockArgument owner nextArgument)) ;;
                      if negb (bool_decide (argType = t))
                      then liftLocal (liftP (emitError
                             [ArgString "argument and block argument type mismatch"]))
                      else ret (BlockArgument owner nextArgument)
                  else
                    p <- liftLocal get ;;
                    r <- deref (addArgument owner t
                                  (getEncodedSourceLocation (location useInfo))
                                  (ir p)) ;;
                    liftLocal (modifyIR (λ _, r.2)) ;;;
                    ret r.1) ;;
               match arg with
               | BlockArgument b i =>
                   liftLocal (parseTrailingLocationSpecifier (IsArgument b i)) ;;;
                   liftLocal (addDefinition useInfo arg)
               | OpResult _ _ => undefined
               end))
         "") ;;
    ret ().

(** The definition of a label in [parseBlock], from [getBlockInfoByName] to
    the choice of the in-flight block: the block the label stands for from
    now on, and the block [parseBlock] owns until the body is parsed.
    [block] is the block the caller provides for the first block of a
    region, if any. *)
Definition defineBlock (n : string) (nameLoc : SMLoc) (block : option BlockId)
  : M (BlockId * option BlockId) :=
  (* Define the block with the specified name. *)
  blockAndLoc <- getBlockInfoByName n ;;
  setBlockInfoByName n (mkBlockDefinition (bd_block blockAndLoc) nameLoc) ;;;
  match bd_block blockAndLoc with
  | None =>
      (* A new definition: the caller's block, or a new one. *)
      match block with
      | Some b =>
          setBlockInfoByName n (mkBlockDefinition (Some b) nameLoc) ;;;
          ret (b, None)
      | None =>
          b <- allocIR newBlock ;;
          setBlockInfoByName n (mkBlockDefinition (Some b) nameLoc) ;;;
          ret (b, Some b)
      end
  | Some b =>
      (* A forward declaration is removed once defined; a block that is not
         one was already defined. *)
      erased <- eraseForwardRef b ;;
      if negb erased
      then liftP (emitErrorAt nameLoc
                    [ArgString "redefinition of block '"; ArgString n;
                     ArgString "'"] [])
      else ret (b, Some b)
  end.

(** [parseBlock]: the block that was parsed. *)
Definition parseBlock (block : option BlockId) : M BlockId :=
  tok <- liftP getToken ;;
  let labelled : M BlockId :=
    let nameLoc := Token.loc tok in
    let n := Token.spelling tok in
    liftP (parseToken Token.caret_identifier "expected block name") ;;;
    r <- defineBlock n nameLoc block ;;
    let '(b, inflightBlock) := r in
    onFailure (match inflightBlock with
               | Some i => releaseOwnedBlock i
               | None => ret ()
               end)
      (tok <- liftP getToken ;;
       (if Token.is_ tok Token.l_paren then parseOptionalBlockArgList b
        else ret ()) ;;;
       liftP (parseToken Token.colon "expected ':' after block name") ;;;
       parseBlockBody b ;;;
       ret b) in
  match block with
  | Some b =>
      (* The first block of a region may already exist; its label is
         optional. *)
      if Token.isNot tok Token.caret_identifier
      then parseBlockBody b ;;; ret b
      else labelled
  | None => labelled
  end.

(** [parseRegionBody]. *)
Definition parseRegionBody (region : RegionId) (startLoc : SMLoc)
    (entryArguments : list Argument) (isIsolatedNameScope : bool) : M unit :=
  currentPt <- gets opBuilder ;;
  (* Push a new named value scope. *)
  pushSSANameScope isIsolatedNameScope ;;;
  (* Parse the first block directly to allow for it to be unnamed. *)
  owningBlock <- allocIR newBlock ;;
  block <-
    onFailure (releaseOwnedBlock owningBlock)
      ((* Add arguments to the entry block if we had the form with explicit
          names. *)
       match entryArguments with
       | first :: _ =>
           if negb (bool_decide (name (ssaName first) = ""))
           then
             tok <- liftP getToken ;;
             (if Token.is_ tok Token.caret_identifier
              then liftP (emitError
                     [ArgString "invalid block name in region with named arguments"])
              else ret ()) ;;;
             forEach (λ entryArg,
                let argInfo := ssaName entryArg in
                (* Ensure that the argument was not already defined. *)
                defLoc <- getReferenceLoc (name argInfo) (number argInfo) ;;
                match defLoc with
                | Some defLoc =>
                    liftP (emitErrorAt (location argInfo)
                             [ArgString ("region entry argument '"
                                         ++ name argInfo
                                         ++ "' is already in use")]
                             [(getEncodedSourceLocation defLoc,
                               [ArgString "previously referenced here"])])
                | None =>
                    let loc := default (getEncodedSourceLocation (location argInfo))
                                 (sourceLoc entryArg) in
                    p <- get ;;
                    r <- deref (addArgument owningBlock (type entryArg) loc (ir p)) ;;
                    modifyIR (λ _, r.2) ;;;
                    (* Record the definition for this argument. *)
                    addDefinition argInfo r.1
                end) entryArguments
           else ret ()
       | [] => ret ()
       end ;;;
       block <- parseBlock (Some owningBlock) ;;
       (* Verify that no other arguments were parsed. *)
       numArguments <- getNumArguments block ;;
       (if negb (bool_decide (entryArguments = []))
           && bool_decide (length entryArguments < numArguments)
        then liftP (emitError
               [ArgString "entry block arguments were already defined"])
        else ret ()) ;;;
       ret block) ;;
  (* Parse the rest of the region. *)
  modifyIR (region_push_back region owningBlock) ;;;
  while fuel
    (tok <- liftP getToken ;; ret (Token.isNot tok Token.r_brace))
    (newBlock <- parseBlock None ;;
     modifyIR (region_push_back region newBlock)) ;;;
  (* Pop the SSA value scope for this region. *)
  popSSANameScope ;;;
  (* Reset the original insertion point. *)
  modify (set_opBuilder currentPt).

(** [parseRegion]. *)
Definition parseRegion (region : RegionId) (entryArguments : list Argument)
    (isIsolatedNameScope : bool) : M unit :=
  lBraceTok <- liftP getToken ;;
  liftP (parseToken Token.l_brace "expected '{' to begin a region") ;;;
  tok <- liftP getToken ;;
  (if negb (bool_decide (entryArguments = []))
      || Token.isNot tok Token.r_brace
   then parseRegionBody region (Token.loc lBraceTok) entryArguments
          isIsolatedNameScope
   else ret ()) ;;;
  liftP (consumeTokenOfKind Token.r_brace).

(** The locals of [parseGenericOperationAfterOpName] run over the
    [OperationState] it fills in and the parser. *)
Definition G := StateM (OperationState * OperationParser).
Definition liftM {A} (m : M A) : G A := liftLocal m.
Definition modifyResult (f : OperationState → OperationState) : G unit :=
  modify (λ ls, (f ls.1, ls.2)).

(** The [do ... while (consumeIf(Token::comma))] over the regions. *)
Fixpoint parseRegionList (n : nat) : G unit :=
  match n with
  | O => undefined
  | S n' =>
      (* Create temporary regions with the top level region as parent. *)
      region <- liftM (allocIR newRegion) ;;
      modifyResult (addRegions [region]) ;;;
      liftM (parseRegion region [] false) ;;;
      more <- liftM (liftP (consumeIf Token.comma)) ;;
      if more then parseRegionList n' else ret ()
  end.

(** [parseGenericOperationAfterOpName] is read in three parts: the operand
    list, the successor list, and the rest (properties, regions, attributes,
    type and the resolution of the operands). *)

(** The operand list, if not explicitly provided. *)
Definition parseGenericOperands
    (parsedOperandUseInfo : option (list UnresolvedOperand))
  : G (list UnresolvedOperand) :=
  match parsedOperandUseInfo with
  | Some opInfo => ret opInfo
  | None =>
      liftM (liftP (parseToken Token.l_paren "expected '(' to start operand list")) ;;;
      opInfo <- liftM (liftP (parseOptionalSSAUseList fuel)) ;;
      liftM (liftP (parseToken Token.r_paren "expected ')' to end operand list")) ;;;
      ret opInfo
  end.

(** The successor list, if not explicitly provided. *)
Definition parseGenericSuccessors (parsedSuccessors : option (list BlockId))
  : G unit :=
  match parsedSuccessors with
  | None =>
      tok <- liftM (liftP getToken) ;;
      if Token.is_ tok Token.l_square then
        (* Check if the operation is not a known terminator. *)
        result <- (getLocal : G OperationState) ;;
        if negb (mightHaveTrait_IsTerminator env (os_name result))
        then liftM (liftP (emitError [ArgString "successors in non-terminator"]))
        else
          successors <- liftM (parseSuccessors fuel) ;;
          modifyResult (addSuccessors successors)
      else ret ()
  | Some successors => modifyResult (addSuccessors successors)
  end.

(** Properties, regions, attributes, the operation type, and the operands
    resolved against it. *)
Definition parseGenericRemainder
    (parsedOperandUseInfo : list UnresolvedOperand)
    (parsedRegions : option (list RegionId))
    (parsedAttributes : option (list NamedAttribute))
    (propertiesAttribute : option Attribute)
    (parsedFnType : option (list Ty * list Ty)) : G unit :=
  (* Parse the properties, if not explicitly provided. *)
  match propertiesAttribute with
  | Some a => modifyResult (set_propertiesAttr (Some a))
  | None =>
      isLess <- liftM (liftP (consumeIf Token.less)) ;;
      if isLess then
        a <- liftM (liftP (parseAttribute env)) ;;
        modifyResult (set_propertiesAttr (Some a)) ;;;
        liftM (liftP (parseToken Token.greater "expected '>' to close properties"))
      else ret ()
  end ;;;
  (* Parse the region list, if not explicitly provided. *)
  match parsedRegions with
  | None =>
      isParen <- liftM (liftP (consumeIf Token.l_paren)) ;;
      if isParen then
        parseRegionList fuel ;;;
        liftM (liftP (parseToken Token.r_paren "expected ')' to end region list"))
      else ret ()
  | Some regions => modifyResult (addRegions regions)
  end ;;;
  (* Parse the attributes, if not explicitly provided. *)
  match parsedAttributes with
  | None =>
      tok <- liftM (liftP getToken) ;;
      if Token.is_ tok Token.l_brace then
        attrs <- liftM (liftP (parseAttributeDict env)) ;;
        modifyResult (addAttributes attrs)
      else ret ()
  | Some attrs => modifyResult (addAttributes attrs)
  end ;;;
  (* Parse the operation type, if not explicitly provided. *)
  result <- (getLocal : G OperationState) ;;
  typed <-
    match parsedFnType with
    | Some fnType => ret (os_location result, fnType)
    | None =>
        liftM (liftP (parseToken Token.colon "expected ':' followed by operation type")) ;;;
        tok <- liftM (liftP getToken) ;;
        let typeLoc := getEncodedSourceLocation (Token.loc tok) in
        t <- liftM (liftP (parseType env)) ;;
        match dyn_cast_FunctionType env t with
        | Some fnType => ret (typeLoc, fnType)
        | None =>
            liftM (liftP (reportDiagnostic
                     (mkDiagnostic typeLoc [ArgString "expected function type"] []))) ;;;
            failure
        end
    end ;;
  let '(typeLoc, (operandTypes, resultTypes)) := typed in
  modifyResult (addTypes resultTypes) ;;;
  (* Check that we have the right number of types for the operands. *)
  (if negb (bool_decide (length operandTypes = length parsedOperandUseInfo))
   then
     let plural := if bool_decide (length parsedOperandUseInfo = 1)
                   then String "000"%char "" else "s" in
     liftM (liftP (reportDiagnostic
              (mkDiagnostic typeLoc
                 [ArgString "expected ";
                  ArgUnsigned (Z.of_nat (length parsedOperandUseInfo));
                  ArgString " operand type"; ArgString plural;
                  ArgString " but had ";
                  ArgUnsigned (Z.of_nat (length operandTypes))] []))) ;;;
     failure
   else ret ()) ;;;
  (* Resolve all of the operands. *)
  forEach (λ ut : UnresolvedOperand * Ty,
             v <- liftM (resolveSSAUse ut.1 ut.2) ;;
             modifyResult (addOperand v))
          (zip parsedOperandUseInfo operandTypes).

Definition parseGenericOperationAfterOpName
    (parsedOperandUseInfo : option (list UnresolvedOperand))
    (parsedSuccessors : option (list BlockId))
    (parsedRegions : option (list RegionId))
    (parsedAttributes : option (list NamedAttribute))
    (propertiesAttribute : option Attribute)
    (parsedFnType : option (list Ty * list Ty)) : G unit :=
  opInfo <- parseGenericOperands parsedOperandUseInfo ;;
  parseGenericSuccessors parsedSuccessors ;;;
  parseGenericRemainder opInfo parsedRegions parsedAttributes
    propertiesAttribute parsedFnType.

(** [StringRef(name).split('.').first]. *)
Fixpoint dialectNameOf (s : string) : string :=
  match s with
  | EmptyString => EmptyString
  | String c s' =>
      if bool_decide (c = "."%char) then EmptyString
      else String c (dialectNameOf s')
  end.

Definition set_op_properties (a : option Attribute) (o : Operation) :=
  mkOperation (op_name o) (op_loc o) (op_operands o) (op_types o)
    (op_successors o) (op_regions o) (op_attributes o) a.

(** [parseGenericOperation]: the operation in the generic form; null, here
    [Failure], when an error was reported. *)
Definition parseGenericOperation : M OpId :=
  tok <- liftP getToken ;;
  (* Get location information for the operation. *)
  let srcLocation := getEncodedSourceLocation (Token.loc tok) in
  let opName := getStringValue env tok in
  (if bool_decide (opName = "")
   then liftP (emitError [ArgString "empty operation name is invalid"])
   else ret ()) ;;;
  (if contains "000"%char opName
   then liftP (emitError
          [ArgString "null character not allowed in operation name"])
   else ret ()) ;;;
  liftP (consumeTokenOfKind Token.string) ;;;
  let result := mkOperationState srcLocation opName [] [] [] [] [] None in
  (* Lazy load dialects in the context as needed. *)
  (if negb (isRegistered env opName)
      && negb (dialectAvailable env (dialectNameOf opName))
      && negb (allowsUnregisteredDialects env)
   then liftP (emitError
          [ArgString ("operation being parsed with an unregistered dialect. If "
                      ++ "this is intended, please use -allow-unregistered-dialect "
                      ++ "with the MLIR tool used")])
   else ret ()) ;;;
  r <- runLocalAttempt result
         (parseGenericOperationAfterOpName None None None None None None) ;;
  let result := r.2 in
  (if r.1 is Some _ then ret () else cleanupOpStateRegions result ;;; failure) ;;;
  let properties := os_propertiesAttr result in
  let result := set_propertiesAttr None result in
  (* Pre-validate the inherent attributes of a registered operation that has
     no properties in the text. *)
  (if properties is None then
     if isRegistered env opName
     then onFailure (cleanupOpStateRegions result)
            (liftP (verifyInherentAttrs env opName (os_attributes result)
                      srcLocation))
     else ret ()
   else ret ()) ;;;
  (* Create the operation and try to parse a location for it. *)
  op <- create result ;;
  parseTrailingLocationSpecifier (IsOperation op) ;;;
  (* Try setting the properties for the operation. *)
  match properties with
  | Some a =>
      match setPropertiesFromAttribute env opName a with
      | None => modifyIR (set_ops (alter (set_op_properties (Some a)) op))
      | Some reason =>
          liftP (reportDiagnostic
                   (mkDiagnostic srcLocation
                      ([ArgString "invalid properties "; ArgAttribute a;
                        ArgString " for op "; ArgString opName; ArgString ": "]
                       ++ reason) [])) ;;;
          failure
      end
  | None => ret ()
  end ;;;
  ret op.

(** [op->getResult(i)]. *)
Definition getResult (op : OpId) (i : nat) : M Value :=
  p <- get ;;
  n <- deref (getNumResults (ir p) op) ;;
  if bool_decide (i < n) then ret (OpResult op i) else undefined.

(** The lambda [parseNextResult] of [parseOperation]; [resultIDs] and
    [numExpectedResults] are the locals it adds to. *)
Definition parseNextResult : StateM (list ResultRecord * Z * ParserState) unit :=
  (* Parse the next result id. *)
  nameTok <- liftLocal getToken ;;
  liftLocal (parseToken Token.percent_identifier "expected valid ssa identifier") ;;;
  (* If the next token is a ':', we parse the expected result count. *)
  isColon <- liftLocal (consumeIf Token.colon) ;;
  expectedSubResults <-
    (if isColon then
       tok <- liftLocal getToken ;;
       (* Check that the next token is an integer. *)
       if negb (Token.is_ tok Token.integer)
       then liftLocal (emitWrongTokenError "expected integer number of results")
       else
         (* Check that number of results is > 0. *)
         match getUInt64IntegerValue env tok with
         | Some val =>
             if bool_decide (val < 1)%Z
             then liftLocal (emitError
                    [ArgString "expected named operation to have at least 1 result"])
             else liftLocal (consumeTokenOfKind Token.integer) ;;; ret val
         | None =>
             liftLocal (emitError
               [ArgString "expected named operation to have at least 1 result"])
         end
     else ret 1%Z) ;;
  locals <- getLocal ;;
  let '(resultIDs, numExpectedResults) := locals in
  setLocal (resultIDs ++ [(Token.spelling nameTok, wrap32 expectedSubResults,
                           Token.loc nameTok)],
            wrap64 (numExpectedResults + expectedSubResults)).

(** The result list of [parseOperation]: [resultIDs] and
    [numExpectedResults] once the list and its [=] are read. *)
Definition parseResultList : P (list ResultRecord * Z) :=
  tok <- getToken ;;
  if Token.is_ tok Token.percent_identifier then
    r <- runLocal ([], 0%Z)
           (parseCommaSeparatedList (@liftLocal _ _) fuel DelimNone
              parseNextResult "") ;;
    parseToken Token.equal "expected '=' after SSA name" ;;;
    ret r.2
  else ret ([], 0%Z).

(** The operation after the result list of [parseOperation], in the custom
    or the generic form. *)
Definition parseOperationBody (resultIDs : list ResultRecord) : M OpId :=
  nameTok <- liftP getToken ;;
  if Token.is_ nameTok Token.bare_identifier || Token.isKeyword nameTok
  then parseCustomOperation env resultIDs
  else if Token.is_ nameTok Token.string
  then parseGenericOperation
  else if isCodeCompletionFor env nameTok Token.string
  then codeComplete
  else if Token.isCodeCompletion nameTok
  then codeComplete
  else liftP (emitWrongTokenError "expected operation name in quotes").

(** The end of [parseOperation]: the names of the result list are bound to
    the results of the operation. *)
Definition registerResults (loc : SMLoc) (resultIDs : list ResultRecord)
    (numExpectedResults : Z) (op : OpId) : M unit :=
  if negb (bool_decide (resultIDs = [])) then
    p <- get ;;
    numResults <- deref (getNumResults (ir p) op) ;;
    if bool_decide (numResults = 0)
    then liftP (emitErrorAt loc
                  [ArgString "cannot name an operation with no results"] [])
    else if negb (bool_decide (numExpectedResults = Z.of_nat numResults))
    then liftP (emitErrorAt loc
                  [ArgString "operation defines ";
                   ArgUnsigned (Z.of_nat numResults);
                   ArgString " results but was provided ";
                   ArgUnsigned numExpectedResults;
                   ArgString " to bind"] [])
    else
      (* Add definitions for each of the result groups. *)
      r <- runLocal 0
             (forEach (λ resIt : ResultRecord,
                forEach (λ subRes : nat,
                   opResI <- getLocal ;;
                   setLocal (S opResI) ;;;
                   v <- liftLocal (getResult op opResI) ;;
                   liftLocal (addDefinition
                                (mkUnresolvedOperand resIt.2 resIt.1.1 subRes) v))
                  (seq 0 (Z.to_nat resIt.1.2)))
                resultIDs) ;;
      ret ()
  else ret ().

(** [parseOperation], given [parseOperation] for the nested operations. *)
Definition parseOperationStep : M unit :=
  tok <- liftP getToken ;;
  let loc := Token.loc tok in
  results <- liftP parseResultList ;;
  let '(resultIDs, numExpectedResults) := results in
  op <- parseOperationBody resultIDs ;;
  (* If the operation had a name, register it. *)
  registerResults loc resultIDs numExpectedResults op.

End Recursive.

(** [parseOperation]: an operation, with its nested regions. *)
Fixpoint parseOperation (fuel : nat) : M unit :=
  match fuel with
  | O => undefined
  | S fuel' => parseOperationStep fuel' (parseOperation fuel')
  end.

(** *** [finalize] *)

(** The lambda [resolveLocation] of [finalize]. *)
Definition resolveLocation (opOrArgument : OpOrArgument) : M unit :=
  p <- get ;;
  l <- deref (getLoc (ir p) opOrArgument) ;;
  match l with
  | OpaqueLoc underlying DeferredLocInfoID _ =>
      locInfo <- deref (deferredLocsReferences p !! underlying) ;;
      match attributeAliasDefinitions (state p) !! dl_identifier locInfo with
      | None =>
          liftP (emitErrorAt (dl_loc locInfo)
                   [ArgString "operation location alias was never defined"] [])
      | Some attr =>
          match dyn_cast_LocationAttr attr with
          | None =>
              liftP (emitErrorAt (dl_loc locInfo)
                       [ArgString "expected location, but found '";
                        ArgAttribute attr; ArgString "'"] [])
          | Some locAttr => modifyIR (setLoc opOrArgument locAttr)
          end
      end
  | _ => ret ()
  end.

(** The arguments of the blocks of the regions of an operation, in order. *)
Definition regionArguments (g : IR) (op : OpId) : list OpOrArgument :=
  match ir_ops g !! op with
  | None => []
  | Some o =>
      region ← op_regions o;
      block ← default [] (ir_regions g !! region);
      match ir_blocks g !! block with
      | None => []
      | Some blk => IsArgument block <$> seq 0 (length (blk_arguments blk))
      end
  end.

(** The callback of [topLevelOp->walk] in [finalize]. *)
Definition resolveLocationsOf (op : OpId) : M unit :=
  resolveLocation (IsOperation op) ;;;
  p <- get ;;
  forEach resolveLocation (regionArguments (ir p) op).

(** [finalize]: after parsing is finished, see if there are any remaining
    issues. *)
Definition finalize : M unit :=
  p <- get ;;
  (* Check for any forward references that are left. *)
  (if negb (bool_decide (forwardRefPlaceholders p = ∅)) then
     let errors :=
       array_pod_sort_locs (snd <$> map_to_list (forwardRefPlaceholders p)) in
     forEach (λ entry,
                liftP (reportErrorAt entry
                         [ArgString "use of undeclared SSA value name"] []))
             errors ;;;
     failure
   else ret ()) ;;;
  (* Resolve the locations of any deferred operations. *)
  forEach resolveLocationsOf (walk env (ir p) (topLevelOp p)) ;;;
  (* Pop the top level name scope. *)
  popSSANameScope ;;;
  (* Verify that the parsed operations are valid. *)
  (if shouldVerifyAfterParse env
   then p <- get ;; liftP (verify env (ir p) (topLevelOp p))
   else ret ()).

(** *** Construction, destruction and the top-level loop *)

(** [OperationParser::OperationParser]: the builder inserts into the body of
    the top-level operation, and a first isolated scope is open. *)
Definition getBody (g : IR) (top : OpId) : option BlockId :=
  o ← ir_ops g !! top; r ← op_regions o !! 0; bs ← ir_regions g !! r; bs !! 0.

Definition newOperationParser (st : ParserState) (g : IR) (top : OpId)
  : Outcome unit * OperationParser :=
  pushSSANameScope true
    (mkOperationParser st g [] [] [] ∅ ∅ [] (getBody g top) top).

(** [OperationParser::~OperationParser]: what is left of the forward
    references is dropped and freed. *)
Definition destroyOperationParser (p : OperationParser) : IR :=
  let g :=
    foldr (λ op g, destroyOperation env op (dropAllUsesOfOperation env op g))
      (ir p) (elements (forwardRefOps p)) in
  foldr (λ scope g,
           foldr (λ fwd g, deleteBlock env fwd.1 (dropAllUsesOfBlock env fwd.1 g))
             g (map_to_list scope))
    g (forwardRef p).

(** [parseAttributeAliasDef]. *)
Definition parseAttributeAliasDef : P unit :=
  tok <- getToken ;;
  if negb (Token.is_ tok Token.hash_identifier) then undefined
  else
    let aliasName := drop_front (Token.spelling tok) in
    st <- get ;;
    (* Check for redefinitions. *)
    if bool_decide (is_Some (attributeAliasDefinitions st !! aliasName))
    then emitError [ArgString ("redefinition of attribute alias id '"
                               ++ aliasName ++ "'")]
    else if contains "."%char aliasName
    then emitError [ArgString ("attribute names with a '.' are reserved for "
                               ++ "dialect-defined names")]
    else
      consumeTokenOfKind Token.hash_identifier ;;;
      parseToken Token.equal "expected '=' in attribute alias definition" ;;;
      attr <- parseAttribute env ;;
      modify (λ st, set_attributeAliasDefinitions
                      (<[aliasName := attr]> (attributeAliasDefinitions st)) st).

(** [parseTypeAliasDef]. *)
Definition parseTypeAliasDef : P unit :=
  tok <- getToken ;;
  if negb (Token.is_ tok Token.exclamation_identifier) then undefined
  else
    let aliasName := drop_front (Token.spelling tok) in
    st <- get ;;
    if bool_decide (is_Some (typeAliasDefinitions st !! aliasName))
    then emitError [ArgString ("redefinition of type alias id '"
                               ++ aliasName ++ "'")]
    else if contains "."%char aliasName
    then emitError [ArgString ("type names with a '.' are reserved for "
                               ++ "dialect-defined names")]
    else
      consumeTokenOfKind Token.exclamation_identifier ;;;
      parseToken Token.equal "expected '=' in type alias definition" ;;;
      aliasedType <- parseType env ;;
      modify (λ st, set_typeAliasDefinitions
                      (<[aliasName := aliasedType]> (typeAliasDefinitions st)) st).

(** [ModuleOp::create]: a module with one region of one empty block. *)
Definition createModule (parserLoc : Location) (g : IR) : OpId * IR :=
  let '(b, g) := newBlock g in
  let '(r, g) := newRegion g in
  createOperation (mkOperation "builtin.module" parserLoc [] [] [] [r] [] None)
    (region_push_back r b g).

(** The splice of the parsed operations into the block of the caller. *)
Definition spliceInto (topLevelBlock : BlockId) (p : OperationParser) : IR :=
  match getBody (ir p) (topLevelOp p) with
  | Some body =>
      let parsedOps :=
        default [] (blk_operations <$> ir_blocks (ir p) !! body) in
      set_blocks
        (λ bs, alter (λ blk, mkBlock (blk_arguments blk) [])
                 body
                 (alter (λ blk, mkBlock (blk_arguments blk)
                                  (blk_operations blk ++ parsedOps))
                    topLevelBlock bs))
        (ir p)
  | None => ir p
  end.

(** The loop of [TopLevelOperationParser::parse], run by the operation
    parser of the file. *)
Fixpoint parseTopLevel (fuel : nat) : M unit :=
  match fuel with
  | O => undefined
  | S fuel' =>
      tok <- liftP getToken ;;
      match Token.kind tok with
      | Token.eof =>
          (* If we got to the end of the file, then we're done. *)
          finalize
      | Token.error =>
          (* The lexer already emitted an error, just stop. *)
          failure
      | Token.hash_identifier =>
          liftP parseAttributeAliasDef ;;; parseTopLevel fuel'
      | Token.exclamation_identifier =>
          liftP parseTypeAliasDef ;;; parseTopLevel fuel'
      | Token.file_metadata_begin =>
          liftP (parseFileMetadataDictionary env) ;;; parseTopLevel fuel'
      | _ =>
          (* Parse a top-level operation. *)
          parseOperation fuel' ;;; parseTopLevel fuel'
      end
  end.

(** [TopLevelOperationParser::parse]: the outcome, the parser state and the
    graph once the operation parser and the module are destroyed. *)
Definition parse (fuel : nat) (topLevelBlock : BlockId) (parserLoc : Location)
    (st : ParserState) (g : IR) : Outcome unit * ParserState * IR :=
  let '(top, g) := createModule parserLoc g in
  let '(r, p) :=
    bind (λ _, newOperationParser st g top) (λ _, parseTopLevel fuel)
      (mkOperationParser st g [] [] [] ∅ ∅ [] None top) in
  let p := match r with
           | Success _ => set_ir (spliceInto topLevelBlock p) p
           | _ => p
           end in
  (r, state p, destroyOperation env top (destroyOperationParser p)).

End OperationParser.

(** ** Vocabulary of the properties *)

(** The current token is not a lexer error: the lexer has reported those, and
    [Parser::emitError] abandons its own diagnostic there. *)
Definition notLexerError (p : OperationParser) : Prop :=
  Token.kind (curToken (state p)) ≠ Token.error.

(** The parser once the given diagnostics are reported. *)
Definition addDiagnostics (ds : list Diagnostic) (p : OperationParser)
  : OperationParser :=
  set_state (set_diagnostics (diagnostics (state p) ++ ds) (state p)) p.

(** An error without notes at a location of the source. *)
Definition plainError (message : string) (l : SMLoc) : Diagnostic :=
  mkDiagnostic (getEncodedSourceLocation l) [ArgString message] [].

Definition undeclaredValueError : SMLoc → Diagnostic :=
  plainError "use of undeclared SSA value name".
Definition undefinedBlockError : SMLoc → Diagnostic :=
  plainError "reference to an undefined block".
Definition aliasNeverDefinedError : SMLoc → Diagnostic :=
  plainError "operation location alias was never defined".
Definition expectedLocationError (l : SMLoc) (attr : Attribute) : Diagnostic :=
  mkDiagnostic (getEncodedSourceLocation l)
    [ArgString "expected location, but found '"; ArgAttribute attr;
     ArgString "'"] [].

(** [m] leaves the component [f] of the state as it was, whatever its
    outcome. *)
Definition preserves {St A X} (f : St → X) (m : StateM St A) : Prop :=
  ∀ s r s', m s = (r, s') → f s' = f s.

(** The parser state once the current token is consumed. *)
Definition advance (st : ParserState) : ParserState :=
  match lexRest st with
  | [] => set_tokens (eofToken st) [] st
  | t :: r => set_tokens t r st
  end.



(** What the walk of [finalize] visits, in order: each operation, then the
    arguments of the blocks of its regions. *)
Definition visited (env : Collaborators) (p : OperationParser)
  : list OpOrArgument :=
  op ← walk env (ir p) (topLevelOp p);
  IsOperation op :: regionArguments (ir p) op.



(** From a state in [I], whenever [m] succeeds its result and final state
    are in [Q]. *)
Definition ensures {St A} (I : St → Prop) (m : StateM St A)
    (Q : A → St → Prop) : Prop :=
  ∀ s a s', I s → m s = (Success a, s') → Q a s'.

(** The declared sizes behind the locals of the result list: what
    [resultIDs] keeps of them, and their sum in [size_t]. *)
Definition declaredSizes (sizes : list Z) (locals : list ResultRecord * Z)
  : Prop :=
  (λ r : ResultRecord, r.1.2) <$> locals.1 = wrap32 <$> sizes
  ∧ locals.2 = wrap64 (foldr Z.add 0%Z sizes)
  ∧ Forall (λ v, 1 ≤ v)%Z sizes.

Definition noResultsError : SMLoc → Diagnostic :=
  plainError "cannot name an operation with no results".
Definition atLeastOneResultError : SMLoc → Diagnostic :=
  plainError "expected named operation to have at least 1 result".
Definition resultCountError (l : SMLoc) (numResults : nat)
    (numExpectedResults : Z) : Diagnostic :=
  mkDiagnostic (getEncodedSourceLocation l)
    [ArgString "operation defines "; ArgUnsigned (Z.of_nat numResults);
     ArgString " results but was provided "; ArgUnsigned numExpectedResults;
     ArgString " to bind"] [].

(** The entry [n#num] of the innermost isolated scope holds [v], recorded at
    location [l]. *)
Definition boundTo (p : OperationParser) (n : string) (num : nat)
    (v : Value) (l : SMLoc) : Prop :=
  ∃ scope rest entries,
    isolatedNameScopes p = scope :: rest ∧
    values scope !! n = Some entries ∧
    entries !! num = Some (mkValueDefinition (Some v) l).

(** The entry [n#num] of the innermost isolated scope holds no value. *)
Definition unbound (p : OperationParser) (n : string) (num : nat) : Prop :=
  ∃ scope rest,
    isolatedNameScopes p = scope :: rest ∧
    default [] (values scope !! n) !! num ≫= vd_value = None.

(** [v] is a forward-reference placeholder of type [t]: a result of an
    operation the parser has allocated. *)
Definition placeholderOfType (p : OperationParser) (v : Value) (t : Ty) : Prop :=
  is_Some (forwardRefPlaceholders p !! v) ∧
  getType (ir p) v = Some t ∧
  ∃ o i, v = OpResult o i ∧ o < ir_nextOp (ir p).

Definition typeMismatchError (defLoc : SMLoc) (n : string) (num : nat)
    (defType : Ty) (useLoc : SMLoc) (useType : Ty) : Diagnostic :=
  mkDiagnostic (getEncodedSourceLocation defLoc)
    [ArgString "definition of SSA value '"; ArgString n; ArgString "#";
     ArgUnsigned (Z.of_nat num); ArgString "' has type "; ArgType defType]
    [(getEncodedSourceLocation useLoc,
      [ArgString "previously used here with type "; ArgType useType])].

(** The uses of a list resolved in order: the values they refer to. *)
Fixpoint resolveAll (uses : list (UnresolvedOperand * Ty)) : M (list Value) :=
  match uses with
  | [] => ret []
  | (useInfo, t) :: uses' =>
      v <- resolveSSAUse useInfo t ;;
      vs <- resolveAll uses' ;;
      ret (v :: vs)
  end.

(** In the current scope the label [n] stands for the block [b], which is
    referenced and not yet defined. *)
Definition forwardDeclared (p : OperationParser) (n : string) (b : BlockId)
  : Prop :=
  ∃ m rest f rest' l,
    blocksByName p = m :: rest ∧
    m !! n = Some (mkBlockDefinition (Some b) l) ∧
    forwardRef p = f :: rest' ∧
    is_Some (f !! b).

(** In the current scope the label [n] stands for the block [b]. *)
Definition standsFor (p : OperationParser) (n : string) (b : BlockId) : Prop :=
  ∃ m rest, blocksByName p = m :: rest ∧ m !! n ≫= bd_block = Some b.

(** In the current scope the label [n] stands for no block yet. *)
Definition unknownLabel (p : OperationParser) (n : string) : Prop :=
  ∃ m rest, blocksByName p = m :: rest ∧ m !! n ≫= bd_block = None.

(** The blocks of the labels of the current scope are allocated, and two
    labels do not share a block. *)
Definition registryWellFormed (p : OperationParser) : Prop :=
  ∃ m rest,
    blocksByName p = m :: rest ∧
    (∀ n b, m !! n ≫= bd_block = Some b → b < ir_nextBlock (ir p)) ∧
    (∀ n1 n2 b, m !! n1 ≫= bd_block = Some b → m !! n2 ≫= bd_block = Some b →
                n1 = n2).

(** What the parser does with the labels of one scope: a branch refers to a
    label, a block after the first one of the region is defined, or a block
    is allocated for something else (a nested region, say). *)
Inductive BlockEvent :=
| Reference (n : string) (l : SMLoc)
| Define (n : string) (l : SMLoc)
| Allocate.

Definition runBlockEvent (e : BlockEvent) : M BlockId :=
  match e with
  | Reference n l => getBlockNamed n l
  | Define n l => r <- defineBlock n l None ;; ret r.1
  | Allocate => allocIR newBlock
  end.

Fixpoint runBlockEvents (es : list BlockEvent) : M (list BlockId) :=
  match es with
  | [] => ret []
  | e :: es' =>
      b <- runBlockEvent e ;;
      bs <- runBlockEvents es' ;;
      ret (b :: bs)
  end.

Definition definesLabel (n : string) (e : BlockEvent) : Prop :=
  match e with
  | Define n' _ => n' = n
  | Reference _ _ | Allocate => False
  end.

(** No run of [m] succeeds. *)
Definition neverSucceeds {St A} (m : StateM St A) : Prop :=
  ∀ s a s', m s ≠ (Success a, s').

(** The locals of the result list stand for some declared sizes. *)
Definition someDeclaredSizes (ls : list ResultRecord * Z * ParserState) : Prop :=
  ∃ sizes, declaredSizes sizes ls.1.

(** The parser after the first reference to a label. *)
Definition afterForwardReference (n : string) (l : SMLoc)
    (m : gmap string BlockDefinition) (rest : list (gmap string BlockDefinition))
    (f : gmap BlockId SMLoc) (rest' : list (gmap BlockId SMLoc))
    (p : OperationParser) : OperationParser :=
  let b := ir_nextBlock (ir p) in
  set_forwardRef ((if f !! b is Some _ then f else <[b := l]> f) :: rest')
    (set_blocksByName (<[n := mkBlockDefinition (Some b) l]> m :: rest)
       (set_ir (newBlock (ir p)).2 p)).

(** ** A concrete parser

    An instance of the collaborators, over a small language of types,
    locations and attributes, and files to run the parser on. *)

Module Demo.

(** The value of a decimal literal. *)
Fixpoint digitsValue (acc : Z) (s : string) : option Z :=
  match s with
  | EmptyString => Some acc
  | String c s' =>
      let n := Z.of_nat (nat_of_ascii c) in
      if bool_decide (48 ≤ n ≤ 57)%Z then digitsValue (10 * acc + (n - 48))%Z s'
      else None
  end.
Definition decimalValue (s : string) : option Z :=
  match s with EmptyString => None | _ => digitsValue 0 s end.

(** The types: the integer types [iN], and the function types over types. *)
Definition TypeCode : Type := N + list N * list N.
Definition intTy (width : Z) : Ty := encode (inl (Z.to_N width) : TypeCode).
Definition fnTy (ins outs : list Ty) : Ty :=
  encode (inr (Npos <$> ins, Npos <$> outs) : TypeCode).
Definition asTy (n : N) : Ty :=
  match n with Npos p => p | N0 => 1%positive end.
Definition asFunction (t : Ty) : option (list Ty * list Ty) :=
  match decode t : option TypeCode with
  | Some (inr (ins, outs)) => Some (asTy <$> ins, asTy <$> outs)
  | _ => None
  end.

(** [iN]. *)
Definition atomType : P Ty :=
  tok <- getToken ;;
  if Token.is_ tok Token.inttype then
    match decimalValue (drop_front (Token.spelling tok)) with
    | Some w => consumeToken ;;; ret (intTy w)
    | None => emitError [ArgString "invalid integer width"]
    end
  else emitError [ArgString "expected non-function type"].

(** [( type, ... )]. *)
Definition typeList (fuel : nat) : P (list Ty) :=
  parseToken Token.l_paren "expected '('" ;;;
  e <- consumeIf Token.r_paren ;;
  if e then ret []
  else
    r <- runLocal []
           (parseCommaSeparatedList (@liftLocal _ _) fuel DelimNone
              (t <- liftLocal atomType ;;
               ts <- getLocal ;;
               setLocal (ts ++ [t])) "") ;;
    parseToken Token.r_paren "expected ')'" ;;;
    ret r.2.

(** A type: [iN], or [( types ) -> type] or [( types ) -> ( types )]. *)
Definition demoType : P Ty :=
  tok <- getToken ;;
  if Token.is_ tok Token.l_paren then
    ins <- typeList 16 ;;
    parseToken Token.arrow "expected '->' in function type" ;;;
    tok <- getToken ;;
    outs <- (if Token.is_ tok Token.l_paren then typeList 16
             else t <- atomType ;; ret [t]) ;;
    ret (fnTy ins outs)
  else atomType.

(** A location instance: a string. *)
Definition demoLocation : P Location :=
  tok <- getToken ;;
  if Token.is_ tok Token.string
  then consumeToken ;;; ret (LiteralLoc (String.length (Token.spelling tok)))
  else emitError [ArgString "expected location instance"].

(** An attribute: [loc( location )], or a string. *)
Definition demoAttribute : P Attribute :=
  tok <- getToken ;;
  if Token.is_ tok Token.kw_loc then
    consumeToken ;;;
    parseToken Token.l_paren "expected '(' in inline location" ;;;
    l <- demoLocation ;;
    parseToken Token.r_paren "expected ')' in inline location" ;;;
    ret (LocationAttr l)
  else if Token.is_ tok Token.string
  then consumeToken ;;; ret (OtherAttr (String.length (Token.spelling tok)))
  else emitError [ArgString "expected attribute value"].

(** The operations nested in [op], then [op]. *)
Fixpoint walkPostOrder (fuel : nat) (g : IR) (op : OpId) : list OpId :=
  match fuel with
  | O => []
  | S fuel' =>
      match ir_ops g !! op with
      | None => []
      | Some o =>
          (region ← op_regions o;
           block ← default [] (ir_regions g !! region);
           nested ← default [] (blk_operations <$> ir_blocks g !! block);
           walkPostOrder fuel' g nested) ++ [op]
      end
  end.

(** The text of a string token. *)
Definition stripQuotes (s : string) : string :=
  match s with
  | EmptyString => EmptyString
  | String _ s' => String.substring 0 (String.length s' - 1) s'
  end.

(** The collaborators: ["test.op"] is the one registered operation, and it is
    no terminator; nothing is verified; the custom syntax knows no
    operation. *)
Definition env : Collaborators := {|
  getUInt64IntegerValue tok :=
    v ← decimalValue (Token.spelling tok);
    if bool_decide (v < 2 ^ 64)%Z then Some v else None;
  getHashIdentifierNumber tok :=
    Z.to_nat <$> decimalValue (drop_front (Token.spelling tok));
  getStringValue tok := stripQuotes (Token.spelling tok);
  isCodeCompletionFor _ _ := false;
  parseType := demoType;
  parseAttribute := demoAttribute;
  parseAttributeDict := emitError [ArgString "expected attribute dictionary"];
  parseLocationInstance := demoLocation;
  dyn_cast_FunctionType := asFunction;
  isRegistered n := bool_decide (n = "test.op");
  dialectAvailable n := bool_decide (n = "test");
  allowsUnregisteredDialects := true;
  mightHaveTrait_IsTerminator n := negb (bool_decide (n = "test.op"));
  verifyInherentAttrs _ _ _ := ret ();
  setPropertiesFromAttribute _ _ := None;
  shouldVerifyAfterParse := false;
  verify _ _ := ret ();
  walk g op := walkPostOrder 8 g op;
  dropAllDefinedValueUses _ g := g;
  dropAllUsesOfBlock _ g := g;
  deleteBlock b g := set_blocks (delete b) g;
  dropAllUsesOfOperation _ g := g;
  destroyOperation o g := set_ops (delete o) g;
  parseFileMetadataDictionary :=
    emitError [ArgString "unsupported file metadata"];
  parseCustomOperation _ := liftP (emitError [ArgString "custom op is unknown"])
|}.

(** *** Files

    A file is the list of its tokens; [located] puts them one blank apart. *)

Definition q : string := String "034"%char "".
Definition tk (k : Token.Kind) (s : string) (l : nat) : Token.t :=
  Token.mk k s (Z.of_nat l).

Definition File : Type := list (Token.Kind * string).

Fixpoint located (at_ : nat) (l : File) : list Token.t :=
  match l with
  | [] => []
  | (k, sp) :: l' => tk k sp at_ :: located (at_ + String.length sp + 1) l'
  end.
Definition extent (l : File) : Z :=
  Z.of_nat (foldr (λ t n, String.length t.2 + 1 + n) 0 l).

(** The parser state at the first token of a file; the characters of the
    buffer are not kept. *)
Definition stateOf (l : File) : ParserState :=
  let buffer := replicate (Z.to_nat (extent l)) " "%char in
  match located 0 l with
  | [] => mkParserState 0 buffer (Token.mk Token.eof "" (extent l)) [] ∅ ∅ []
  | t :: r => mkParserState 0 buffer t r ∅ ∅ []
  end.

(** The graph of the caller: one block, for the parsed operations. *)
Definition emptyIR : IR := mkIR ∅ ∅ ∅ 0 0 0.
Definition startIR : IR := (newBlock emptyIR).2.

(** The parse of a file, its outcome and its diagnostics. *)
Definition run (l : File) : Outcome unit * ParserState * IR :=
  parse env 64 0 UnknownLoc (stateOf l) startIR.
Definition outcomeOf (l : File) : Outcome unit := (run l).1.1.
Definition diagsOf (l : File) : list Diagnostic := diagnostics (run l).1.2.

Definition pct (s : string) := (Token.percent_identifier, s).
Definition str (s : string) := (Token.string, (q ++ s ++ q)%string).
Definition lp := (Token.l_paren, "(").
Definition rp := (Token.r_paren, ")").
Definition lb := (Token.l_brace, "{").
Definition rb := (Token.r_brace, "}").
Definition ls := (Token.l_square, "[").
Definition rs := (Token.r_square, "]").
Definition col := (Token.colon, ":").
Definition com := (Token.comma, ",").
Definition eq := (Token.equal, "=").
Definition arr := (Token.arrow, "->").
Definition ity (s : string) := (Token.inttype, s).
Definition int (s : string) := (Token.integer, s).
Definition caret (s : string) := (Token.caret_identifier, s).
Definition hash (s : string) := (Token.hash_identifier, s).
Definition kloc := (Token.kw_loc, "loc").

(** [: () -> ()] and [: (i32) -> ()]. *)
Definition noneToNone : File := [col; lp; rp; arr; lp; rp].
Definition i32ToNone : File := [col; lp; ity "i32"; rp; arr; lp; rp].

(** [%r:3 = "op"() : () -> (i32)] *)
Definition tooManyNames : File :=
  [pct "%r"; col; int "3"; eq; str "op"; lp; rp;
   col; lp; rp; arr; lp; ity "i32"; rp].

(** ["use"(%1) : (i32) -> ()] *)
Definition undeclaredUse : File :=
  [str "use"; lp; pct "%1"; rp] ++ i32ToNone.

(** [%0 = "x"() : () -> i32] and ["use"(%0) : (i32) -> ()] *)
Definition defineThenUse : File :=
  [pct "%0"; eq; str "x"; lp; rp; col; lp; rp; arr; ity "i32";
   str "use"; lp; pct "%0"; rp] ++ i32ToNone.

(** [{ ^bb0: "br"()[^bb1] : () -> () }] *)
Definition branchRegion : File :=
  [lb; caret "^bb0"; col; str "br"; lp; rp; ls; caret "^bb1"; rs]
  ++ noneToNone ++ [rb].

(** ["r"() ({ ^bb0: "br"()[^bb1] : () -> () ^bb1: "t"() : () -> () }) : () -> ()] *)
Definition forwardBranch : File :=
  [str "r"; lp; rp; lp; lb;
   caret "^bb0"; col; str "br"; lp; rp; ls; caret "^bb1"; rs] ++ noneToNone
  ++ [caret "^bb1"; col; str "t"; lp; rp] ++ noneToNone
  ++ [rb; rp] ++ noneToNone.

(** ["r"() ({ ^bb0: "br"()[^bb1] : () -> () }) : () -> ()] *)
Definition undefinedBranch : File :=
  [str "r"; lp; rp; lp] ++ branchRegion ++ [rp] ++ noneToNone.

(** [%a = "op"() : () -> i32], twice *)
Definition redefinition : File :=
  [pct "%a"; eq; str "op"; lp; rp; col; lp; rp; arr; ity "i32";
   pct "%a"; eq; str "op"; lp; rp; col; lp; rp; arr; ity "i32"].

(** ["op"() : () -> () loc(#L)] *)
Definition aliasNeverDefined : File :=
  [str "op"; lp; rp] ++ noneToNone ++ [kloc; lp; hash "#L"; rp].

(** ["op"() : () -> () loc(#L)] and [#L = loc("a")] *)
Definition aliasDefinedLater : File :=
  aliasNeverDefined ++ [hash "#L"; eq; kloc; lp; str "a"; rp].

(** ["op"() : () -> () loc(#L)] and [#L = "a"] *)
Definition aliasNotLocation : File :=
  aliasNeverDefined ++ [hash "#L"; eq; str "a"].

(** ["use"(%1) : (i32) -> ()] and ["op"() : () -> () loc(#L)] *)
Definition undeclaredUseAndAlias : File :=
  undeclaredUse ++ aliasNeverDefined.



(** ["use"(%x#1) : (i32) -> ()], ["r"() ({ %x = "a"() : () -> i64 }) : () -> ()]
    and [%x:2 = "b"() : () -> (i32, i16)] *)
Definition nestedDefinition : File :=
  [str "use"; lp; pct "%x"; hash "#1"; rp] ++ i32ToNone
  ++ [str "r"; lp; rp; lp; lb;
      pct "%x"; eq; str "a"; lp; rp; col; lp; rp; arr; ity "i64";
      rb; rp] ++ noneToNone
  ++ [pct "%x"; col; int "2"; eq; str "b"; lp; rp;
      col; lp; rp; arr; lp; ity "i32"; com; ity "i16"; rp].

(** ["use"(%x) : (i32) -> ()] and [%x = "b"() : () -> (i16)] *)
Definition typeMismatch : File :=
  [str "use"; lp; pct "%x"; rp] ++ i32ToNone
  ++ [pct "%x"; eq; str "b"; lp; rp; col; lp; rp; arr; lp; ity "i16"; rp].

(** [%r = "op"() : () -> ()] *)
Definition nameWithoutResult : File :=
  [pct "%r"; eq; str "op"; lp; rp] ++ noneToNone.

(** [%a, %b:2 = "op"() : () -> (i32)] *)
Definition twoGroups : File :=
  [pct "%a"; com; pct "%b"; col; int "2"; eq; str "op"; lp; rp;
   col; lp; rp; arr; lp; ity "i32"; rp].

(** [%a:9223372036854775808, %b:9223372036854775808, %c = "op"() : () -> (i32)],
    where the sizes of [%a] and [%b] are [2^63]. *)
Definition wrappedSizes : File :=
  [pct "%a"; col; int "9223372036854775808"; com;
   pct "%b"; col; int "9223372036854775808"; com; pct "%c";
   eq; str "op"; lp; rp; col; lp; rp; arr; lp; ity "i32"; rp].

(** [() [^bb1] : () -> ()], what follows the name of an operation *)
Definition afterName : File :=
  [lp; rp; ls; caret "^bb1"; rs] ++ noneToNone.

(** ["test.op"()[^bb1] : () -> ()] *)
Definition successorsOfNonTerminator : File := str "test.op" :: afterName.

(** ["r"() ({ "cf.br"()[^bb1] : () -> ()  ^bb1: "x"() : () -> () }) : () -> ()] *)
Definition branchInRegion : File :=
  [str "r"; lp; rp; lp; lb; str "cf.br"] ++ afterName ++
  [caret "^bb1"; col; str "x"; lp; rp] ++ noneToNone ++ [rb; rp] ++ noneToNone.

(** [%r:0 = "op"() : () -> i32] *)
Definition zeroSize : File :=
  [pct "%r"; col; int "0"; eq; str "op"; lp; rp; col; lp; rp; arr; ity "i32"].

(** *** Parsers *)

(** The operation parser of a file, at its first token. *)
Definition start (l : File) : OperationParser :=
  let '(top, g) := createModule UnknownLoc startIR in
  (newOperationParser (stateOf l) g top).2.

(** The parser once [m] has run. *)
Definition after {A} (m : M A) (p : OperationParser) : OperationParser :=
  (m p).2.

(** The parser once the first [k] operations of the file are parsed. *)
Definition operations (k : nat) (l : File) : OperationParser :=
  Nat.iter k (after (parseOperation env 64)) (start l).

(** A scope in which [^bb1] is referenced at 5, and what happens to its
    labels afterwards. *)
Definition referenced : OperationParser :=
  after (getBlockNamed "^bb1" 5%Z) (start []).
Definition labels : list BlockEvent :=
  [Reference "^bb1" 9%Z; Allocate; Define "^bb2" 12%Z; Reference "^bb2" 14%Z;
   Reference "^bb1" 20%Z].

(** A scope with two labels that are referenced and not defined: [^a] at 20,
    then [^b] at 9. *)
Definition twoOrphans : OperationParser :=
  after (getBlockNamed "^b" 9%Z) (after (getBlockNamed "^a" 20%Z) (start [])).

(** [parseRegion] on [branchRegion], for a new region of an operation of the
    file: the region, and the run. *)
Definition inRegion : RegionId * (Outcome unit * OperationParser) :=
  let p := start branchRegion in
  let '(region, g) := newRegion (ir p) in
  (region,
   parseRegion env 64 (parseOperation env 64) region [] true (set_ir g p)).

(** A parser that has created an operation [b] with a result of type
    [i16]. *)
Definition definer : OperationParser :=
  after (allocIR (createOperation
                    (mkOperation "b" UnknownLoc [] [intTy 16] [] [] [] None)))
    (start []).


(** The state of a generic operation once its name is parsed. *)
Definition named (n : string) : OperationState :=
  mkOperationState (FileLineColLoc 0%Z) n [] [] [] [] [] None.

End Demo.

(** ** More vocabulary *)

(** The location [emitError] and [emitWrongTokenError] start from: the
    current token, one character back at the end of the file. *)
Definition errorLoc (st : ParserState) : SMLoc :=
  if Token.is_ (curToken st) Token.eof then (Token.loc (curToken st) - 1)%Z
  else Token.loc (curToken st).

(** At the end of the file, the character [emitWrongTokenError] steps back
    to is in the buffer; it is not when the buffer is empty. *)
Definition stepsBackInBuffer (st : ParserState) : Prop :=
  Token.kind (curToken st) = Token.eof → (bufferBegin st ≤ errorLoc st)%Z.

(** The diagnostics once [d] is reported, unless the current token is a
    lexer error. *)
Definition reported (d : Diagnostic) (st : ParserState) : ParserState :=
  if Token.is_ (curToken st) Token.error then st
  else set_diagnostics (diagnostics st ++ [d]) st.

(** Where [emitWrongTokenError] reports: at the token (one character back
    at the end of the file), or right after a character of the buffer before
    it that is neither blank nor a line break. *)
Definition wrongTokenLoc (st : ParserState) (l : SMLoc) : Prop :=
  l = errorLoc st
  ∨ ∃ k c, l = (bufferBegin st + Z.of_nat (S k))%Z ∧
           bufferText st !! k = Some c ∧
           (bufferBegin st + Z.of_nat k < errorLoc st)%Z ∧
           isBlank c = false ∧ isNewline c = false.


(** [lift] runs a method of the base [Parser] on the [ParserState] that a
    larger state holds: [proj] reads it and [inj] writes it back. *)
Definition liftsBy {St} (lift : ∀ A, P A → StateM St A)
    (proj : St → ParserState) (inj : ParserState → St → St) : Prop :=
  (∀ A (m : P A) s, lift A m s = zoom proj inj m s)
  ∧ (∀ s, inj (proj s) s = s)
  ∧ (∀ st s, proj (inj st s) = st)
  ∧ (∀ st1 st2 s, inj st2 (inj st1 s) = inj st2 s).

(** The tokens that open and close a delimited list, whether the list may
    be absent, and what is reported when its opening token is missing. *)
Definition opening (d : Delimiter) : option Token.Kind :=
  match d with
  | DelimNone => None
  | Paren | OptionalParen => Some Token.l_paren
  | Square | OptionalSquare => Some Token.l_square
  | LessGreater | OptionalLessGreater => Some Token.less
  | Braces | OptionalBraces => Some Token.l_brace
  end.
Definition closing (d : Delimiter) : option Token.Kind :=
  match d with
  | DelimNone => None
  | Paren | OptionalParen => Some Token.r_paren
  | Square | OptionalSquare => Some Token.r_square
  | LessGreater | OptionalLessGreater => Some Token.greater
  | Braces | OptionalBraces => Some Token.r_brace
  end.
Definition isOptional (d : Delimiter) : bool :=
  match d with
  | OptionalParen | OptionalSquare | OptionalLessGreater | OptionalBraces => true
  | _ => false
  end.
Definition openingMessage (d : Delimiter) : string :=
  match d with
  | DelimNone => ""
  | Paren | OptionalParen => "expected '('"
  | Square | OptionalSquare => "expected '['"
  | LessGreater | OptionalLessGreater => "expected '<'"
  | Braces | OptionalBraces => "expected '{'"
  end.

(** What [parseCommaSeparatedList] returns when the opening token of a list
    that must be there is missing. *)
Definition missingOpeningOutcome (d : Delimiter) : Outcome unit :=
  match d with
  | LessGreater => Success ()
  | _ => Failure
  end.

(** *** The SSA name scopes *)

(** The entry of the name [n] in the innermost isolated scope. *)
Definition entriesOf (n : string) (p : OperationParser) : list ValueDefinition :=
  default [] (s ← head (isolatedNameScopes p); values s !! n).

(** The parser once the entry of [n] in the innermost isolated scope is
    [E]. *)
Definition setEntries (n : string) (E : list ValueDefinition)
    (p : OperationParser) : OperationParser :=
  match isolatedNameScopes p with
  | [] => p
  | scope :: rest =>
      set_isolatedNameScopes
        (mkIsolatedSSANameScope (<[n := E]> (values scope))
           (definitionsPerScope scope) :: rest) p
  end.

(** The parser once [n] is recorded as defined in the current scope. *)
Definition recorded (n : string) (p : OperationParser) : OperationParser :=
  match isolatedNameScopes p with
  | scope :: rest =>
      match definitionsPerScope scope with
      | defs :: drest =>
          set_isolatedNameScopes
            (mkIsolatedSSANameScope (values scope) (({[n]} ∪ defs) :: drest)
               :: rest) p
      | [] => p
      end
  | [] => p
  end.

(** The innermost isolated scope has a current scope to record definitions
    in. *)
Definition scopeOpen (p : OperationParser) : Prop :=
  ∃ scope rest defs drest,
    isolatedNameScopes p = scope :: rest ∧
    definitionsPerScope scope = defs :: drest.

(** The slots of an entry once there is one for the result number [num]. *)
Definition withSlot (num : nat) (E : list ValueDefinition)
  : list ValueDefinition :=
  if bool_decide (length E ≤ num)
  then resizeEntries (Z.to_nat (wrap32 (Z.of_nat num + 1))) E
  else E.

Definition redefinitionError (defLoc : SMLoc) (n : string) (prevLoc : SMLoc)
  : Diagnostic :=
  mkDiagnostic (getEncodedSourceLocation defLoc)
    [ArgString "redefinition of SSA value '"; ArgString n; ArgString "'"]
    [(getEncodedSourceLocation prevLoc, [ArgString "previously defined here"])].

Definition useTypeError (useLoc : SMLoc) (n : string) (t resultType : Ty)
    (priorLoc : SMLoc) : Diagnostic :=
  mkDiagnostic (getEncodedSourceLocation useLoc)
    [ArgString "use of value '"; ArgString n;
     ArgString "' expects different type than prior uses: ";
     ArgType t; ArgString " vs "; ArgType resultType]
    [(getEncodedSourceLocation priorLoc, [ArgString "prior use here"])].

Definition invalidResultNumberError : SMLoc → Diagnostic :=
  plainError "reference to invalid result number".

Definition redefinedBlockError (nameLoc : SMLoc) (n : string) : Diagnostic :=
  mkDiagnostic (getEncodedSourceLocation nameLoc)
    [ArgString "redefinition of block '"; ArgString n; ArgString "'"] [].

(** *** Lists of value names *)

(** The use a value name without a result number stands for. *)
Definition useOf (tok : Token.t) : UnresolvedOperand :=
  mkUnresolvedOperand (Token.loc tok) (Token.spelling tok) 0.

(** The tokens of a list that goes on: each pair is a comma and the name
    after it. *)
Definition moreNames (pairs : list (Token.t * Token.t)) : list Token.t :=
  pairs ≫= (λ cn, [cn.1; cn.2]).

Definition commaThenName (cn : Token.t * Token.t) : Prop :=
  Token.kind cn.1 = Token.comma ∧ Token.kind cn.2 = Token.percent_identifier.

(** *** The generic form *)

Definition operandCountError (typeLoc : Location) (expected had : nat)
  : Diagnostic :=
  mkDiagnostic typeLoc
    [ArgString "expected "; ArgUnsigned (Z.of_nat expected);
     ArgString " operand type";
     ArgString (if bool_decide (expected = 1) then String "000"%char ""
                else "s");
     ArgString " but had "; ArgUnsigned (Z.of_nat had)] [].

(** The operation state once the pieces a caller provides are added. *)
Definition withPieces (regions : list RegionId) (attrs : list NamedAttribute)
    (properties : Attribute) (resultTypes : list Ty) (r : OperationState)
  : OperationState :=
  addTypes resultTypes
    (addAttributes attrs
       (addRegions regions (set_propertiesAttr (Some properties) r))).

Definition addOperands (vs : list Value) (r : OperationState) : OperationState :=
  foldl (λ r v, addOperand v r) r vs.

(** *** [CustomOpAsmParser]: the names of the results

    The result list [%x, %y:2, %z] declares four results. *)
Module CustomOpAsmParser.

(** [getResultName]: the name (without its [%]) and the index in its group
    of the result [resultNo]; [{"", ~0U}] for an invalid result number. *)
Fixpoint getResultName (resultIDs : list ResultRecord) (resultNo : Z)
  : string * Z :=
  match resultIDs with
  | [] => (EmptyString, (2 ^ 32 - 1)%Z)
  | entry :: rest =>
      if bool_decide (resultNo < entry.1.2)%Z
      then (drop_front entry.1.1, resultNo)
      else getResultName rest (wrap32 (resultNo - entry.1.2))
  end.

(** [getNumResults]: the number of declared results. *)
Definition getNumResults (resultIDs : list ResultRecord) : Z :=
  foldl (λ count entry, wrap64 (count + entry.1.2)) 0%Z resultIDs.

End CustomOpAsmParser.

(** The sizes of the groups of a result list are [unsigned] numbers. *)
Definition unsignedSizes (resultIDs : list ResultRecord) : Prop :=
  Forall (λ entry : ResultRecord, 0 ≤ entry.1.2 < 2 ^ 32)%Z resultIDs.

(** The number of results the groups of a list declare. *)
Definition resultsIn (resultIDs : list ResultRecord) : Z :=
  foldr (λ entry : ResultRecord, Z.add entry.1.2) 0%Z resultIDs.

(** *** The names of the results of an operation *)

(** The number of results of a group of the result list, and of the groups
    before one. *)
Definition groupSize (entry : ResultRecord) : nat := Z.to_nat entry.1.2.
Definition resultsBefore (pre : list ResultRecord) : nat :=
  sum_list (groupSize <$> pre).

(** From [p] to [p'] no definition of a value is lost: what is bound to a
    value that is no placeholder stays bound to it, and no value becomes a
    placeholder. *)
Definition keepsDefinitions (p p' : OperationParser) : Prop :=
  (∀ n num x l, boundTo p n num x l →
     forwardRefPlaceholders p !! x = None → boundTo p' n num x l)
  ∧ (∀ x, forwardRefPlaceholders p !! x = None →
          forwardRefPlaceholders p' !! x = None).

(** What [registerResults] does for one result of a group. *)
Definition registerResult (op : OpId) (resIt : ResultRecord) (subRes : nat)
  : StateM (nat * OperationParser) unit :=
  opResI <- getLocal ;;
  setLocal (S opResI) ;;;
  v <- liftLocal (getResult op opResI) ;;
  liftLocal (addDefinition (mkUnresolvedOperand resIt.2 resIt.1.1 subRes) v).

(** *** The text of a result list *)

(** An entry of a result list, [%name] or [%name:n]: the token of the name
    and, where a size is written, the colon and the integer. *)
Definition ResultEntry : Type := Token.t * option (Token.t * Token.t).

Definition entryTokens (e : ResultEntry) : list Token.t :=
  match e.2 with
  | None => [e.1]
  | Some (colonTok, intTok) => [e.1; colonTok; intTok]
  end.

(** The size an entry declares: one where none is written. *)
Definition declaredSize (env : Collaborators) (e : ResultEntry) : Z :=
  match e.2 with
  | None => 1%Z
  | Some (_, intTok) => default 0%Z (getUInt64IntegerValue env intTok)
  end.

(** The tokens of an entry are of the kinds the list is written with, and
    the declared size is a number, at least one. *)
Definition wellFormedEntry (env : Collaborators) (e : ResultEntry) : Prop :=
  Token.kind e.1 = Token.percent_identifier
  ∧ match e.2 with
    | None => True
    | Some (colonTok, intTok) =>
        Token.kind colonTok = Token.colon ∧ Token.kind intTok = Token.integer
    end
  ∧ (1 ≤ declaredSize env e)%Z.

(** The entries after the first, each with the comma before it. *)
Definition commaThenEntry (env : Collaborators) (ce : Token.t * ResultEntry)
  : Prop :=
  Token.kind ce.1 = Token.comma ∧ wellFormedEntry env ce.2.

Definition moreEntries (more : list (Token.t * ResultEntry)) : list Token.t :=
  more ≫= (λ ce, ce.1 :: entryTokens ce.2).

(** The tokens of a result list, up to its [=]. *)
Definition resultListTokens (first : ResultEntry)
    (more : list (Token.t * ResultEntry)) : list Token.t :=
  entryTokens first ++ moreEntries more.

(** What [parseNextResult] keeps of an entry. *)
Definition recordOf (env : Collaborators) (e : ResultEntry) : ResultRecord :=
  (Token.spelling e.1, wrap32 (declaredSize env e), Token.loc e.1).

Definition recordsOf (env : Collaborators) (first : ResultEntry)
    (more : list (Token.t * ResultEntry)) : list ResultRecord :=
  recordOf env <$> first :: more.*2.

(** The sum of the sizes the entries of a result list declare. *)
Definition declaredResults (env : Collaborators) (first : ResultEntry)
    (more : list (Token.t * ResultEntry)) : Z :=
  foldr Z.add 0%Z (declaredSize env <$> first :: more.*2).

(** ** More concrete parsers

    States of the concrete parser for the properties of the parts of the
    code. *)

Module Cases.
Import Demo.

(** A file whose first token is an error of the lexer. *)
Definition lexerError : ParserState := stateOf [(Token.error, "@")].

(** [()], [[]] and [{}]. *)
Definition parens : ParserState := stateOf [lp; rp].
Definition brackets : OperationParser := start [ls; rs].
Definition braces : OperationParser := start [lb; rb].

(** [%a] is bound to the result of the operation [b] of [definer]. *)
Definition defined : OperationParser :=
  after (addDefinition (mkUnresolvedOperand 3%Z "%a" 0) (OpResult 1 0)) definer.

(** [%x] is used with type [i16] before it is defined. *)
Definition used : OperationParser :=
  after (resolveSSAUse (mkUnresolvedOperand 7%Z "%x" 0) (intTy 16)) definer.

(** A scope nested in the scope of [%a], in which [%y] is defined. *)
Definition nested : OperationParser :=
  after (addDefinition (mkUnresolvedOperand 9%Z "%y" 0) (OpResult 1 0))
    (after (pushSSANameScope false) defined).

(** The label [^bb0] is defined, and the file goes on with [^bb0:]. *)
Definition labelled : OperationParser :=
  set_state (stateOf [caret "^bb0"; col])
    (after (defineBlock "^bb0" 0%Z None) (start [])).

(** The alias [#L] is defined as a location, and the file goes on with
    [loc(#L)]. *)
Definition aliasKnown : OperationParser :=
  set_state
    (set_attributeAliasDefinitions {["L" := LocationAttr (LiteralLoc 3)]}
       (stateOf [kloc; lp; hash "#L"; rp]))
    definer.

(** [%a, %b, %c)] *)
Definition names : ParserState :=
  stateOf [pct "%a"; com; pct "%b"; com; pct "%c"; rp].

(** [%a#1)] *)
Definition numbered : ParserState := stateOf [pct "%a"; hash "#1"; rp].

(** [#L = loc("a")] *)
Definition aliasDefinition : ParserState :=
  stateOf [hash "#L"; eq; kloc; lp; str "a"; rp].

(** The result list [%x, %y:2, %z]. *)
Definition resultIDs : list ResultRecord :=
  [("%x", 1%Z, 0%Z); ("%y", 2%Z, 4%Z); ("%z", 1%Z, 10%Z)].

(** A parser that has created an operation with four results. *)
Definition fourResults : OperationParser :=
  after (allocIR (createOperation
                    (mkOperation "c" UnknownLoc []
                       [intTy 32; intTy 16; intTy 16; intTy 1] [] [] [] None)))
    (start []).

End Cases.

(** * Properties *)

(** ** Laws of the parser monad *)

Section MonadLemmas.
Context {St : Type}.

Lemma bind_Success {A B} (m : StateM St A) (k : A → StateM St B) s a s' :
  m s = (Success a, s') → bind m k s = k a s'.
Proof. unfold bind. by intros ->. Qed.

Lemma bind_Failure {A B} (m : StateM St A) (k : A → StateM St B) s s' :
  m s = (Failure, s') → bind m k s = (Failure, s').
Proof. unfold bind. by intros ->. Qed.

Lemma bind_Success_inv {A B} (m : StateM St A) (k : A → StateM St B) s b s' :
  bind m k s = (Success b, s') →
  ∃ a s1, m s = (Success a, s1) ∧ k a s1 = (Success b, s').
Proof.
  unfold bind. destruct (m s) as [[a| |] s1]; intros H; try done. eauto.
Qed.



Lemma preserves_ret {A X} (f : St → X) (a : A) : preserves f (ret a).
Proof. by intros s r s' [= _ ->]. Qed.

Lemma preserves_failure {A X} (f : St → X) : preserves f (failure (A:=A)).
Proof. by intros s r s' [= _ ->]. Qed.

Lemma preserves_undefined {A X} (f : St → X) : preserves f (undefined (A:=A)).
Proof. by intros s r s' [= _ ->]. Qed.

Lemma preserves_deref {A X} (f : St → X) (o : option A) : preserves f (deref o).
Proof. destruct o; [apply preserves_ret|apply preserves_undefined]. Qed.

Lemma preserves_get {X} (f : St → X) : preserves f get.
Proof. by intros s r s' [= _ ->]. Qed.

Lemma preserves_gets {A X} (f : St → X) (g : St → A) : preserves f (gets g).
Proof. by intros s r s' [= _ ->]. Qed.

Lemma preserves_modify {X} (f : St → X) (g : St → St) :
  (∀ s, f (g s) = f s) → preserves f (modify g).
Proof. intros Hg s r s' [= _ <-]. apply Hg. Qed.

Lemma preserves_bind {A B X} (f : St → X) (m : StateM St A)
    (k : A → StateM St B) :
  preserves f m → (∀ a, preserves f (k a)) → preserves f (bind m k).
Proof.
  intros Hm Hk s r s'. unfold bind.
  destruct (m s) as [[a| |] s1] eqn:E; intros H.
  - rewrite (Hk a _ _ _ H). eapply Hm, E.
  - injection H as _ <-. eapply Hm, E.
  - injection H as _ <-. eapply Hm, E.
Qed.

Lemma preserves_forEach {A X} (f : St → X) (g : A → StateM St unit) l :
  (∀ a, preserves f (g a)) → preserves f (forEach g l).
Proof.
  intros Hg. induction l as [|a l IH]; simpl.
  - apply preserves_ret.
  - apply preserves_bind; [apply Hg|intros _; apply IH].
Qed.

Lemma preserves_if {A X} (f : St → X) (b : bool) (m1 m2 : StateM St A) :
  preserves f m1 → preserves f m2 → preserves f (if b then m1 else m2).
Proof. by destruct b. Qed.
End MonadLemmas.

Lemma preserves_liftP {A X} (f : OperationParser → X) (m : P A) :
  (∀ st p, f (set_state st p) = f p) → preserves f (liftP m).
Proof.
  intros Hf p r p'. unfold liftP, zoom.
  destruct (m (state p)) as [r' st]. intros [= _ <-]. apply Hf.
Qed.

Lemma preserves_modifyIR {X} (f : OperationParser → X) (g : IR → IR) :
  (∀ i p, f (set_ir i p) = f p) → preserves f (modifyIR g).
Proof. intros Hf. apply preserves_modify. intros p. apply Hf. Qed.

#[global] Instance pair_le_total : Total pair_le.
Proof. intros [a b] [c d]. unfold pair_le; simpl. lia. Qed.
#[global] Instance pair_le_trans : Transitive pair_le.
Proof. intros [a b] [c d] [e f]. unfold pair_le; simpl. lia. Qed.

Lemma set_ir_id p : set_ir (ir p) p = p.
Proof. by destruct p. Qed.

Lemma set_state_id p : set_state (state p) p = p.
Proof. by destruct p. Qed.

(** A method of the base parser that leaves the parser state as it is. *)
Lemma liftP_unchanged {A} (m : P A) r p :
  m (state p) = (r, state p) → liftP m p = (r, p).
Proof. intros H. unfold liftP, zoom. by rewrite H, set_state_id. Qed.

Lemma liftP_getToken p : liftP getToken p = (Success (curToken (state p)), p).
Proof. by apply liftP_unchanged. Qed.

Lemma addDiagnostics_nil p : addDiagnostics [] p = p.
Proof. destruct p as [[] ?]; unfold addDiagnostics; simpl. by rewrite app_nil_r. Qed.

Lemma addDiagnostics_app ds1 ds2 p :
  addDiagnostics ds2 (addDiagnostics ds1 p) = addDiagnostics (ds1 ++ ds2) p.
Proof.
  destruct p as [[] ?]; unfold addDiagnostics; simpl. by rewrite <- app_assoc.
Qed.

Lemma notLexerError_addDiagnostics ds p :
  notLexerError p → notLexerError (addDiagnostics ds p).
Proof. done. Qed.

(** ** Reporting *)

Lemma reportErrorAt_emits l args notes st :
  Token.kind (curToken st) ≠ Token.error →
  reportErrorAt l args notes st =
    (Success (),
     set_diagnostics
       (diagnostics st ++ [mkDiagnostic (getEncodedSourceLocation l) args notes])
       st).
Proof.
  intros H. unfold reportErrorAt, bind, getToken, gets, Token.is_.
  by rewrite bool_decide_eq_false_2.
Qed.

Lemma emitErrorAt_emits {A} l args notes p :
  notLexerError p →
  liftP (emitErrorAt (A:=A) l args notes) p =
    (Failure,
     addDiagnostics [mkDiagnostic (getEncodedSourceLocation l) args notes] p).
Proof.
  intros H. unfold liftP, zoom, emitErrorAt, bind, getToken, gets, Token.is_.
  by rewrite bool_decide_eq_false_2.
Qed.

Lemma forEach_report {A} (loc : A → SMLoc) message (l : list A) p :
  notLexerError p →
  forEach (λ e, liftP (reportErrorAt (loc e) [ArgString message] [])) l p =
    (Success (), addDiagnostics ((λ e, plainError message (loc e)) <$> l) p).
Proof.
  intros Hp. revert p Hp. induction l as [|a l IH]; intros p Hp; simpl.
  - by rewrite addDiagnostics_nil.
  - unfold bind at 1, liftP at 1, zoom.
    rewrite reportErrorAt_emits by done.
    change (set_state _ p) with (addDiagnostics [plainError message (loc a)] p).
    rewrite IH by done. by rewrite addDiagnostics_app.
Qed.

Ltac preserves_step :=
  first
    [ apply preserves_ret | apply preserves_failure | apply preserves_undefined
    | apply preserves_deref | apply preserves_get | apply preserves_gets
    | apply preserves_bind; [|intros ?]
    | apply preserves_forEach; intros ?
    | apply preserves_liftP; done
    | apply preserves_modifyIR; done
    | apply preserves_modify; done
    | match goal with
      | |- preserves _ (if ?b then _ else _) => destruct b
      | |- preserves _ (match ?x with _ => _ end) => destruct x
      end ].
Ltac preserves_tac := repeat preserves_step.

Section Finalize.
Context (env : Collaborators).

(** *** [popSSANameScope] with blocks that were never defined *)

Lemma forEach_push r (l : list (BlockId * SMLoc)) p :
  forEach (λ entry : BlockId * SMLoc, modifyIR (region_push_back r entry.1)) l p =
    (Success (), set_ir (foldl (λ g e, region_push_back r e.1 g) (ir p) l) p).
Proof.
  revert p. induction l as [|a l IH]; intros p; simpl.
  - by rewrite set_ir_id.
  - unfold bind, modifyIR at 1, modify. rewrite IH. by destruct p.
Qed.

Lemma regions_after_push r (l : list (BlockId * SMLoc)) g bs :
  ir_regions g !! r = Some bs →
  ir_regions (foldl (λ g e, region_push_back r e.1 g) g l) !! r
    = Some (bs ++ l.*1).
Proof.
  revert g bs. induction l as [|a l IH]; intros g bs Hg; simpl.
  - by rewrite app_nil_r.
  - rewrite (IH _ (bs ++ [a.1])).
    + by rewrite <- app_assoc.
    + unfold region_push_back, set_regions; simpl.
      by rewrite lookup_alter_eq, Hg.
Qed.

Lemma regions_after_push_ne r r' (l : list (BlockId * SMLoc)) g :
  r ≠ r' →
  ir_regions (foldl (λ g e, region_push_back r e.1 g) g l) !! r'
    = ir_regions g !! r'.
Proof.
  intros Hne. revert g. induction l as [|a l IH]; intros g; simpl; [done|].
  rewrite IH. unfold region_push_back, set_regions; simpl.
  by rewrite lookup_alter_ne.
Qed.

Lemma pair_le_fst x y : pair_le x y → (x.1 ≤ y.1)%Z.
Proof. unfold pair_le. lia. Qed.

Lemma StronglySorted_fst (l : list (SMLoc * BlockId)) :
  StronglySorted pair_le l → StronglySorted Z.le l.*1.
Proof.
  induction 1 as [|x l Hl IH Hx]; simpl; constructor; [done|].
  rewrite Forall_fmap. eapply Forall_impl; [exact Hx|].
  intros y. apply pair_le_fst.
Qed.

(** C4, as amended.  When a scope is popped while labels of it are
    referenced and not defined, [popSSANameScope] fails; it reports
    "reference to an undefined block" once for each of these labels, in
    ascending order of the locations of first reference, and appends their
    blocks to the first region of the top-level operation of the parser,
    leaving every other region as it was.  C4 itself has the blocks attached
    to the nearest enclosing container, which fails for a nested region
    ([undefined_block_joins_top_level_region]). *)
Theorem popSSANameScope_undefined_blocks p fwd rest o r bs :
  forwardRef p = fwd :: rest →
  fwd ≠ ∅ →
  ir_ops (ir p) !! topLevelOp p = Some o →
  op_regions o !! 0 = Some r →
  ir_regions (ir p) !! r = Some bs →
  notLexerError p →
  ∃ errors p',
    popSSANameScope p = (Failure, p') ∧
    errors ≡ₚ (map_to_list fwd).*2 ∧
    StronglySorted Z.le errors ∧
    diagnostics (state p') =
      diagnostics (state p) ++ (undefinedBlockError <$> errors) ∧
    ir_regions (ir p') !! r = Some (bs ++ (map_to_list fwd).*1) ∧
    (∀ r', r' ≠ r → ir_regions (ir p') !! r' = ir_regions (ir p) !! r') ∧
    forwardRef p' = rest.
Proof.
  intros Hfwd Hne Hop Hreg Hbs Htok.
  set (sorted := array_pod_sort_pairs
                   ((λ e : BlockId * SMLoc, (e.2, e.1)) <$> map_to_list fwd)).
  exists (sorted.*1). eexists. split; [|split; [|split]].
  - unfold popSSANameScope, bind at 1, get. rewrite Hfwd.
    unfold bind at 1, modify at 1.
    rewrite bool_decide_eq_false_2 by done. simpl negb. cbv iota.
    unfold bind at 1, topLevelRegion, bind at 1, get, bind at 1. simpl.
    rewrite Hop. simpl. rewrite Hreg. simpl.
    unfold bind at 1. rewrite forEach_push.
    unfold bind at 1.
    rewrite (forEach_report (λ e : SMLoc * BlockId, e.1)) by done.
    reflexivity.
  - unfold sorted, array_pod_sort_pairs.
    rewrite merge_sort_Permutation, <- list_fmap_compose. done.
  - apply StronglySorted_fst, StronglySorted_merge_sort; apply _.
  - simpl. split; [|split; [|split]]; try done.
    + f_equal. rewrite <- list_fmap_compose. done.
    + by apply regions_after_push.
    + intros r' Hr'. by apply regions_after_push_ne.
Qed.

(** *** [finalize] with placeholders left *)

(** C1, as amended.  If a forward-reference placeholder is left when
    [finalize] starts, [finalize] reports "use of undeclared SSA value name"
    once for each placeholder, in ascending order of the locations of first
    use, and returns failure at once: nothing else is reported, whatever
    deferred locations are left.  C1 itself, that the errors of the deferred
    locations are reported as well, fails
    ([finalize_stops_at_undeclared_values]). *)
Theorem finalize_undeclared_values p :
  forwardRefPlaceholders p ≠ ∅ →
  notLexerError p →
  let errors :=
    array_pod_sort_locs (map_to_list (forwardRefPlaceholders p)).*2 in
  finalize env p = (Failure, addDiagnostics (undeclaredValueError <$> errors) p)
  ∧ errors ≡ₚ (map_to_list (forwardRefPlaceholders p)).*2
  ∧ StronglySorted Z.le errors.
Proof.
  intros Hne Htok errors. split; [|split].
  - unfold finalize. rewrite (bind_Success _ _ p p p) by done.
    rewrite bool_decide_eq_false_2 by done.
    erewrite bind_Failure; [reflexivity|]. simpl.
    erewrite bind_Success; [|by apply (forEach_report (λ e : SMLoc, e))].
    done.
  - apply merge_sort_Permutation.
  - apply StronglySorted_merge_sort; apply _.
Qed.

(** *** A successful [finalize] leaves no placeholder *)

Lemma popSSANameScope_preserves_placeholders :
  preserves forwardRefPlaceholders popSSANameScope.
Proof. unfold popSSANameScope, topLevelRegion, backScope, setBackScope. preserves_tac. Qed.

Lemma resolveLocation_preserves_placeholders x :
  preserves forwardRefPlaceholders (resolveLocation x).
Proof. unfold resolveLocation. preserves_tac. Qed.

Lemma finalize_Success p p' :
  finalize env p = (Success (), p') →
  forwardRefPlaceholders p = ∅ ∧ forwardRefPlaceholders p' = ∅.
Proof.
  unfold finalize. rewrite (bind_Success _ _ p p p) by done.
  destruct (decide (forwardRefPlaceholders p = ∅)) as [He|Hne].
  - rewrite bool_decide_eq_true_2 by done. simpl.
    rewrite (bind_Success _ _ p () p) by done.
    intros H. split; [done|]. rewrite <- He.
    assert (Hp : preserves forwardRefPlaceholders
      (forEach resolveLocationsOf (walk env (ir p) (topLevelOp p)) ;;;
       popSSANameScope ;;;
       (if shouldVerifyAfterParse env
        then p <- get ;; liftP (verify env (ir p) (topLevelOp p))
        else ret ()))).
    { unfold resolveLocationsOf.
      repeat first [ apply resolveLocation_preserves_placeholders
                   | apply popSSANameScope_preserves_placeholders
                   | preserves_step ]. }
    exact (Hp _ _ _ H).
  - rewrite bool_decide_eq_false_2 by done. simpl.
    unfold bind at 1. unfold bind at 1.
    destruct (forEach _ _ p) as [[[]| |] p1]; simpl; done.
Qed.

(** C2, as amended.  A parse that succeeds ends with no forward-reference
    placeholder left.  The converse, which C2 states too, fails: a parse
    without placeholders fails for other reasons
    ([failure_without_placeholders]). *)
Theorem parseTopLevel_Success fuel p p' :
  parseTopLevel env fuel p = (Success (), p') →
  forwardRefPlaceholders p' = ∅.
Proof.
  revert p. induction fuel as [|fuel IH]; intros p; simpl; [done|].
  intros H. apply bind_Success_inv in H as (tok & p1 & Htok & H).
  injection Htok as <- <-.
  destruct (Token.kind (curToken (state p)));
    try (apply bind_Success_inv in H as ([] & p2 & _ & H); by eapply IH).
  - by apply finalize_Success in H as [_ ?].
  - done.
Qed.

(** *** Deferred locations *)












Lemma set_ir_set_ir g1 g2 p : set_ir g2 (set_ir g1 p) = set_ir g2 p.
Proof. done. Qed.



Lemma consumeToken_advance st :
  Token.kind (curToken st) ≠ Token.eof →
  Token.kind (curToken st) ≠ Token.error →
  consumeToken st = (Success (), advance st).
Proof.
  intros H1 H2. unfold consumeToken, advance, Token.is_.
  rewrite !bool_decide_eq_false_2 by done. simpl. by destruct (lexRest st).
Qed.

Lemma consumeTokenOfKind_advance k st :
  Token.kind (curToken st) = k → k ≠ Token.eof → k ≠ Token.error →
  consumeTokenOfKind k st = (Success (), advance st).
Proof.
  intros Hk H1 H2. unfold consumeTokenOfKind, bind, getToken, gets, Token.is_.
  rewrite bool_decide_eq_true_2 by done.
  apply consumeToken_advance; by rewrite Hk.
Qed.


(** [parseLocationAlias] on an alias that is defined, but not as a
    location. *)
Lemma parseLocationAlias_not_location p attr :
  let tok := curToken (state p) in
  let identifier := drop_front (Token.spelling tok) in
  Token.kind tok = Token.hash_identifier →
  contains "."%char identifier = false →
  attributeAliasDefinitions (state p) !! identifier = Some attr →
  dyn_cast_LocationAttr attr = None →
  notLexerError (set_state (advance (state p)) p) →
  parseLocationAlias p =
    (Failure,
     addDiagnostics [expectedLocationError (Token.loc tok) attr]
       (set_state (advance (state p)) p)).
Proof.
  intros tok identifier Hk Hdot Ha Hc Htok. unfold parseLocationAlias.
  rewrite (bind_Success _ _ p tok p) by apply liftP_getToken.
  erewrite bind_Success; cycle 1.
  { unfold liftP, zoom. by rewrite (consumeTokenOfKind_advance _ _ Hk). }
  fold identifier. rewrite Hdot.
  erewrite bind_Success; [|done]. simpl.
  assert (attributeAliasDefinitions (advance (state p))
          = attributeAliasDefinitions (state p)) as ->.
  { unfold advance. by destruct (lexRest (state p)). }
  fold identifier. rewrite Ha, Hc. by apply emitErrorAt_emits.
Qed.






End Finalize.

(** ** Postconditions of successful runs *)

Section Ensures.
Context {St : Type}.

Lemma ensures_ret {A} (I : St → Prop) (a : A) (Q : A → St → Prop) :
  (∀ s, I s → Q a s) → ensures I (ret a) Q.
Proof. intros H s b s' Hs [= <- <-]. by apply H. Qed.

Lemma ensures_failure {A} (I : St → Prop) (Q : A → St → Prop) :
  ensures I failure Q.
Proof. by intros s b s' Hs. Qed.

Lemma ensures_undefined {A} (I : St → Prop) (Q : A → St → Prop) :
  ensures I undefined Q.
Proof. by intros s b s' Hs. Qed.

Lemma ensures_bind {A B} (I : St → Prop) (m : StateM St A)
    (k : A → StateM St B) (R : A → St → Prop) (Q : B → St → Prop) :
  ensures I m R → (∀ a, ensures (R a) (k a) Q) → ensures I (bind m k) Q.
Proof.
  intros Hm Hk s b s' Hs H.
  apply bind_Success_inv in H as (a & s1 & H1 & H2).
  eapply Hk; [|exact H2]. eapply Hm; [exact Hs|exact H1].
Qed.

Lemma ensures_weaken {A} (I I' : St → Prop) (m : StateM St A)
    (Q Q' : A → St → Prop) :
  ensures I' m Q' → (∀ s, I s → I' s) → (∀ a s, Q' a s → Q a s) →
  ensures I m Q.
Proof. intros Hm HI HQ s a s' Hs H. eapply HQ, Hm; [by apply HI|exact H]. Qed.

(** A step that keeps [f] keeps any property of [f]. *)
Lemma ensures_preserves {A X} (f : St → X) (J : X → Prop) (m : StateM St A) :
  preserves f m → ensures (λ s, J (f s)) m (λ _ s, J (f s)).
Proof. intros Hm s a s' Hs H. by rewrite (Hm _ _ _ H). Qed.

Lemma ensures_while (I : St → Prop) fuel (cond : StateM St bool)
    (body : StateM St unit) :
  ensures I cond (λ _, I) → ensures I body (λ _, I) →
  ensures I (while fuel cond body) (λ _, I).
Proof.
  intros Hc Hb. induction fuel as [|fuel IH]; simpl.
  - apply ensures_undefined.
  - eapply ensures_bind; [exact Hc|]. intros [].
    + eapply ensures_bind; [exact Hb|]. intros ?. exact IH.
    + by apply ensures_ret.
Qed.
End Ensures.

Lemma preserves_liftLocal {L St A} (m : StateM St A) :
  preserves (fst : L * St → L) (liftLocal m).
Proof.
  intros [l s] r [l' s']. unfold liftLocal, zoom. simpl.
  destruct (m s). intros H. injection H. intros. simpl. congruence.
Qed.

Lemma runLocal_Success_inv {L St A} (l0 : L) (m : StateM (L * St) A) s a l s' :
  runLocal l0 m s = (Success (a, l), s') → m (l0, s) = (Success a, (l, s')).
Proof.
  unfold runLocal. destruct (m (l0, s)) as [[b| |] [l1 s1]]; intros H; try done.
  by injection H as -> -> ->.
Qed.

(** ** Errors never succeed *)

Lemma ensures_never {St A} (I : St → Prop) (m : StateM St A) Q :
  neverSucceeds m → ensures I m Q.
Proof. intros Hm s a s' _ H. by apply Hm in H. Qed.

Lemma neverSucceeds_bind_l {St A B} (m : StateM St A) (k : A → StateM St B) :
  neverSucceeds m → neverSucceeds (bind m k).
Proof.
  intros Hm s b s' H. apply bind_Success_inv in H as (a & s1 & H & _).
  by apply Hm in H.
Qed.

Lemma neverSucceeds_bind_r {St A B} (m : StateM St A) (k : A → StateM St B) :
  (∀ a, neverSucceeds (k a)) → neverSucceeds (bind m k).
Proof.
  intros Hk s b s' H. apply bind_Success_inv in H as (a & s1 & _ & H).
  by apply Hk in H.
Qed.

Lemma neverSucceeds_emitErrorAt {A} l args notes :
  neverSucceeds (emitErrorAt (A:=A) l args notes).
Proof.
  unfold emitErrorAt. apply neverSucceeds_bind_r. intros tok.
  apply neverSucceeds_bind_r. intros _. by intros s a s'.
Qed.

Lemma neverSucceeds_emitError {A} args : neverSucceeds (emitError (A:=A) args).
Proof.
  unfold emitError. apply neverSucceeds_bind_r. intros tok.
  destruct (Token.isNot _ _); apply neverSucceeds_emitErrorAt.
Qed.

Lemma neverSucceeds_emitWrongTokenError {A} message :
  neverSucceeds (emitWrongTokenError (A:=A) message).
Proof.
  unfold emitWrongTokenError. apply neverSucceeds_bind_r. intros st.
  apply neverSucceeds_bind_r. intros startOfBuffer.
  apply neverSucceeds_bind_r. intros l. apply neverSucceeds_emitErrorAt.
Qed.

Lemma neverSucceeds_zoom {St T A} (proj : St → T) inj (m : StateM T A) :
  neverSucceeds m → neverSucceeds (zoom proj inj m).
Proof.
  intros Hm s a s'. unfold zoom.
  destruct (m (proj s)) as [[b| |] t] eqn:E; try done. by apply Hm in E.
Qed.

(** ** The result list of an operation *)

Section Results.
Context (env : Collaborators).

Lemma wrap64_add_l a v : wrap64 (wrap64 a + v) = wrap64 (a + v).
Proof. unfold wrap64. by rewrite Z.add_mod_idemp_l. Qed.

Lemma sum_snoc (sizes : list Z) v :
  foldr Z.add 0%Z (sizes ++ [v]) = (foldr Z.add 0 sizes + v)%Z.
Proof. induction sizes as [|x sizes IH]; simpl; [lia|]. rewrite IH. lia. Qed.

Lemma declaredSizes_snoc sizes resultIDs n v nm l :
  declaredSizes sizes (resultIDs, n) → (1 ≤ v)%Z →
  declaredSizes (sizes ++ [v])
    (resultIDs ++ [(nm, wrap32 v, l)], wrap64 (n + v)).
Proof.
  intros (Hids & Hn & Hpos) Hv. simpl in *. split; [|split]; simpl.
  - by rewrite !fmap_app, Hids.
  - by rewrite Hn, wrap64_add_l, sum_snoc.
  - apply Forall_app. split; [done|]. by constructor.
Qed.

(** Each entry of the result list adds its declared size, which is at least
    one. *)
Lemma parseNextResult_declaredSizes :
  ensures someDeclaredSizes (parseNextResult env) (λ _, someDeclaredSizes).
Proof.
  unfold parseNextResult.
  eapply ensures_bind.
  { apply (ensures_preserves fst (λ l, ∃ sizes, declaredSizes sizes l)),
      preserves_liftLocal. }
  intros nameTok. eapply ensures_bind.
  { apply (ensures_preserves fst (λ l, ∃ sizes, declaredSizes sizes l)),
      preserves_liftLocal. }
  intros ?. eapply ensures_bind.
  { apply (ensures_preserves fst (λ l, ∃ sizes, declaredSizes sizes l)),
      preserves_liftLocal. }
  intros isColon.
  apply ensures_bind with (R := λ v ls, someDeclaredSizes ls ∧ (1 ≤ v)%Z).
  - destruct isColon; [|by apply ensures_ret].
    eapply ensures_bind.
    { apply (ensures_preserves fst (λ l, ∃ sizes, declaredSizes sizes l)),
        preserves_liftLocal. }
    intros tok. destruct (negb _).
    { apply ensures_never, neverSucceeds_zoom, neverSucceeds_emitWrongTokenError. }
    destruct (getUInt64IntegerValue env tok) as [val|];
      [|apply ensures_never, neverSucceeds_zoom, neverSucceeds_emitError].
    case_bool_decide.
    { apply ensures_never, neverSucceeds_zoom, neverSucceeds_emitError. }
    eapply ensures_bind.
    { apply (ensures_preserves fst (λ l, ∃ sizes, declaredSizes sizes l)),
        preserves_liftLocal. }
    intros ?. apply ensures_ret. intros s Hs. split; [done|lia].
  - intros v [[resultIDs n] st] [] [[ids' n'] st'] [[sizes Hs] Hv].
    unfold bind, getLocal, gets, setLocal, modify. simpl.
    intros [= <- <- <-]. exists (sizes ++ [v]). simpl.
    by apply declaredSizes_snoc.
Qed.


Lemma ensures_parseCommaSeparatedList_DelimNone {St}
    (lift : ∀ A, P A → StateM St A) (I : St → Prop) fuel elem msg :
  (∀ A (m : P A), ensures I (lift A m) (λ _, I)) →
  ensures I elem (λ _, I) →
  ensures I (parseCommaSeparatedList lift fuel DelimNone elem msg) (λ _, I).
Proof.
  intros Hlift Helem. unfold parseCommaSeparatedList, parseListOpening.
  apply ensures_bind with (R := λ _, I); [by apply ensures_ret|].
  intros [|]; [|by apply ensures_ret].
  apply ensures_bind with (R := λ _, I); [exact Helem|]. intros ?.
  apply ensures_bind with (R := λ _, I); [|intros ?; by apply ensures_ret].
  apply ensures_while; [apply Hlift|exact Helem].
Qed.

Lemma parseResultList_declaredSizes fuel st resultIDs n st' :
  parseResultList env fuel st = (Success (resultIDs, n), st') →
  ∃ sizes, declaredSizes sizes (resultIDs, n).
Proof.
  unfold parseResultList. intros H.
  apply bind_Success_inv in H as (tok & s1 & _ & H).
  destruct (Token.is_ tok Token.percent_identifier).
  - apply bind_Success_inv in H as ([u locals] & s2 & Hrun & H).
    apply bind_Success_inv in H as ([] & s3 & _ & H).
    injection H as H _. simpl in H. subst locals.
    apply runLocal_Success_inv in Hrun.
    refine (ensures_parseCommaSeparatedList_DelimNone _ someDeclaredSizes
              _ _ _ _ parseNextResult_declaredSizes _ _ _ _ Hrun).
    + intros A m.
      apply (ensures_preserves fst (λ l, ∃ sizes, declaredSizes sizes l)),
        preserves_liftLocal.
    + exists []. by repeat split.
  - injection H as <- <- _. exists []. by repeat split.
Qed.

(** [registerResults] on an operation without results. *)
Lemma registerResults_no_results loc resultIDs numExpectedResults op p :
  resultIDs ≠ [] →
  getNumResults (ir p) op = Some 0 →
  notLexerError p →
  registerResults loc resultIDs numExpectedResults op p =
    (Failure, addDiagnostics [noResultsError loc] p).
Proof.
  intros Hne Hn Htok. unfold registerResults.
  rewrite bool_decide_eq_false_2 by done. simpl.
  rewrite (bind_Success _ _ p p p) by done. rewrite Hn. simpl.
  rewrite (bind_Success _ _ p 0 p) by done. simpl.
  by apply emitErrorAt_emits.
Qed.

(** [registerResults] when the counts differ. *)
Lemma registerResults_mismatch loc resultIDs numExpectedResults op p k :
  resultIDs ≠ [] →
  getNumResults (ir p) op = Some k →
  k ≠ 0 →
  numExpectedResults ≠ Z.of_nat k →
  notLexerError p →
  registerResults loc resultIDs numExpectedResults op p =
    (Failure, addDiagnostics [resultCountError loc k numExpectedResults] p).
Proof.
  intros Hne Hn Hk Hdiff Htok. unfold registerResults.
  rewrite bool_decide_eq_false_2 by done. simpl.
  rewrite (bind_Success _ _ p p p) by done. rewrite Hn. simpl.
  rewrite (bind_Success _ _ p k p) by done.
  rewrite !bool_decide_eq_false_2 by done. simpl.
  by apply emitErrorAt_emits.
Qed.

Lemma parseOperationStep_unfold fuel rec p p1 p2 resultIDs n op :
  liftP (parseResultList env fuel) p = (Success (resultIDs, n), p1) →
  parseOperationBody env fuel rec resultIDs p1 = (Success op, p2) →
  parseOperationStep env fuel rec p =
    registerResults (Token.loc (curToken (state p))) resultIDs n op p2.
Proof.
  intros H1 H2. unfold parseOperationStep.
  rewrite (bind_Success _ _ p _ p) by apply liftP_getToken.
  erewrite bind_Success by exact H1. simpl.
  by erewrite bind_Success by exact H2.
Qed.

Lemma liftP_Success_inv {A} (m : P A) p a p' :
  liftP m p = (Success a, p') →
  ∃ st', m (state p) = (Success a, st') ∧ p' = set_state st' p.
Proof.
  unfold liftP, zoom. destruct (m (state p)) as [r st'].
  intros [= -> <-]. eauto.
Qed.

End Results.

Lemma consumeIf_true k st :
  Token.kind (curToken st) = k → k ≠ Token.eof → k ≠ Token.error →
  consumeIf k st = (Success true, advance st).
Proof.
  intros Hk H1 H2. unfold consumeIf, bind, getToken, gets, Token.isNot, Token.is_.
  rewrite bool_decide_eq_true_2 by done. simpl.
  rewrite consumeToken_advance; [done|by rewrite Hk..].
Qed.

Lemma consumeIf_false k st :
  Token.kind (curToken st) ≠ k → consumeIf k st = (Success false, st).
Proof.
  intros Hk. unfold consumeIf, bind, getToken, gets, Token.isNot, Token.is_.
  by rewrite bool_decide_eq_false_2.
Qed.

Lemma parseToken_ok k message st :
  Token.kind (curToken st) = k → k ≠ Token.eof → k ≠ Token.error →
  parseToken k message st = (Success (), advance st).
Proof.
  intros Hk H1 H2. unfold parseToken.
  erewrite bind_Success; [|by apply consumeIf_true]. done.
Qed.

Lemma liftLocal_run {L St A} (m : StateM St A) (l : L) s :
  liftLocal m (l, s) = let '(r, s') := m s in (r, (l, s')).
Proof. done. Qed.

Lemma curToken_advance st t rest :
  lexRest st = t :: rest → curToken (advance st) = t.
Proof. unfold advance. by intros ->. Qed.

Lemma set_tokens_advance c r st : set_tokens c r (advance st) = set_tokens c r st.
Proof. unfold advance. by destruct (lexRest st). Qed.

Lemma set_tokens_id st : set_tokens (curToken st) (lexRest st) st = st.
Proof. by destruct st. Qed.

Lemma advance_cons st t r : lexRest st = t :: r → advance st = set_tokens t r st.
Proof. unfold advance. by intros ->. Qed.

Lemma emitError_emits {A} args st :
  Token.kind (curToken st) ≠ Token.eof →
  Token.kind (curToken st) ≠ Token.error →
  emitError (A:=A) args st =
    (Failure,
     set_diagnostics
       (diagnostics st
          ++ [mkDiagnostic (getEncodedSourceLocation (Token.loc (curToken st)))
                args []]) st).
Proof.
  intros H1 H2.
  unfold emitError, emitErrorAt, bind, getToken, gets, Token.isNot, Token.is_.
  rewrite (bool_decide_eq_false_2 _ H1). simpl.
  by rewrite (bool_decide_eq_false_2 _ H2).
Qed.

(** *** The size of a result group and the number of results *)

Section ResultTheorems.
Context (env : Collaborators).

(** An entry of a result list whose size is no positive 64-bit number. *)
Lemma parseNextResult_size_below_one locals st colonTok intTok rest :
  Token.kind (curToken st) = Token.percent_identifier →
  lexRest st = colonTok :: intTok :: rest →
  Token.kind colonTok = Token.colon →
  Token.kind intTok = Token.integer →
  (∀ v, getUInt64IntegerValue env intTok = Some v → (v < 1)%Z) →
  parseNextResult env (locals, st) =
    (Failure,
     (locals,
      set_diagnostics
        (diagnostics st ++ [atLeastOneResultError (Token.loc intTok)])
        (set_tokens intTok rest st))).
Proof.
  intros Hk Hrest Hcolon Hint Hval. unfold parseNextResult.
  rewrite (bind_Success _ _ _ (curToken st) (locals, st)) by done.
  erewrite bind_Success; cycle 1.
  { rewrite liftLocal_run, (parseToken_ok _ _ _ Hk) by done. done. }
  assert (advance st = set_tokens colonTok (intTok :: rest) st) as ->.
  { unfold advance. by rewrite Hrest. }
  erewrite bind_Success; cycle 1.
  { rewrite liftLocal_run, (consumeIf_true Token.colon) by done. done. }
  unfold advance. simpl.
  erewrite bind_Failure; [reflexivity|].
  erewrite bind_Success by done. simpl.
  unfold Token.is_. rewrite bool_decide_eq_true_2 by done. simpl.
  destruct (getUInt64IntegerValue env intTok) as [v|] eqn:Hv.
  - rewrite bool_decide_eq_true_2 by by apply Hval.
    rewrite liftLocal_run, emitError_emits; simpl; by rewrite ?Hint.
  - rewrite liftLocal_run, emitError_emits; simpl; by rewrite ?Hint.
Qed.

End ResultTheorems.

Section OperationTheorems.
Context (env : Collaborators).

Lemma sum_nonneg (sizes : list Z) :
  Forall (λ v, 1 ≤ v)%Z sizes → (0 ≤ foldr Z.add 0 sizes)%Z.
Proof. induction 1; simpl; lia. Qed.

(** *** A result list, token by token *)

Lemma set_tokens_set_tokens c r c' r' st :
  set_tokens c r (set_tokens c' r' st) = set_tokens c r st.
Proof. done. Qed.

(** [parseNextResult] on a well-formed entry that is followed by a token
    other than a colon. *)
Lemma parseNextResult_entry e next rest resultIDs n st :
  wellFormedEntry env e →
  curToken st :: lexRest st = entryTokens e ++ next :: rest →
  Token.kind next ≠ Token.colon →
  parseNextResult env ((resultIDs, n), st)
    = (Success (),
       ((resultIDs ++ [recordOf env e], wrap64 (n + declaredSize env e)),
        set_tokens next rest st)).
Proof.
  destruct e as [nameTok [[colonTok intTok]|]];
    unfold wellFormedEntry, entryTokens, recordOf, declaredSize; simpl.
  - intros (Hname & [Hcolon Hint] & Hsize) [= Hcur Hrest] Hnext. subst nameTok.
    unfold parseNextResult.
    rewrite (bind_Success _ _ _ (curToken st) ((resultIDs, n), st)) by done.
    erewrite bind_Success; cycle 1.
    { rewrite liftLocal_run, (parseToken_ok _ _ _ Hname) by done. done. }
    rewrite (advance_cons _ _ _ Hrest).
    erewrite bind_Success; cycle 1.
    { rewrite liftLocal_run, (consumeIf_true Token.colon) by done. done. }
    unfold advance. simpl.
    destruct (getUInt64IntegerValue env intTok) as [v|] eqn:Hv;
      simpl in Hsize; [|lia].
    erewrite bind_Success; cycle 1.
    { erewrite bind_Success by done. simpl.
      unfold Token.is_. rewrite bool_decide_eq_true_2 by done. simpl.
      rewrite Hv. rewrite bool_decide_eq_false_2 by lia.
      erewrite bind_Success; cycle 1.
      { rewrite liftLocal_run, consumeTokenOfKind_advance by done. done. }
      reflexivity. }
    unfold advance. simpl. done.
  - intros (Hname & _ & _) [= Hcur Hrest] Hnext. subst nameTok.
    unfold parseNextResult.
    rewrite (bind_Success _ _ _ (curToken st) ((resultIDs, n), st)) by done.
    erewrite bind_Success; cycle 1.
    { rewrite liftLocal_run, (parseToken_ok _ _ _ Hname) by done. done. }
    rewrite (advance_cons _ _ _ Hrest).
    erewrite bind_Success; cycle 1.
    { rewrite liftLocal_run, consumeIf_false by done. done. }
    done.
Qed.

Lemma head_moreEntries more eqTok rest t r :
  Forall (commaThenEntry env) more →
  Token.kind eqTok = Token.equal →
  moreEntries more ++ eqTok :: rest = t :: r →
  Token.kind t ≠ Token.colon.
Proof.
  intros Hall Heq Htoks. destruct more as [|[c e] more]; simpl in Htoks.
  - simplify_eq. by rewrite Heq.
  - apply Forall_cons in Hall as [[Hc _] _]. simplify_eq/=. by rewrite Hc.
Qed.

Lemma sizes_nonneg (entries : list ResultEntry) :
  Forall (wellFormedEntry env) entries →
  (0 ≤ foldr Z.add 0 (declaredSize env <$> entries))%Z.
Proof.
  induction 1 as [|e entries (_ & _ & He) _ IH]; [simpl; lia|].
  rewrite fmap_cons. cbn [foldr]. lia.
Qed.

(** The loop of [parseCommaSeparatedList] over the entries after the
    first. *)
Lemma result_list_loop eqTok rest :
  Token.kind eqTok = Token.equal →
  ∀ more fuel resultIDs n st,
    Forall (commaThenEntry env) more →
    curToken st :: lexRest st = moreEntries more ++ eqTok :: rest →
    length more < fuel →
    (0 ≤ n)%Z →
    (n + foldr Z.add 0 (declaredSize env <$> more.*2) < 2 ^ 64)%Z →
    while fuel (liftLocal (consumeIf Token.comma)) (parseNextResult env)
      ((resultIDs, n), st)
    = (Success (),
       ((resultIDs ++ (recordOf env <$> more.*2),
         (n + foldr Z.add 0 (declaredSize env <$> more.*2))%Z),
        set_tokens eqTok rest st)).
Proof.
  intros Heq. induction more as [|[c e] more IH];
    intros fuel resultIDs n st Hall Htoks Hfuel Hn Hsum;
    (destruct fuel as [|fuel]; [simpl in Hfuel; lia|]); simpl in Htoks.
  - simplify_eq. simpl.
    erewrite bind_Success; cycle 1.
    { rewrite liftLocal_run, consumeIf_false by by rewrite Heq. reflexivity. }
    rewrite app_nil_r, set_tokens_id. simpl. do 3 f_equal. lia.
  - apply Forall_cons in Hall as [[Hc He] Hall]. simpl in Hc, He.
    injection Htoks as Hcur Hrest. rewrite <- app_assoc in Hrest.
    destruct (moreEntries more ++ eqTok :: rest) as [|t r] eqn:Hafter.
    { by destruct more as [|[? ?] ?]. }
    assert (Ht : Token.kind t ≠ Token.colon) by by eapply head_moreEntries.
    assert (Hmore : (0 ≤ foldr Z.add 0 (declaredSize env <$> more.*2))%Z).
    { apply sizes_nonneg. apply Forall_fmap.
      eapply Forall_impl; [exact Hall|]. by intros [? ?] [_ ?]. }
    pose proof He as (_ & _ & Hsize).
    rewrite !fmap_cons in *. cbn [foldr snd] in *.
    assert (Hwrap : wrap64 (n + declaredSize env e)
                    = (n + declaredSize env e)%Z).
    { unfold wrap64. apply Z.mod_small. lia. }
    simpl.
    erewrite bind_Success; cycle 1.
    { rewrite liftLocal_run, consumeIf_true; [reflexivity|by rewrite ?Hcur..]. }
    cbv beta iota.
    erewrite bind_Success; cycle 1.
    { apply (parseNextResult_entry e t r); [done| |done].
      rewrite <- Hrest. unfold advance.
      destruct (lexRest st) as [|x xs]; [|done].
      destruct e as [? [[? ?]|]]; unfold entryTokens in Hrest;
        discriminate Hrest. }
    rewrite Hwrap.
    rewrite (IH fuel); [| done | | simpl in Hfuel; lia | lia | lia].
    + rewrite !set_tokens_set_tokens, set_tokens_advance, <- app_assoc.
      cbn [app]. do 3 f_equal. lia.
    + done.
Qed.

(** [parseResultList] on a well-formed result list followed by [=]: the
    records of the entries, in the order of the text, and the sum of the
    declared sizes. *)
Lemma parseResultList_entries fuel st first more eqTok rest :
  curToken st :: lexRest st = resultListTokens first more ++ eqTok :: rest →
  wellFormedEntry env first →
  Forall (commaThenEntry env) more →
  Token.kind eqTok = Token.equal →
  length more < fuel →
  (declaredResults env first more < 2 ^ 64)%Z →
  parseResultList env fuel st
    = (Success (recordsOf env first more, declaredResults env first more),
       advance (set_tokens eqTok rest st)).
Proof.
  intros Htoks Hfirst Hall Heq Hfuel Hsum.
  unfold resultListTokens in Htoks. rewrite <- app_assoc in Htoks.
  unfold declaredResults, recordsOf in *.
  rewrite !fmap_cons in *. cbn [foldr] in *.
  destruct (moreEntries more ++ eqTok :: rest) as [|t r] eqn:Hafter.
  { by destruct more as [|[? ?] ?]. }
  assert (Ht : Token.kind t ≠ Token.colon) by by eapply head_moreEntries.
  assert (Hmore : (0 ≤ foldr Z.add 0 (declaredSize env <$> more.*2))%Z).
  { apply sizes_nonneg. apply Forall_fmap.
    eapply Forall_impl; [exact Hall|]. by intros [? ?] [_ ?]. }
  pose proof Hfirst as (Hname & _ & Hsize).
  assert (Hk : Token.kind (curToken st) = Token.percent_identifier).
  { destruct first as [nameTok [[? ?]|]]; unfold entryTokens in Htoks;
      simpl in Htoks; by simplify_eq. }
  assert (Hwrap : wrap64 (0 + declaredSize env first)
                  = declaredSize env first).
  { unfold wrap64. rewrite Z.add_0_l. apply Z.mod_small. lia. }
  assert (Hrun :
    parseCommaSeparatedList (@liftLocal _ _) fuel DelimNone
      (parseNextResult env) "" (([], 0%Z), st)
    = (Success (),
       ((recordOf env first :: (recordOf env <$> more.*2),
         (declaredSize env first
          + foldr Z.add 0 (declaredSize env <$> more.*2))%Z),
        set_tokens eqTok rest st))).
  { unfold parseCommaSeparatedList, parseListOpening.
    erewrite bind_Success; [|reflexivity]. cbv beta iota.
    erewrite bind_Success; cycle 1.
    { by apply (parseNextResult_entry first t r). }
    rewrite Hwrap.
    erewrite bind_Success; cycle 1.
    { apply (result_list_loop eqTok rest Heq more); [done| |done|lia|lia].
      simpl. by rewrite Hafter. }
    cbn [parseListClosing ret]. by rewrite set_tokens_set_tokens. }
  unfold parseResultList.
  unfold bind at 1, getToken at 1, gets.
  unfold Token.is_ at 1. rewrite bool_decide_eq_true_2 by done.
  erewrite bind_Success; cycle 1.
  { unfold runLocal. rewrite Hrun. reflexivity. }
  erewrite bind_Success; cycle 1.
  { apply parseToken_ok; [by simpl|done..]. }
  done.
Qed.

(** C6, as amended.  For an operation with a well-formed result list
    [%name(:size)?, ... =] whose body parses to an operation with [k]
    results, [k] not zero: when the sum of the declared sizes, a size that is
    not written being one, is below [2^64] and differs from [k],
    [parseOperation] fails with "operation defines k results but was provided
    sum to bind" at the location of the operation.  C6 itself fails for an
    operation without results, which gets another error. *)
Theorem parseOperation_result_count_mismatch
    fuel p first more eqTok rest op p2 k :
  curToken (state p) :: lexRest (state p)
    = resultListTokens first more ++ eqTok :: rest →
  wellFormedEntry env first →
  Forall (commaThenEntry env) more →
  Token.kind eqTok = Token.equal →
  length more < fuel →
  parseOperationBody env fuel (parseOperation env fuel)
    (recordsOf env first more)
    (set_state (advance (set_tokens eqTok rest (state p))) p)
    = (Success op, p2) →
  getNumResults (ir p2) op = Some k →
  k ≠ 0 →
  (declaredResults env first more < 2 ^ 64)%Z →
  Z.of_nat k ≠ declaredResults env first more →
  notLexerError p2 →
  parseOperation env (S fuel) p =
    (Failure,
     addDiagnostics
       [resultCountError (Token.loc (curToken (state p))) k
          (declaredResults env first more)] p2).
Proof.
  intros Htoks Hfirst Hall Heq Hfuel Hbody Hk Hk0 Hsum Hdiff Htok.
  assert (Hlist :
    liftP (parseResultList env fuel) p
    = (Success (recordsOf env first more, declaredResults env first more),
       set_state (advance (set_tokens eqTok rest (state p))) p)).
  { unfold liftP, zoom.
    by rewrite (parseResultList_entries fuel _ first more eqTok rest). }
  simpl. rewrite (parseOperationStep_unfold env _ _ _ _ _ _ _ _ Hlist Hbody).
  apply registerResults_mismatch; done.
Qed.

(** C10.  An entry of a result list whose size is an integer below one is
    rejected with "expected named operation to have at least 1 result", at
    the size; and a result list on an operation that produces no result is
    rejected with "cannot name an operation with no results", at the
    operation. *)
Theorem parseOperation_result_sizes :
  (∀ locals st colonTok intTok rest,
     Token.kind (curToken st) = Token.percent_identifier →
     lexRest st = colonTok :: intTok :: rest →
     Token.kind colonTok = Token.colon →
     Token.kind intTok = Token.integer →
     (∀ v, getUInt64IntegerValue env intTok = Some v → (v < 1)%Z) →
     parseNextResult env (locals, st) =
       (Failure,
        (locals,
         set_diagnostics
           (diagnostics st ++ [atLeastOneResultError (Token.loc intTok)])
           (set_tokens intTok rest st))))
  ∧ (∀ fuel p p1 p2 resultIDs n op,
       liftP (parseResultList env fuel) p = (Success (resultIDs, n), p1) →
       parseOperationBody env fuel (parseOperation env fuel) resultIDs p1
         = (Success op, p2) →
       resultIDs ≠ [] →
       getNumResults (ir p2) op = Some 0 →
       notLexerError p2 →
       parseOperation env (S fuel) p =
         (Failure,
          addDiagnostics [noResultsError (Token.loc (curToken (state p)))] p2)).
Proof.
  split.
  - apply parseNextResult_size_below_one.
  - intros fuel p p1 p2 resultIDs n op Hlist Hbody Hne Hk Htok. simpl.
    rewrite (parseOperationStep_unfold env _ _ _ _ _ _ _ _ Hlist Hbody).
    by apply registerResults_no_results.
Qed.

End OperationTheorems.

(** ** The successors of a generic operation *)

Section GenericOperation.
Context (env : Collaborators).

Lemma liftM_run {A} (m : M A) (r : OperationState) p :
  liftM m (r, p) = let '(o, p') := m p in (o, (r, p')).
Proof. done. Qed.

Lemma liftM_liftP_getToken (r : OperationState) p :
  liftM (liftP getToken) (r, p) = (Success (curToken (state p)), (r, p)).
Proof. by rewrite liftM_run, liftP_getToken. Qed.

Lemma liftP_emitError_emits {A} args p :
  Token.kind (curToken (state p)) ≠ Token.eof →
  Token.kind (curToken (state p)) ≠ Token.error →
  liftP (emitError (A:=A) args) p =
    (Failure,
     addDiagnostics
       [mkDiagnostic
          (getEncodedSourceLocation (Token.loc (curToken (state p)))) args []]
       p).
Proof. intros H1 H2. unfold liftP, zoom. by rewrite emitError_emits. Qed.

Lemma bind_apply {St A B} (m : StateM St A) (k : A → StateM St B) s :
  bind m k s = match m s with
               | (Success a, s') => k a s'
               | (Failure, s') => (Failure, s')
               | (Undefined, s') => (Undefined, s')
               end.
Proof. done. Qed.

Lemma parseGenericSuccessors_at_square fuel (r : OperationState) p :
  Token.kind (curToken (state p)) = Token.l_square →
  parseGenericSuccessors env fuel None (r, p) =
    if mightHaveTrait_IsTerminator env (os_name r)
    then bind (liftM (parseSuccessors fuel))
           (λ successors, modifyResult (addSuccessors successors)) (r, p)
    else liftM (liftP (emitError [ArgString "successors in non-terminator"]))
           (r, p).
Proof.
  intros Hsq. unfold parseGenericSuccessors.
  rewrite (bind_Success _ _ _ _ _ (liftM_liftP_getToken _ _)).
  unfold Token.is_. rewrite bool_decide_eq_true_2 by done.
  rewrite (bind_Success _ _ (r, p) r (r, p)) by done.
  by destruct (mightHaveTrait_IsTerminator env (os_name r)).
Qed.

(** C7, as amended.  In the generic form of an operation, at a ['['] after
    the operands: for an operation that is known not to be a terminator
    ([mightHaveTrait<IsTerminator>] is false) the parser fails with
    "successors in non-terminator"; for every other operation, which is a
    known terminator or no known operation at all, the successor list is
    parsed and its blocks are appended to the successors of the state of the
    operation, nothing else of that state changing, and the parser goes on
    with it; a failure of the list is a failure of the operation.  C7 itself
    fails for an operation that is not registered, which is not known to be
    a terminator and whose successors are accepted. *)
Theorem generic_successors_require_terminator fuel rec
    parsedOperandUseInfo parsedRegions parsedAttributes propertiesAttribute
    parsedFnType result p opInfo result1 p1 :
  parseGenericOperands env fuel parsedOperandUseInfo (result, p)
    = (Success opInfo, (result1, p1)) →
  Token.kind (curToken (state p1)) = Token.l_square →
  let run :=
    parseGenericOperationAfterOpName env fuel rec parsedOperandUseInfo None
      parsedRegions parsedAttributes propertiesAttribute parsedFnType
      (result, p) in
  (mightHaveTrait_IsTerminator env (os_name result1) = false →
   run =
     (Failure,
      (result1,
       addDiagnostics
         [plainError "successors in non-terminator"
            (Token.loc (curToken (state p1)))] p1)))
  ∧ (mightHaveTrait_IsTerminator env (os_name result1) = true →
     (∀ successors p2,
        parseSuccessors fuel p1 = (Success successors, p2) →
        run =
          parseGenericRemainder env fuel rec opInfo parsedRegions
            parsedAttributes propertiesAttribute parsedFnType
            (mkOperationState (os_location result1) (os_name result1)
               (os_operands result1) (os_types result1)
               (os_successors result1 ++ successors) (os_regions result1)
               (os_attributes result1) (os_propertiesAttr result1),
             p2))
     ∧ (∀ p2, parseSuccessors fuel p1 = (Failure, p2) →
              run = (Failure, (result1, p2)))).
Proof.
  intros Hops Hsq run. subst run. unfold parseGenericOperationAfterOpName.
  rewrite (bind_Success _ _ _ _ _ Hops).
  rewrite (bind_apply (parseGenericSuccessors env fuel None)).
  rewrite (parseGenericSuccessors_at_square _ _ _ Hsq).
  split.
  - intros Ht. rewrite Ht. simpl.
    rewrite liftM_run, liftP_emitError_emits; by rewrite ?Hsq.
  - intros Ht. rewrite Ht. simpl. split.
    + intros successors p2 Hs. unfold bind at 1. by rewrite liftM_run, Hs.
    + intros p2 Hs. unfold bind at 1. by rewrite liftM_run, Hs.
Qed.

End GenericOperation.

(** ** Uses and definitions of SSA values *)

Lemma lookup_resizeEntries_lt k entries i :
  i < length entries → length entries ≤ k →
  resizeEntries k entries !! i = entries !! i.
Proof. intros Hi Hk. unfold resizeEntries. apply lookup_resize; lia. Qed.

Lemma getType_createOperation o g x t :
  getType g x = Some t →
  (∀ o' i, x = OpResult o' i → o' < ir_nextOp g) →
  getType (createOperation o g).2 x = Some t.
Proof.
  intros Ht Hfresh. destruct x as [o' i|b i]; simpl in *; [|done].
  rewrite lookup_insert_ne; [done|]. specialize (Hfresh o' i eq_refl). lia.
Qed.

Lemma lookup_entries_frame (vals : gmap string (list ValueDefinition))
    n num e entries nu F :
  vals !! n = Some entries → entries !! num = Some e →
  (n = nu → F !! num = Some e) →
  ∃ entries', <[nu := F]> vals !! n = Some entries' ∧ entries' !! num = Some e.
Proof.
  intros Hv He HF. destruct (decide (n = nu)) as [->|Hne].
  - exists F. rewrite lookup_insert_eq. auto.
  - exists entries. by rewrite lookup_insert_ne.
Qed.

Lemma bound_value_unbound (E : list ValueDefinition) i x l :
  E !! i = Some (mkValueDefinition (Some x) l) →
  E !! i ≫= vd_value = None → False.
Proof. by intros ->. Qed.

Lemma bound_pair_unbound (E : list ValueDefinition) i r :
  E !! i ≫= (λ e, (λ v : Value, (v, e)) <$> vd_value e) = Some r →
  E !! i ≫= vd_value = None → False.
Proof. destruct (E !! i) as [[[x|] l]|]; simpl; by intros. Qed.

Lemma unbound_pair (E : list ValueDefinition) i :
  E !! i ≫= (λ e, (λ v : Value, (v, e)) <$> vd_value e) = None →
  E !! i ≫= vd_value = None.
Proof. by destruct (E !! i) as [[[x|] l]|]. Qed.

Lemma length_resizeEntries k E : length (resizeEntries k E) = k.
Proof. apply length_resize. Qed.

Ltac unify_scopes :=
  repeat match goal with
    | H : isolatedNameScopes ?p = _ :: _, H' : isolatedNameScopes ?p = _ :: _ |- _ =>
        rewrite H in H'; simplify_eq/=
    | H : isolatedNameScopes ?p = _, H' : head (isolatedNameScopes ?p) = _ |- _ =>
        rewrite H in H'; simplify_eq/=
    end.

(** What a successful [resolveSSAUse] leaves: the bound entries, the
    placeholders and the types of the values that exist; and, for a use of
    an unbound entry, a new placeholder bound to it. *)
Lemma resolveSSAUse_Success u t p v p1 :
  resolveSSAUse u t p = (Success v, p1) →
  (∀ n num x l, boundTo p n num x l → boundTo p1 n num x l)
  ∧ (∀ x tx, placeholderOfType p x tx → placeholderOfType p1 x tx)
  ∧ (unbound p (name u) (number u) →
     boundTo p1 (name u) (number u) v (location u) ∧ placeholderOfType p1 v t).
Proof.
  unfold resolveSSAUse, getSSAValueEntry, setSSAValueEntry, backScope,
    setBackScope, createForwardRefPlaceholder, typeOf, allocIR, liftP, zoom,
    emitErrorAt, isForwardRefPlaceholder.
  unfold bind, get, gets, deref, modify, ret, undefined, failure, getToken.
  intros H. simpl in H.
  repeat (case_match; simplify_eq/=).
  all: unify_scopes.
  all: repeat match goal with
       | H : bool_decide _ = true |- _ => apply bool_decide_eq_true in H
       | H : bool_decide _ = false |- _ => apply bool_decide_eq_false in H
       | H : negb _ = false |- _ => apply negb_false_iff in H
       | H : _ ≫= (λ e, (λ v : Value, (v, e)) <$> vd_value e) = None |- _ =>
           apply unbound_pair in H
       end.
  all: split; [|split].
  (* the use of a bound entry *)
  1: { intros n num x lx (scope & rest & entries & Hs & Hv & He). unify_scopes.
       destruct (lookup_entries_frame (values scope) n num _ entries (name u)
                   (default [] (values scope !! name u)) Hv He)
         as (entries' & ? & ?); [intros ->; by rewrite Hv|].
       by eexists _, _, entries'. }
  1: { intros x tx Hx. exact Hx. }
  1: { intros (scope & rest & Hs & Hu). unify_scopes.
       match goal with H : _ ≫= _ = Some _ |- _ =>
         by destruct (bound_pair_unbound _ _ _ H Hu) end. }
  (* a forward reference *)
  all: try (intros n num x lx (scope & rest & entries & Hs & Hv & He);
            unify_scopes;
            destruct (decide (n = name u)) as [->|Hn];
            [ match goal with H : default [] _ !! _ ≫= vd_value = None |- _ =>
                rewrite Hv in H; simpl in H end;
              rewrite ?Hv in *; simpl in *;
              eexists _, _, _; split; [done|]; simpl;
              rewrite lookup_insert_eq; split; [done|];
              rewrite list_lookup_insert_ne
                by (intros <-; eapply bound_value_unbound; eauto);
              first
                [ done
                | rewrite lookup_resizeEntries_lt;
                  [ done
                  | by eapply lookup_lt_Some
                  | match goal with H : _ < length (resizeEntries _ _) |- _ =>
                      rewrite length_resizeEntries in H end; lia ] ]
            | eexists _, _, entries; split; [done|]; simpl;
              by rewrite !lookup_insert_ne by done ]).
  all: try (intros x tx (Hx & Hty & (o & i0 & -> & Ho));
            split; [|split]; simpl;
            [ apply lookup_insert_is_Some'; by right
            | rewrite lookup_insert_ne by lia; exact Hty
            | exists o, i0; split; [done|]; simpl; lia ]).
  all: try (intros _; split;
    [ eexists _, _, _; split; [done|]; simpl;
      rewrite lookup_insert_eq; split; [done|];
      by apply list_lookup_insert_eq
    | split; [|split]; simpl;
      [ rewrite lookup_insert_eq; eauto
      | by rewrite lookup_insert_eq
      | eexists _, _; split; [done|]; simpl; lia ] ]).
Qed.

Lemma set_isolatedNameScopes_id p :
  set_isolatedNameScopes (isolatedNameScopes p) p = p.
Proof. by destruct p. Qed.

Lemma setSSAValueEntry_id p scope rest n entries :
  isolatedNameScopes p = scope :: rest →
  values scope !! n = Some entries →
  setSSAValueEntry n entries p = (Success (), p).
Proof.
  intros Hs Hv. unfold setSSAValueEntry, backScope, setBackScope.
  unfold bind, get, deref, modify. rewrite Hs. simpl.
  rewrite insert_id by done.
  replace (mkIsolatedSSANameScope (values scope) (definitionsPerScope scope))
    with scope by (by destruct scope).
  rewrite Hs. by rewrite <- Hs, set_isolatedNameScopes_id.
Qed.

Lemma getSSAValueEntry_bound p scope rest n entries :
  isolatedNameScopes p = scope :: rest →
  values scope !! n = Some entries →
  getSSAValueEntry n p = (Success entries, p).
Proof.
  intros Hs Hv. unfold getSSAValueEntry, backScope.
  unfold bind at 1 2, get at 1, deref. rewrite Hs. simpl. rewrite Hv. simpl.
  erewrite bind_Success; [|by eapply setSSAValueEntry_id]. done.
Qed.

(** [addDefinition] of a value whose type is not the type of the placeholder
    the name is bound to. *)
Lemma addDefinition_type_mismatch p n num existing useLoc useType defLoc value
    defType :
  boundTo p n num existing useLoc →
  placeholderOfType p existing useType →
  getType (ir p) value = Some defType →
  defType ≠ useType →
  notLexerError p →
  addDefinition (mkUnresolvedOperand defLoc n num) value p =
    (Failure,
     addDiagnostics [typeMismatchError defLoc n num defType useLoc useType] p).
Proof.
  intros (scope & rest & entries & Hs & Hv & He) (Hph & Hty & _) Hval Hne Htok.
  unfold addDefinition. simpl.
  erewrite bind_Success; [|by eapply getSSAValueEntry_bound].
  rewrite bool_decide_eq_false_2
    by (apply lookup_lt_Some in He; lia).
  erewrite bind_Success; [|by eapply setSSAValueEntry_id].
  rewrite He. simpl.
  erewrite bind_Success; [|done]. simpl.
  erewrite bind_Failure; [reflexivity|].
  erewrite bind_Success; [|done].
  unfold isForwardRefPlaceholder. rewrite bool_decide_eq_true_2 by done. simpl.
  unfold typeOf.
  erewrite bind_Success; [|by unfold bind, get; rewrite Hty].
  erewrite bind_Success; [|by unfold bind, get; rewrite Hval].
  rewrite bool_decide_eq_false_2 by congruence. simpl.
  by apply emitErrorAt_emits.
Qed.

Lemma resolveAll_Success uses p vs p' :
  resolveAll uses p = (Success vs, p') →
  (∀ n num x l, boundTo p n num x l → boundTo p' n num x l)
  ∧ (∀ x tx, placeholderOfType p x tx → placeholderOfType p' x tx).
Proof.
  revert p vs. induction uses as [|[u t] uses IH]; intros p vs; simpl.
  - by intros [= _ <-].
  - intros H. apply bind_Success_inv in H as (v & p1 & H1 & H).
    apply bind_Success_inv in H as (vs' & p2 & H2 & H).
    injection H as _ <-.
    destruct (resolveSSAUse_Success _ _ _ _ _ H1) as (Hb1 & Hp1 & _).
    destruct (IH _ _ H2) as (Hb2 & Hp2). split; eauto.
Qed.

(** The check of [addDefinition] where it is reached: the definition of
    [n#num] with a type that differs from the type of the placeholder [n#num]
    is bound to fails with the type-mismatch error, whose note is at the
    location of the first use; and [n#num] is still bound to its placeholder
    when, between the first use and the definition, the parser has only
    resolved uses in the same scope. *)
Lemma definition_type_differs_from_forward_use :
  (∀ p n num existing useLoc useType defLoc value defType,
     boundTo p n num existing useLoc →
     placeholderOfType p existing useType →
     getType (ir p) value = Some defType →
     defType ≠ useType →
     notLexerError p →
     addDefinition (mkUnresolvedOperand defLoc n num) value p =
       (Failure,
        addDiagnostics
          [typeMismatchError defLoc n num defType useLoc useType] p))
  ∧ (∀ p useInfo useType v p1 uses vs p2 defLoc value defType,
       unbound p (name useInfo) (number useInfo) →
       resolveSSAUse useInfo useType p = (Success v, p1) →
       resolveAll uses p1 = (Success vs, p2) →
       getType (ir p2) value = Some defType →
       defType ≠ useType →
       notLexerError p2 →
       addDefinition
         (mkUnresolvedOperand defLoc (name useInfo) (number useInfo)) value p2 =
         (Failure,
          addDiagnostics
            [typeMismatchError defLoc (name useInfo) (number useInfo) defType
               (location useInfo) useType] p2)).
Proof.
  split; [apply addDefinition_type_mismatch|].
  intros p useInfo useType v p1 uses vs p2 defLoc value defType
    Hu Huse Huses Hval Hne Htok.
  destruct (resolveSSAUse_Success _ _ _ _ _ Huse) as (_ & _ & Hnew).
  destruct (Hnew Hu) as (Hb & Hp).
  destruct (resolveAll_Success _ _ _ _ Huses) as (Hb2 & Hp2).
  eapply addDefinition_type_mismatch; eauto.
Qed.

(** ** The registry of block labels *)

Lemma set_blocksByName_id p : set_blocksByName (blocksByName p) p = p.
Proof. by destruct p. Qed.

Lemma lookup_bd_block (m : gmap string BlockDefinition) n b l :
  m !! n = Some (mkBlockDefinition (Some b) l) → m !! n ≫= bd_block = Some b.
Proof. by intros ->. Qed.

Lemma getBlockInfoByName_known p m rest n bd :
  blocksByName p = m :: rest → m !! n = Some bd →
  getBlockInfoByName n p = (Success bd, p).
Proof.
  intros Hm Hn. unfold getBlockInfoByName, setBlockInfoByName.
  unfold bind, get, deref, modify, ret. rewrite Hm. simpl. rewrite Hm, Hn. simpl.
  rewrite insert_id by done. by rewrite <- Hm, set_blocksByName_id.
Qed.

Lemma getBlockInfoByName_unknown p m rest n :
  blocksByName p = m :: rest → m !! n = None →
  getBlockInfoByName n p =
    (Success (mkBlockDefinition None nullLoc),
     set_blocksByName (<[n := mkBlockDefinition None nullLoc]> m :: rest) p).
Proof.
  intros Hm Hn. unfold getBlockInfoByName, setBlockInfoByName.
  unfold bind, get, deref, modify, ret. rewrite Hm. simpl. by rewrite Hm, Hn.
Qed.

Lemma setBlockInfoByName_run p m rest n bd :
  blocksByName p = m :: rest →
  setBlockInfoByName n bd p =
    (Success (), set_blocksByName (<[n := bd]> m :: rest) p).
Proof.
  intros Hm. unfold setBlockInfoByName, bind, get, modify. by rewrite Hm.
Qed.

(** A reference to a label that stands for a block. *)
Lemma getBlockNamed_known p m rest n b l :
  blocksByName p = m :: rest → m !! n ≫= bd_block = Some b →
  getBlockNamed n l p = (Success b, p).
Proof.
  intros Hm Hn. destruct (m !! n) as [bd|] eqn:Hbd; [|done]. simpl in Hn.
  unfold getBlockNamed.
  erewrite bind_Success; [|by eapply getBlockInfoByName_known].
  by rewrite Hn.
Qed.

Lemma getBlockNamed_unknown p m rest f rest' n l :
  blocksByName p = m :: rest → forwardRef p = f :: rest' →
  m !! n ≫= bd_block = None →
  getBlockNamed n l p =
    (Success (ir_nextBlock (ir p)), afterForwardReference n l m rest f rest' p).
Proof.
  intros Hm Hf Hn. destruct p. simpl in Hm, Hf. subst.
  unfold getBlockNamed, afterForwardReference, getBlockInfoByName,
    setBlockInfoByName, insertForwardRef, allocIR.
  unfold bind, get, deref, modify, ret. simpl.
  destruct (m !! n) as [[[b|] l']|] eqn:Hbd; simpl in *; [done| |].
  - rewrite insert_insert_eq. by destruct (f !! ir_nextBlock _).
  - rewrite insert_insert_eq. by destruct (f !! ir_nextBlock _).
Qed.

Lemma getBlockNamed_Success_inv n l p b p1 :
  getBlockNamed n l p = (Success b, p1) →
  ∃ m rest, blocksByName p = m :: rest ∧
    (m !! n ≫= bd_block = None → ∃ f rest', forwardRef p = f :: rest').
Proof.
  destruct p as [? ? ? bs fs ? ? ? ? ?].
  unfold getBlockNamed, getBlockInfoByName, setBlockInfoByName,
    insertForwardRef, allocIR.
  unfold bind, get, deref, modify, ret, undefined. simpl.
  destruct bs as [|m rest]; simpl; [done|].
  intros H. exists m, rest. split; [done|]. intros Hn.
  destruct (m !! n) as [[[]]|]; simpl in *; try done;
    by destruct fs as [|f rest']; eauto.
Qed.

(** The effect of a reference on the registry of labels. *)
Lemma getBlockNamed_Success n l p b p1 :
  getBlockNamed n l p = (Success b, p1) →
  (∀ n' b', forwardDeclared p n' b' → forwardDeclared p1 n' b')
  ∧ (registryWellFormed p → registryWellFormed p1)
  ∧ (∀ b0, standsFor p n b0 → b = b0)
  ∧ (unknownLabel p n → forwardDeclared p1 n b).
Proof.
  intros H. destruct (getBlockNamed_Success_inv _ _ _ _ _ H) as (m & rest & Hm & Hfwd).
  destruct (m !! n ≫= bd_block) as [b0|] eqn:Hn.
  - rewrite (getBlockNamed_known _ _ _ _ _ _ Hm Hn) in H. simplify_eq.
    split; [done|]. split; [done|]. split.
    + intros b1 (m1 & rest1 & Hm1 & Hn1). congruence.
    + intros (m1 & rest1 & Hm1 & Hn1). congruence.
  - destruct (Hfwd eq_refl) as (f & rest' & Hf).
    rewrite (getBlockNamed_unknown _ _ _ _ _ _ _ Hm Hf Hn) in H. simplify_eq.
    unfold afterForwardReference.
    split; [|split; [|split]].
    + intros n' b' (m1 & rest1 & f1 & rest1' & l1 & Hm1 & Hn1 & Hf1 & Hb1).
      destruct p as [? g ? ? ? ? ? ? ? ?]; simpl in *; simplify_eq.
      eexists _, _, _, _, l1. split; [done|]. split; [|split; [done|]].
      * rewrite lookup_insert_ne; [done|]. intros ->. by rewrite Hn1 in Hn.
      * destruct (f1 !! ir_nextBlock _) eqn:Hnb; [done|].
        destruct (decide (b' = ir_nextBlock g)) as [->|Hne].
        -- by rewrite lookup_insert_eq.
        -- by rewrite lookup_insert_ne.
    + intros (m1 & rest1 & Hm1 & Hlt & Hinj).
      destruct p; simpl in *; simplify_eq.
      eexists _, _. split; [done|]. split.
      * intros n1 b1. destruct (decide (n1 = n)) as [->|Hne].
        -- rewrite lookup_insert_eq. simpl. intros; simplify_eq. simpl. lia.
        -- rewrite lookup_insert_ne by done. intros Hb1%Hlt. simpl. lia.
      * intros n1 n2 b1.
        destruct (decide (n1 = n)) as [->|Hne1];
          destruct (decide (n2 = n)) as [->|Hne2]; [done| | |].
        -- rewrite lookup_insert_eq, lookup_insert_ne by done. simpl.
           intros ? Hb%Hlt; simplify_eq. lia.
        -- rewrite lookup_insert_eq, lookup_insert_ne by done. simpl.
           intros Hb%Hlt ?; simplify_eq. lia.
        -- rewrite !lookup_insert_ne by done. apply Hinj.
    + intros b1 (m1 & rest1 & Hm1 & Hn1). congruence.
    + intros _. destruct p; simpl in *; simplify_eq.
      eexists _, _, _, _, l. split; [done|]. split; [by rewrite lookup_insert_eq|].
      split; [done|].
      destruct (f !! ir_nextBlock _) eqn:Hnb; [by rewrite Hnb|].
      by rewrite lookup_insert_eq.
Qed.

(** A new scope has a well-formed registry, in which no label is known. *)
Lemma pushSSANameScope_registry isIsolated p p' :
  pushSSANameScope isIsolated p = (Success (), p') →
  registryWellFormed p' ∧ ∀ n, unknownLabel p' n.
Proof.
  intros H.
  assert (blocksByName p' = ∅ :: blocksByName p) as Hm.
  { revert H. destruct p as [? ? scopes ? ? ? ? ? ? ?].
    unfold pushSSANameScope, backScope, setBackScope.
    unfold bind, get, gets, deref, modify, ret, undefined. simpl.
    destruct isIsolated; simpl.
    - destruct (Isolated_pushSSANameScope _); by intros [= <-].
    - destruct scopes as [|s scopes]; simpl; [done|].
      destruct (Isolated_pushSSANameScope _); by intros [= <-]. }
  split.
  - exists ∅, (blocksByName p). split; [done|].
    split; intros *; by rewrite lookup_empty.
  - intros n. exists ∅, (blocksByName p). split; [done|]. by rewrite lookup_empty.
Qed.

(** The definition of a forward-declared label. *)
Lemma defineBlock_forward p n b nameLoc blk :
  forwardDeclared p n b →
  ∃ p1, defineBlock n nameLoc blk p = (Success (b, Some b), p1)
        ∧ standsFor p1 n b
        ∧ ¬ forwardDeclared p1 n b.
Proof.
  intros (m & rest & f & rest' & l & Hm & Hn & Hf & Hb).
  destruct p; simpl in *; simplify_eq.
  unfold defineBlock, getBlockInfoByName, setBlockInfoByName, eraseForwardRef.
  unfold bind, get, deref, modify, ret. simpl. rewrite Hn. simpl.
  rewrite bool_decide_eq_true_2 by done. simpl.
  eexists. split; [done|]. split.
  - eexists _, _. split; [reflexivity|]. by rewrite lookup_insert_eq.
  - intros (m1 & rest1 & f1 & rest1' & l1 & Hm1 & Hn1 & Hf1 & Hb1).
    simpl in *. simplify_eq. rewrite lookup_delete_eq in Hb1. by destruct Hb1.
Qed.

(** The definition of another label leaves a forward declaration alone. *)
Lemma defineBlock_other n' nameLoc p r p1 n b :
  n' ≠ n →
  defineBlock n' nameLoc None p = (Success r, p1) →
  registryWellFormed p → forwardDeclared p n b →
  registryWellFormed p1 ∧ forwardDeclared p1 n b.
Proof.
  intros Hne H (m & rest & Hm & Hlt & Hinj)
    (m1 & rest1 & f & rest' & l & Hm1 & Hn & Hf & Hb).
  destruct p; simpl in *; simplify_eq.
  revert H.
  unfold defineBlock, getBlockInfoByName, setBlockInfoByName, eraseForwardRef,
    allocIR, liftP, emitErrorAt, reportDiagnostic.
  unfold bind, get, gets, deref, modify, ret, failure. simpl.
  destruct (m1 !! n') as [[[b'|] l']|] eqn:Hn'; simpl.
  - destruct (bool_decide (is_Some (f !! b'))); simpl; [|unfold zoom; simpl; destruct (Token.is_ _ _); simpl; intros ?; simplify_eq].
    intros ?; simplify_eq. rewrite !insert_insert_eq.
    assert (b' ≠ b) as Hbb.
    { intros ->. apply Hne. apply (Hinj n' n b); [by rewrite Hn'|by rewrite Hn]. }
    split.
    + eexists _, _. split; [reflexivity|]. simpl. split.
      * intros n1 b1. destruct (decide (n1 = n')) as [->|?].
        -- rewrite lookup_insert_eq. simpl. intros ?; simplify_eq.
           apply (Hlt n'). by rewrite Hn'.
        -- rewrite lookup_insert_ne by done. apply Hlt.
      * intros n1 n2 b1.
        destruct (decide (n1 = n')) as [->|?];
          destruct (decide (n2 = n')) as [->|?]; [done| | |].
        -- rewrite lookup_insert_eq, lookup_insert_ne by done. simpl.
           intros ? Hb1; simplify_eq. apply (Hinj n' n2 b1); [by rewrite Hn'|done].
        -- rewrite lookup_insert_eq, lookup_insert_ne by done. simpl.
           intros Hb1 ?; simplify_eq. apply (Hinj n1 n' b1); [done|by rewrite Hn'].
        -- rewrite !lookup_insert_ne by done. apply Hinj.
    + eexists _, _, _, _, l. split; [reflexivity|]. simpl.
      split; [by rewrite lookup_insert_ne|]. split; [reflexivity|].
      by rewrite lookup_delete_ne.
  - intros ?; simplify_eq. rewrite !insert_insert_eq. split.
    + eexists _, _. split; [reflexivity|]. simpl. split.
      * intros n1 b1. destruct (decide (n1 = n')) as [->|?].
        -- rewrite lookup_insert_eq. simpl. intros ?; simplify_eq. lia.
        -- rewrite lookup_insert_ne by done. intros ?%Hlt. lia.
      * intros n1 n2 b1.
        destruct (decide (n1 = n')) as [->|?];
          destruct (decide (n2 = n')) as [->|?]; [done| | |].
        -- rewrite lookup_insert_eq, lookup_insert_ne by done. simpl.
           intros ? ?%Hlt; simplify_eq. lia.
        -- rewrite lookup_insert_eq, lookup_insert_ne by done. simpl.
           intros ?%Hlt ?; simplify_eq. lia.
        -- rewrite !lookup_insert_ne by done. apply Hinj.
    + eexists _, _, _, _, l. split; [reflexivity|]. simpl.
      split; [by rewrite lookup_insert_ne|]. by split.
  - intros ?; simplify_eq. rewrite !insert_insert_eq. split.
    + eexists _, _. split; [reflexivity|]. simpl. split.
      * intros n1 b1. destruct (decide (n1 = n')) as [->|?].
        -- rewrite lookup_insert_eq. simpl. intros ?; simplify_eq. lia.
        -- rewrite lookup_insert_ne by done. intros ?%Hlt. lia.
      * intros n1 n2 b1.
        destruct (decide (n1 = n')) as [->|?];
          destruct (decide (n2 = n')) as [->|?]; [done| | |].
        -- rewrite lookup_insert_eq, lookup_insert_ne by done. simpl.
           intros ? ?%Hlt; simplify_eq. lia.
        -- rewrite lookup_insert_eq, lookup_insert_ne by done. simpl.
           intros ?%Hlt ?; simplify_eq. lia.
        -- rewrite !lookup_insert_ne by done. apply Hinj.
    + eexists _, _, _, _, l. split; [reflexivity|]. simpl.
      split; [by rewrite lookup_insert_ne|]. by split.
Qed.

Lemma onFailure_Success_inv {St A} (cleanup : StateM St unit) (m : StateM St A)
    s a s' :
  onFailure cleanup m s = (Success a, s') → m s = (Success a, s').
Proof.
  unfold onFailure, attempt, bind, ret, failure.
  destruct (m s) as [[a'| |] s1]; simpl; [by intros [= -> ->]| |done].
  by destruct (cleanup s1) as [[| |] ?].
Qed.

Lemma forwardDeclared_set_state p st n b :
  forwardDeclared p n b → forwardDeclared (set_state st p) n b.
Proof. by destruct p. Qed.

(** A block event that does not define the label [n] keeps its forward
    declaration, and a reference to [n] gives the declared block. *)
Lemma runBlockEvent_forwardDeclared e p r p1 n b :
  ¬ definesLabel n e →
  runBlockEvent e p = (Success r, p1) →
  registryWellFormed p → forwardDeclared p n b →
  registryWellFormed p1 ∧ forwardDeclared p1 n b
  ∧ (∀ l, e = Reference n l → r = b).
Proof.
  intros Hdef H Hwf Hfwd. destruct e as [n' l|n' l|]; simpl in *.
  - destruct (getBlockNamed_Success _ _ _ _ _ H) as (Hf & Hw & Hs & _).
    split; [by apply Hw|]. split; [by apply Hf|].
    intros l0 [= -> ->]. apply Hs.
    destruct Hfwd as (m & rest & f & rest' & l1 & Hm & Hn & _).
    exists m, rest. split; [done|]. by rewrite Hn.
  - apply bind_Success_inv in H as (r0 & p0 & H & Hret).
    unfold ret in Hret. simplify_eq.
    destruct (defineBlock_other _ _ _ _ _ _ _ Hdef H Hwf Hfwd). by split.
  - unfold allocIR in H. simpl in H. simplify_eq.
    destruct p; simpl in *. split; [|by split].
    destruct Hwf as (m & rest & Hm & Hlt & Hinj). simpl in *.
    exists m, rest. split; [done|]. split; [|done].
    intros n1 b1 ?%Hlt. simpl. lia.
Qed.

Lemma runBlockEvents_forwardDeclared es : ∀ p bs p1 n b,
  Forall (λ e, ¬ definesLabel n e) es →
  runBlockEvents es p = (Success bs, p1) →
  registryWellFormed p → forwardDeclared p n b →
  registryWellFormed p1 ∧ forwardDeclared p1 n b
  ∧ (∀ i l, es !! i = Some (Reference n l) → bs !! i = Some b).
Proof.
  induction es as [|e es IH]; intros p bs p1 n b Hall H Hwf Hfwd; simpl in H.
  - unfold ret in H. simplify_eq. by split; [|split].
  - apply Forall_cons in Hall as [He Hes].
    apply bind_Success_inv in H as (r & pa & Hr & H).
    apply bind_Success_inv in H as (rs & pb & Hrs & H).
    unfold ret in H. simplify_eq.
    destruct (runBlockEvent_forwardDeclared _ _ _ _ _ _ He Hr Hwf Hfwd)
      as (Hwf' & Hfwd' & Hres).
    destruct (IH _ _ _ _ _ Hes Hrs Hwf' Hfwd') as (Hwf'' & Hfwd'' & Hress).
    split; [done|]. split; [done|].
    intros [|i] l Hi; simpl in *.
    + f_equal. apply (Hres l). by simplify_eq.
    + by apply (Hress i l).
Qed.

(** [parseBlock] at the label of a forward-declared block parses that
    block. *)
Lemma parseBlock_forwardDeclared env fuel parseOperationRec blk p n b b' p' :
  forwardDeclared p n b →
  Token.kind (curToken (state p)) = Token.caret_identifier →
  Token.spelling (curToken (state p)) = n →
  parseBlock env fuel parseOperationRec blk p = (Success b', p') →
  b' = b.
Proof.
  intros Hfwd Hk Hn H. unfold parseBlock in H.
  rewrite (bind_Success _ _ _ _ _ (liftP_getToken p)) in H.
  unfold Token.isNot, Token.is_ in H. rewrite Hk in H.
  rewrite bool_decide_eq_true_2 in H by done. simpl in H.
  assert (∀ X : M BlockId, (match blk with Some _ => X | None => X end) = X)
    as Hblk by by destruct blk.
  rewrite Hblk in H. clear Hblk.
  apply bind_Success_inv in H as ([] & pa & Htok & H).
  apply liftP_Success_inv in Htok as (st' & _ & ->).
  apply bind_Success_inv in H as ([b0 infl] & pb & Hdef & H).
  rewrite Hn in Hdef.
  destruct (defineBlock_forward _ _ _ (Token.loc (curToken (state p))) blk
              (forwardDeclared_set_state p st' n b Hfwd)) as (p1 & Hdef' & _).
  rewrite Hdef' in Hdef. simplify_eq.
  apply onFailure_Success_inv in H.
  apply bind_Success_inv in H as (tok & pc & _ & H).
  apply bind_Success_inv in H as (? & pd & _ & H).
  apply bind_Success_inv in H as (? & pe & _ & H).
  apply bind_Success_inv in H as (? & pf & _ & H).
  unfold ret in H. by simplify_eq.
Qed.

(** C3.  A label [n] that is referenced before it is defined stands for one
    block [b] from its first reference on.  Whatever other labels are
    referenced or defined and whatever blocks are allocated in between,
    every later reference to [n] receives [b]; the definition of [n] then
    gives [b] itself and not a new block, after which a reference to [n]
    still receives [b]; and [parseBlock] at the label [n] parses into
    [b]. *)
Theorem forward_declared_block_identity n l p0 b p1 es bs p2 :
  registryWellFormed p0 → unknownLabel p0 n →
  getBlockNamed n l p0 = (Success b, p1) →
  Forall (λ e, ¬ definesLabel n e) es →
  runBlockEvents es p1 = (Success bs, p2) →
  (∀ i l', es !! i = Some (Reference n l') → bs !! i = Some b)
  ∧ (∀ nameLoc blk,
       ∃ p3, defineBlock n nameLoc blk p2 = (Success (b, Some b), p3)
             ∧ standsFor p3 n b
             ∧ ∀ l', getBlockNamed n l' p3 = (Success b, p3))
  ∧ (∀ env fuel parseOperationRec blk b' p3,
       Token.kind (curToken (state p2)) = Token.caret_identifier →
       Token.spelling (curToken (state p2)) = n →
       parseBlock env fuel parseOperationRec blk p2 = (Success b', p3) →
       b' = b).
Proof.
  intros Hwf Hunk Href Hall Hrun.
  destruct (getBlockNamed_Success _ _ _ _ _ Href) as (_ & Hw & _ & Hf).
  destruct (runBlockEvents_forwardDeclared _ _ _ _ _ _ Hall Hrun
              (Hw Hwf) (Hf Hunk)) as (_ & Hfwd & Hrefs).
  split; [done|]. split.
  - intros nameLoc blk.
    destruct (defineBlock_forward _ _ _ nameLoc blk Hfwd) as (p3 & Hdef & Hs & _).
    exists p3. split; [done|]. split; [done|].
    intros l'. destruct Hs as (m & rest & Hm & Hn).
    by eapply getBlockNamed_known.
  - intros env fuel parseOperationRec blk b' p3 Hk Hn Hp.
    by eapply parseBlock_forwardDeclared.
Qed.

(** ** The properties on concrete files *)

Ltac by_evaluation := vm_compute; first [reflexivity | discriminate | done].

(** *** Whole files *)

(** A value that is defined and then used. *)
Example scenario_define_then_use :
  Demo.outcomeOf Demo.defineThenUse = Success ()
  ∧ Demo.diagsOf Demo.defineThenUse = [].
Proof. split; by_evaluation. Qed.

(** A value that is used and never defined. *)
Example scenario_undeclared_use :
  Demo.outcomeOf Demo.undeclaredUse = Failure
  ∧ Demo.diagsOf Demo.undeclaredUse = [undeclaredValueError 8%Z].
Proof. split; by_evaluation. Qed.

(** A branch to a label that is defined later: the successor of the branch
    is the block of the region that holds the operation under the label. *)
Example scenario_forward_branch :
  let g := (Demo.run Demo.forwardBranch).2 in
  Demo.outcomeOf Demo.forwardBranch = Success ()
  ∧ op_name <$> ir_ops g !! 1 = Some "br"
  ∧ op_successors <$> ir_ops g !! 1 = Some [3]
  ∧ ir_regions g !! 1 = Some [2; 3]
  ∧ blk_operations <$> ir_blocks g !! 3 = Some [2]
  ∧ op_name <$> ir_ops g !! 2 = Some "t".
Proof. cbv zeta. split_and!; by_evaluation. Qed.

(** A branch to a label that is never defined. *)
Example scenario_undefined_branch :
  Demo.outcomeOf Demo.undefinedBranch = Failure
  ∧ Demo.diagsOf Demo.undefinedBranch = [undefinedBlockError 30%Z].
Proof. split; by_evaluation. Qed.

(** A use with type [i32] and a definition with type [i16]. *)
Example scenario_type_mismatch :
  Demo.outcomeOf Demo.typeMismatch = Failure
  ∧ Demo.diagsOf Demo.typeMismatch
    = [typeMismatchError 30%Z "%x" 0 (Demo.intTy 16) 8%Z (Demo.intTy 32)].
Proof. split; by_evaluation. Qed.

(** Three names for one result. *)
Example scenario_too_many_names :
  Demo.outcomeOf Demo.tooManyNames = Failure
  ∧ Demo.diagsOf Demo.tooManyNames = [resultCountError 0%Z 1 3].
Proof. split; by_evaluation. Qed.

(** A result group of size zero. *)
Example scenario_zero_size :
  Demo.outcomeOf Demo.zeroSize = Failure
  ∧ Demo.diagsOf Demo.zeroSize = [atLeastOneResultError 5%Z].
Proof. split; by_evaluation. Qed.

(** Successors on a registered operation that is no terminator. *)
Example scenario_successors_of_non_terminator :
  Demo.outcomeOf Demo.successorsOfNonTerminator = Failure
  ∧ Demo.diagsOf Demo.successorsOfNonTerminator
    = [plainError "successors in non-terminator" 14%Z].
Proof. split; by_evaluation. Qed.

(** A location alias that is defined later, never, or as a string. *)
Example scenario_location_alias :
  (Demo.outcomeOf Demo.aliasDefinedLater = Success ()
   ∧ op_loc <$> ir_ops (Demo.run Demo.aliasDefinedLater).2 !! 1
     = Some (LiteralLoc 3))
  ∧ (Demo.outcomeOf Demo.aliasNeverDefined = Failure
     ∧ Demo.diagsOf Demo.aliasNeverDefined = [aliasNeverDefinedError 28%Z])
  ∧ (Demo.outcomeOf Demo.aliasNotLocation = Failure
     ∧ Demo.diagsOf Demo.aliasNotLocation
       = [expectedLocationError 28%Z (OtherAttr 3)]).
Proof. split_and!; by_evaluation. Qed.

(** *** The theorems, and the files they do not cover *)

(** C1, as amended, on the file ["use"(%1) : (i32) -> ()] followed by
    ["op"() : () -> () loc(#L)]. *)
Lemma finalize_undeclared_values_witness :
  let p := Demo.operations 2 Demo.undeclaredUseAndAlias in
  forwardRefPlaceholders p ≠ ∅ ∧
  finalize Demo.env p = (Failure, addDiagnostics [undeclaredValueError 8%Z] p).
Proof.
  assert (forwardRefPlaceholders (Demo.operations 2 Demo.undeclaredUseAndAlias) ≠ ∅) as Hne
    by by_evaluation.
  split; [exact Hne|].
  destruct (finalize_undeclared_values Demo.env _ Hne) as (H & _).
  - by_evaluation.
  - etrans; [exact H|]. by_evaluation.
Defined.

(** C1 fails on that file: a placeholder and a deferred location are left,
    and the error of the placeholder is the only one reported. *)
Lemma finalize_stops_at_undeclared_values :
  let p := Demo.operations 2 Demo.undeclaredUseAndAlias in
  (* a placeholder and a deferred location are left *)
  map_to_list (forwardRefPlaceholders p) = [(OpResult 1 0, 8%Z)] ∧
  IsOperation 3 ∈ visited Demo.env p ∧
  getLoc (ir p) (IsOperation 3) = Some (OpaqueLoc 0 DeferredLocInfoID UnknownLoc) ∧
  deferredLocsReferences p !! 0 = Some (mkDeferredLocInfo 58%Z "L") ∧
  attributeAliasDefinitions (state p) !! "L" = None ∧
  (* and one class of errors is reported *)
  diagnostics (state p) = [] ∧
  finalize Demo.env p = (Failure, addDiagnostics [undeclaredValueError 8%Z] p) ∧
  Demo.diagsOf Demo.undeclaredUseAndAlias = [undeclaredValueError 8%Z].
Proof.
  cbv zeta. split_and!; try by_evaluation.
  vm_compute. set_solver.
Qed.

(** C2, as amended, on a file that defines [%0] and uses it. *)
Lemma parseTopLevel_Success_witness :
  let p := Demo.start Demo.defineThenUse in
  (parseTopLevel Demo.env 64 p).1 = Success () ∧
  forwardRefPlaceholders (Demo.after (parseTopLevel Demo.env 64) p) = ∅.
Proof.
  split; [by_evaluation|].
  apply (parseTopLevel_Success Demo.env 64 (Demo.start Demo.defineThenUse)).
  by_evaluation.
Defined.

(** C2 fails on the file ["op"() : () -> () loc(#L)]: no placeholder is ever
    made, and the parse fails. *)
Lemma failure_without_placeholders :
  let p := Demo.start Demo.aliasNeverDefined in
  forwardRefPlaceholders (Demo.operations 1 Demo.aliasNeverDefined) = ∅ ∧
  forwardRefPlaceholders (Demo.after (parseTopLevel Demo.env 64) p) = ∅ ∧
  (parseTopLevel Demo.env 64 p).1 = Failure ∧
  Demo.outcomeOf Demo.aliasNeverDefined = Failure.
Proof. cbv zeta. split_and!; by_evaluation. Qed.

(** C3 on a scope where [^bb1] is referenced three times, among other
    events, before it is defined. *)
Lemma forward_declared_block_identity_witness :
  (∀ i l', Demo.labels !! i = Some (Reference "^bb1" l') →
           [2; 3; 4; 4; 2] !! i = Some 2)
  ∧ (∀ nameLoc blk,
       ∃ p3, defineBlock "^bb1" nameLoc blk
               (Demo.after (runBlockEvents Demo.labels) Demo.referenced)
               = (Success (2, Some 2), p3)
             ∧ standsFor p3 "^bb1" 2
             ∧ ∀ l', getBlockNamed "^bb1" l' p3 = (Success 2, p3)).
Proof.
  refine (let H := forward_declared_block_identity "^bb1" 5%Z (Demo.start []) 2
            Demo.referenced Demo.labels [2; 3; 4; 4; 2]
            (Demo.after (runBlockEvents Demo.labels) Demo.referenced)
            _ _ _ _ _ in conj (proj1 H) (proj1 (proj2 H))).
  - exists ∅, []. split; [by_evaluation|]. split; intros *; by rewrite lookup_empty.
  - exists ∅, []. split; [by_evaluation|]. by rewrite lookup_empty.
  - by_evaluation.
  - unfold Demo.labels.
    repeat (constructor; [simpl; first [tauto | intros [=]]|]). constructor.
  - by_evaluation.
Defined.

(** C4, as amended, on a scope with two labels that are not defined. *)
Lemma popSSANameScope_undefined_blocks_witness :
  ∃ p',
    popSSANameScope Demo.twoOrphans = (Failure, p') ∧
    diagnostics (state p') = [undefinedBlockError 9%Z; undefinedBlockError 20%Z] ∧
    ir_regions (ir p') !! 0 = Some [1; 2; 3].
Proof.
  destruct (popSSANameScope_undefined_blocks Demo.twoOrphans
              {[2 := 20%Z; 3 := 9%Z]} []
              (mkOperation "builtin.module" UnknownLoc [] [] [] [0] [] None)
              0 [1])
    as (errors & p' & Hrun & Hperm & Hsorted & Hdiags & Hregion & _);
    try by_evaluation.
  exists p'. split; [done|]. split; [|done].
  rewrite Hdiags. clear Hdiags Hregion Hrun.
  assert (errors = [9%Z; 20%Z]) as ->; [|done].
  vm_compute in Hperm.
  symmetry in Hperm.
  apply Permutation_length_2_inv in Hperm as [->| ->]; [|done].
  apply StronglySorted_inv in Hsorted as [_ Hle].
  apply Forall_cons in Hle as [Hle _]. by vm_compute in Hle.
Defined.

(** C4 fails on the region [{ ^bb0: "br"()[^bb1] : () -> () }] of an
    operation of the file: the block of [^bb1] joins the body of the module,
    and not the region it is referenced in. *)
Lemma undefined_block_joins_top_level_region :
  let region := Demo.inRegion.1 in
  let p' := Demo.inRegion.2.2 in
  Demo.inRegion.2.1 = Failure ∧
  diagnostics (state p') = [undefinedBlockError 20%Z] ∧
  (* the blocks of the region of the labels, and of the body of the module *)
  region = 1 ∧ ir_regions (ir p') !! region = Some [2] ∧
  (ir_ops (ir p') !! topLevelOp p') ≫= (λ o, op_regions o !! 0) = Some 0 ∧
  ir_regions (ir p') !! 0 = Some [1; 3] ∧
  (* the block of [^bb1] *)
  standsFor p' "^bb1" 3.
Proof.
  cbv zeta. split_and!; try by_evaluation.
  eexists _, _. split; [by_evaluation|]. by_evaluation.
Qed.

(** The check of [addDefinition] reached: [%x] is used with type [i32] at 6
    and defined with type [i16] at 30. *)
Lemma definition_type_differs_from_forward_use_witness :
  let use := mkUnresolvedOperand 6%Z "%x" 0 in
  let p2 := Demo.after (resolveSSAUse use (Demo.intTy 32)) Demo.definer in
  addDefinition (mkUnresolvedOperand 30%Z "%x" 0) (OpResult 1 0) p2 =
    (Failure,
     addDiagnostics
       [typeMismatchError 30%Z "%x" 0 (Demo.intTy 16) 6%Z (Demo.intTy 32)] p2).
Proof.
  apply (proj2 definition_type_differs_from_forward_use Demo.definer
           (mkUnresolvedOperand 6%Z "%x" 0) (Demo.intTy 32) (OpResult 2 0)
           (Demo.after (resolveSSAUse (mkUnresolvedOperand 6%Z "%x" 0)
                          (Demo.intTy 32)) Demo.definer)
           [] []); try by_evaluation.
  eexists _, _. split; by_evaluation.
Defined.

(** C5.  The code misses the check of [addDefinition] on the file that uses
    [%x#1] with type [i32], defines [%x] in the region of an operation, and
    then defines [%x:2] with the types [i32, i16] in the scope of the use:
    [popSSANameScope] erases the whole entry of [%x] at the end of the
    region, the binding of [%x#1] to its placeholder with it, which the
    region never made; the definition of [%x#1] with [i16] is then accepted
    with no type-mismatch error and no note, and the file is rejected at
    [finalize] for an undeclared value. *)
Theorem nested_definition_hides_forward_use :
  let used := Demo.operations 1 Demo.nestedDefinition in
  let defined := Demo.operations 3 Demo.nestedDefinition in
  (* [%x#1] is used with type [i32] at 8 *)
  boundTo used "%x" 1 (OpResult 1 0) 8%Z ∧
  getType (ir used) (OpResult 1 0) = Some (Demo.intTy 32) ∧
  (* and defined with type [i16] at 88, with no error *)
  (parseOperation Demo.env 64 (Demo.operations 2 Demo.nestedDefinition)).1 = Success () ∧
  boundTo defined "%x" 1 (OpResult 5 1) 88%Z ∧
  getType (ir defined) (OpResult 5 1) = Some (Demo.intTy 16) ∧
  diagnostics (state defined) = [] ∧
  (* the file is rejected for another reason *)
  Demo.outcomeOf Demo.nestedDefinition = Failure ∧
  Demo.diagsOf Demo.nestedDefinition = [undeclaredValueError 8%Z].
Proof.
  cbv zeta. split_and!; try by_evaluation.
  - eexists _, _, _. split_and!; by_evaluation.
  - eexists _, _, _. split_and!; by_evaluation.
Qed.

(** C6, as amended, on [%r:3 = "op"() : () -> (i32)], 3 declared and 1
    produced, and on [%a, %b:2 = "op"() : () -> (i32)]. *)
Lemma parseOperation_result_count_mismatch_witness :
  ((parseOperation Demo.env 64 (Demo.start Demo.tooManyNames)).1 = Failure ∧
   diagnostics (state (Demo.after (parseOperation Demo.env 64)
                         (Demo.start Demo.tooManyNames)))
     = [resultCountError 0%Z 1 3%Z])
  ∧ ((parseOperation Demo.env 64 (Demo.start Demo.twoGroups)).1 = Failure ∧
     diagnostics (state (Demo.after (parseOperation Demo.env 64)
                           (Demo.start Demo.twoGroups)))
       = [resultCountError 0%Z 1 3%Z]).
Proof.
  split.
  - unfold Demo.after.
    rewrite (parseOperation_result_count_mismatch Demo.env 63
               (Demo.start Demo.tooManyNames)
               (Demo.tk Token.percent_identifier "%r" 0,
                Some (Demo.tk Token.colon ":" 3, Demo.tk Token.integer "3" 5))
               [] (Demo.tk Token.equal "=" 7)
               (drop 3 (lexRest (state (Demo.start Demo.tooManyNames))))
               1
               (Demo.after
                  (parseOperationBody Demo.env 63 (parseOperation Demo.env 63)
                     [("%r", 3%Z, 0%Z)])
                  (Demo.after (liftP (parseResultList Demo.env 63))
                     (Demo.start Demo.tooManyNames)))
               1).
    + split; by_evaluation.
    + by_evaluation.
    + repeat split; by_evaluation.
    + constructor.
    + by_evaluation.
    + simpl. lia.
    + by_evaluation.
    + by_evaluation.
    + by_evaluation.
    + by_evaluation.
    + by_evaluation.
    + by_evaluation.
  - unfold Demo.after.
    rewrite (parseOperation_result_count_mismatch Demo.env 63
               (Demo.start Demo.twoGroups)
               (Demo.tk Token.percent_identifier "%a" 0, None)
               [(Demo.tk Token.comma "," 3,
                 (Demo.tk Token.percent_identifier "%b" 5,
                  Some (Demo.tk Token.colon ":" 8,
                        Demo.tk Token.integer "2" 10)))]
               (Demo.tk Token.equal "=" 12)
               (drop 5 (lexRest (state (Demo.start Demo.twoGroups))))
               1
               (Demo.after
                  (parseOperationBody Demo.env 63 (parseOperation Demo.env 63)
                     [("%a", 1%Z, 0%Z); ("%b", 2%Z, 5%Z)])
                  (Demo.after (liftP (parseResultList Demo.env 63))
                     (Demo.start Demo.twoGroups)))
               1).
    + split; by_evaluation.
    + by_evaluation.
    + repeat split; by_evaluation.
    + repeat constructor; by_evaluation.
    + by_evaluation.
    + simpl. lia.
    + by_evaluation.
    + by_evaluation.
    + by_evaluation.
    + by_evaluation.
    + by_evaluation.
    + by_evaluation.
Defined.

(** Why the sum of the declared sizes is taken below [2^64]: in
    [%a:9223372036854775808, %b:9223372036854775808, %c = "op"() : () -> (i32)]
    the declared sizes add up to [2^64 + 1], the sum kept in [size_t] is 1,
    and the operation with its one result is accepted; the groups of [%a] and
    [%b] are kept with the size 0 of an [unsigned]. *)
Lemma declared_sizes_wrap_around :
  let p := Demo.start Demo.wrappedSizes in
  let first : ResultEntry :=
    (Demo.tk Token.percent_identifier "%a" 0,
     Some (Demo.tk Token.colon ":" 3,
           Demo.tk Token.integer "9223372036854775808" 5)) in
  let more : list (Token.t * ResultEntry) :=
    [(Demo.tk Token.comma "," 25,
      (Demo.tk Token.percent_identifier "%b" 27,
       Some (Demo.tk Token.colon ":" 30,
             Demo.tk Token.integer "9223372036854775808" 32)));
     (Demo.tk Token.comma "," 52,
      (Demo.tk Token.percent_identifier "%c" 54, None))] in
  take 9 (curToken (state p) :: lexRest (state p))
    = resultListTokens first more ∧
  declaredResults Demo.env first more = (2 ^ 64 + 1)%Z ∧
  (liftP (parseResultList Demo.env 63) p).1
    = Success ([("%a", 0%Z, 0%Z); ("%b", 0%Z, 27%Z); ("%c", 1%Z, 54%Z)], 1%Z) ∧
  (parseOperation Demo.env 64 p).1 = Success () ∧
  diagnostics (state (Demo.after (parseOperation Demo.env 64) p)) = [] ∧
  boundTo (Demo.after (parseOperation Demo.env 64) p) "%c" 0 (OpResult 1 0)
    54%Z.
Proof.
  cbv zeta. split_and!; try by_evaluation.
  eexists _, _, _. split_and!; by_evaluation.
Qed.

(** C6 fails on [%r = "op"() : () -> ()]: one result is declared, none is
    produced, and the error states neither number. *)
Lemma no_results_is_another_error :
  let p := Demo.start Demo.nameWithoutResult in
  let p1 := Demo.after (liftP (parseResultList Demo.env 63)) p in
  let body := parseOperationBody Demo.env 63 (parseOperation Demo.env 63)
                [("%r", 1%Z, 0%Z)] p1 in
  (* one result is declared, and the operation has none *)
  liftP (parseResultList Demo.env 63) p = (Success ([("%r", 1%Z, 0%Z)], 1%Z), p1) ∧
  body.1 = Success 1 ∧
  getNumResults (ir body.2) 1 = Some 0 ∧
  (* the error does not state the numbers *)
  (parseOperation Demo.env 64 p).1 = Failure ∧
  diagnostics (state (Demo.after (parseOperation Demo.env 64) p))
    = [noResultsError 0%Z] ∧
  Demo.diagsOf Demo.nameWithoutResult = [noResultsError 0%Z].
Proof. cbv zeta. split_and!; by_evaluation. Qed.

(** C10 on [%r:0 = "op"() : () -> i32] and on [%r = "op"() : () -> ()]. *)
Lemma parseOperation_result_sizes_witness :
  ((parseNextResult Demo.env
      (([], 0%Z), state (Demo.start Demo.zeroSize))).1 = Failure ∧
   diagnostics (parseNextResult Demo.env
                  (([], 0%Z), state (Demo.start Demo.zeroSize))).2.2
     = [atLeastOneResultError 5%Z])
  ∧ ((parseOperation Demo.env 64 (Demo.start Demo.nameWithoutResult)).1 = Failure ∧
     diagnostics (state (Demo.after (parseOperation Demo.env 64)
                           (Demo.start Demo.nameWithoutResult)))
       = [noResultsError 0%Z]).
Proof.
  split.
  - rewrite (proj1 (parseOperation_result_sizes Demo.env) ([], 0%Z)
               (state (Demo.start Demo.zeroSize))
               (Demo.tk Token.colon ":" 3) (Demo.tk Token.integer "0" 5)
               (drop 3 (Demo.located 0 Demo.zeroSize))); try by_evaluation.
    intros v Hv. vm_compute in Hv. by injection Hv as <-.
  - unfold Demo.after.
    rewrite (proj2 (parseOperation_result_sizes Demo.env) 63
               (Demo.start Demo.nameWithoutResult)
               (Demo.after (liftP (parseResultList Demo.env 63))
                  (Demo.start Demo.nameWithoutResult))
               (Demo.after
                  (parseOperationBody Demo.env 63 (parseOperation Demo.env 63)
                     [("%r", 1%Z, 0%Z)])
                  (Demo.after (liftP (parseResultList Demo.env 63))
                     (Demo.start Demo.nameWithoutResult)))
               [("%r", 1%Z, 0%Z)] 1%Z 1); by_evaluation.
Defined.

(** C7, as amended, on [() [^bb1] : () -> ()] after the names ["test.op"],
    which is registered and no terminator, and ["cf.br"], which is not
    registered: the block of [^bb1] becomes the one successor. *)
Lemma generic_successors_require_terminator_witness :
  let run n :=
    parseGenericOperationAfterOpName Demo.env 63 (parseOperation Demo.env 63)
      None None None None None None (Demo.named n, Demo.start Demo.afterName) in
  let p1 := (parseGenericOperands Demo.env 63 None
               (Demo.named "cf.br", Demo.start Demo.afterName)).2.2 in
  ((run "test.op").1 = Failure ∧
   diagnostics (state (run "test.op").2.2)
     = [plainError "successors in non-terminator" 4%Z])
  ∧ run "cf.br" =
      parseGenericRemainder Demo.env 63 (parseOperation Demo.env 63) []
        None None None None
        (mkOperationState (FileLineColLoc 0%Z) "cf.br" [] [] [2] [] [] None,
         Demo.after (parseSuccessors 63) p1).
Proof.
  cbv zeta. split.
  - rewrite (proj1 (generic_successors_require_terminator Demo.env 63
                      (parseOperation Demo.env 63) None None None None None
                      (Demo.named "test.op") (Demo.start Demo.afterName) []
                      (Demo.named "test.op")
                      (parseGenericOperands Demo.env 63 None
                         (Demo.named "test.op", Demo.start Demo.afterName)).2.2
                      ltac:(by_evaluation) ltac:(by_evaluation))
               ltac:(by_evaluation)).
    by_evaluation.
  - apply (proj2 (generic_successors_require_terminator Demo.env 63
                    (parseOperation Demo.env 63) None None None None None
                    (Demo.named "cf.br") (Demo.start Demo.afterName) []
                    (Demo.named "cf.br")
                    (parseGenericOperands Demo.env 63 None
                       (Demo.named "cf.br", Demo.start Demo.afterName)).2.2
                    ltac:(by_evaluation) ltac:(by_evaluation))
             ltac:(by_evaluation)).
    by_evaluation.
Defined.

(** C7 fails on
    ["r"() ({ "cf.br"()[^bb1] : () -> ()  ^bb1: "x"() : () -> () }) : () -> ()]:
    ["cf.br"] is not registered, so it is not known to be a terminator, and
    its successor list is accepted: the file parses with no diagnostic, and
    the operation has the block of [^bb1] as its successor. *)
Lemma successors_of_unregistered_operation :
  let g := (Demo.run Demo.branchInRegion).2 in
  isRegistered Demo.env "cf.br" = false ∧
  Demo.outcomeOf Demo.branchInRegion = Success () ∧
  Demo.diagsOf Demo.branchInRegion = [] ∧
  (* the operation ["cf.br"] and its successor *)
  op_name <$> ir_ops g !! 1 = Some "cf.br" ∧
  op_successors <$> ir_ops g !! 1 = Some [3] ∧
  (* the block of [^bb1] is the second block of the region, with ["x"] *)
  ir_regions g !! 1 = Some [2; 3] ∧
  blk_operations <$> ir_blocks g !! 3 = Some [2] ∧
  op_name <$> ir_ops g !! 2 = Some "x".
Proof. cbv zeta. split_and!; by_evaluation. Qed.



(** * More properties of the code *)

(** ** Where a missing token is reported *)

Lemma dropWhile_suffix {A} (p : A → bool) (l : list A) :
  ∃ k, dropWhile p l = drop k l.
Proof.
  induction l as [|a l [k IH]]; simpl; [by exists 0|].
  destruct (p a); [by exists (S k)|by exists 0].
Qed.

Lemma dropWhile_head {A} (p : A → bool) (l : list A) a l' :
  dropWhile p l = a :: l' → p a = false.
Proof.
  induction l as [|b l IH]; simpl; [done|].
  destruct (p b) eqn:Hb; [done|]. by intros [= -> _].
Qed.

Lemma rtrim_prefix p s : ∃ k, k ≤ length s ∧ rtrim p s = take k s.
Proof.
  unfold rtrim. destruct (dropWhile_suffix p (rev s)) as [k ->].
  exists (length s - k). split; [lia|].
  by rewrite skipn_rev, rev_involutive.
Qed.

Lemma last_rev {A} (l : list A) : last (rev l) = head l.
Proof. destruct l as [|a l]; [done|]. simpl. by rewrite last_snoc. Qed.

Lemma rtrim_last p s c : last (rtrim p s) = Some c → p c = false.
Proof.
  unfold rtrim. rewrite last_rev. intros H.
  destruct (dropWhile p (rev s)) as [|a l'] eqn:Hd; [done|].
  simpl in H. injection H as ->. by eapply dropWhile_head.
Qed.

(** The loop of [emitWrongTokenError] ends within its budget: at the
    original location, or right after a character before the token that is
    neither blank nor a line break. *)
Lemma backUpLoc_ends fuel bufferStart originalLoc : ∀ s,
  length s < fuel →
  ∃ l, backUpLoc fuel bufferStart originalLoc s = Some l ∧
       (l = originalLoc
        ∨ ∃ k c, l = (bufferStart + Z.of_nat (S k))%Z ∧ s !! k = Some c ∧
                 isBlank c = false ∧ isNewline c = false).
Proof.
  induction fuel as [|fuel IH]; intros s Hlen; [lia|]. simpl.
  destruct (rtrim_prefix isBlank s) as (k & Hk & Htrim).
  destruct (last (rtrim isBlank s)) as [c|] eqn:Hlast; [|by eauto].
  pose proof (rtrim_last _ _ _ Hlast) as Hblank.
  rewrite Htrim in Hlast |- *.
  assert (length (take k s) = k) as Hlk by (rewrite length_take; lia).
  rewrite last_lookup, Hlk in Hlast.
  destruct k as [|k]; [done|]. simpl in Hlast.
  rewrite lookup_take_lt in Hlast by lia.
  destruct (isNewline c) eqn:Hnl; simpl.
  - (* a line break: the loop goes on with a shorter prefix *)
    set (s1 := drop_back 1 (take (S k) s)).
    assert (s1 = take k s) as Hs1.
    { unfold s1, drop_back. rewrite Hlk, take_take. f_equal. lia. }
    set (prevLine := match find_last_of isNewline s1 with
                     | Some i => drop i s1 | None => s1 end).
    set (s2 := match findComment prevLine with
               | Some commentStart =>
                   drop_back (length prevLine - commentStart) s1
               | None => s1 end).
    assert (∃ j, j ≤ k ∧ s2 = take j s) as (j & Hj & Hs2).
    { unfold s2. destruct (findComment prevLine) as [cs|]; [|by exists k].
      unfold drop_back. rewrite Hs1, take_take. eexists. split; [|done]. lia. }
    destruct (IH s2) as (l & Hl & Hwhere).
    { rewrite Hs2, length_take. lia. }
    exists l. split; [done|].
    destruct Hwhere as [->|(i & c' & -> & Hi & Hc')]; [by left|right].
    exists i, c'. split; [done|]. split; [|done].
    rewrite Hs2 in Hi. apply lookup_take_Some in Hi. by destruct Hi.
  - eexists. split; [done|]. right. exists k, c.
    split; [by rewrite Hlk|]. done.
Qed.

(** *** What the error functions do to the parser state *)

Lemma emitErrorAt_run {A} l args notes st :
  emitErrorAt (A:=A) l args notes st =
    (Failure,
     reported (mkDiagnostic (getEncodedSourceLocation l) args notes) st).
Proof.
  unfold emitErrorAt, reported, bind, getToken, gets, ret, reportDiagnostic,
    modify, failure.
  by destruct (Token.is_ (curToken st) Token.error).
Qed.

Lemma emitError_run {A} args st :
  emitError (A:=A) args st =
    (Failure,
     reported (mkDiagnostic (getEncodedSourceLocation (errorLoc st)) args []) st).
Proof.
  unfold emitError, errorLoc, bind, getToken, gets, Token.isNot.
  destruct (Token.is_ (curToken st) Token.eof); simpl; apply emitErrorAt_run.
Qed.

Lemma emitWrongTokenError_unfold {A} message st :
  emitWrongTokenError (A:=A) message st =
    if Token.is_ (curToken st) Token.eof
       && bool_decide (errorLoc st < bufferBegin st)%Z
    then (Undefined, st)
    else
      let s := take (Z.to_nat (errorLoc st - bufferBegin st)) (bufferText st) in
      bind (deref (backUpLoc (S (length s)) (bufferBegin st) (errorLoc st) s))
        (λ l, emitErrorAt l [ArgString message] []) st.
Proof.
  unfold emitWrongTokenError, errorLoc.
  unfold bind at 1, get at 1. unfold bind at 1.
  by destruct (Token.is_ (curToken st) Token.eof
               && bool_decide (_ < bufferBegin st)%Z).
Qed.

Lemma stepsBackInBuffer_guard st :
  stepsBackInBuffer st →
  Token.is_ (curToken st) Token.eof
    && bool_decide (errorLoc st < bufferBegin st)%Z = false.
Proof.
  intros Hin. unfold Token.is_. case_bool_decide as Heof; [|done]. simpl.
  apply bool_decide_eq_false_2. specialize (Hin Heof). lia.
Qed.

Lemma not_stepsBackInBuffer_guard st :
  ¬ stepsBackInBuffer st →
  Token.is_ (curToken st) Token.eof
    && bool_decide (errorLoc st < bufferBegin st)%Z = true.
Proof.
  intros Hout. unfold Token.is_.
  destruct (decide (Token.kind (curToken st) = Token.eof)) as [Heof|Hne].
  - rewrite bool_decide_eq_true_2 by done. simpl.
    apply bool_decide_eq_true_2.
    destruct (decide (errorLoc st < bufferBegin st)%Z) as [|Hge]; [done|].
    exfalso. apply Hout. intros _. lia.
  - exfalso. apply Hout. by intros ?.
Qed.

Lemma not_eof_stepsBackInBuffer st :
  Token.kind (curToken st) ≠ Token.eof → stepsBackInBuffer st.
Proof. by intros Hne ?. Qed.

Lemma emitWrongTokenError_run {A} message st :
  stepsBackInBuffer st →
  ∃ l, emitWrongTokenError (A:=A) message st =
         (Failure, reported (plainError message l) st)
       ∧ wrongTokenLoc st l.
Proof.
  intros Hin.
  set (s := take (Z.to_nat (errorLoc st - bufferBegin st)) (bufferText st)).
  destruct (backUpLoc_ends (S (length s)) (bufferBegin st) (errorLoc st) s)
    as (l & Hl & Hwhere); [lia|].
  exists l. split.
  - rewrite emitWrongTokenError_unfold, stepsBackInBuffer_guard by done.
    cbv zeta. fold s. rewrite Hl. apply emitErrorAt_run.
  - destruct Hwhere as [->|(k & c & -> & Hk & Hc)]; [by left|right].
    exists k, c. split; [done|].
    apply lookup_take_Some in Hk as [Hk Hlt]. split; [done|]. split; [lia|done].
Qed.

Lemma emitWrongTokenError_outside {A} message st :
  ¬ stepsBackInBuffer st →
  emitWrongTokenError (A:=A) message st = (Undefined, st).
Proof.
  intros Hout.
  by rewrite emitWrongTokenError_unfold, not_stepsBackInBuffer_guard.
Qed.

(** X1. [emitWrongTokenError] never succeeds.  Where the step back at the end
    of the file stays in the buffer (and at every token that is not the end
    of the file) it fails, and it reports its message unless the current
    token is an error of the lexer; the location of the report is the
    original one (the current token, one character back at the end of the
    file) or the position just after a character of the buffer before it that
    is neither a blank nor a newline: the error is never moved forward.  At
    the end of an empty buffer the step back leaves the buffer and the
    behaviour is undefined. *)
Theorem emitWrongTokenError_location {A} message st :
  (stepsBackInBuffer st →
   ∃ l, emitWrongTokenError (A:=A) message st =
          (Failure, reported (plainError message l) st)
        ∧ wrongTokenLoc st l
        ∧ (l ≤ errorLoc st)%Z)
  ∧ (¬ stepsBackInBuffer st →
     emitWrongTokenError (A:=A) message st = (Undefined, st)).
Proof.
  split; [|apply emitWrongTokenError_outside].
  intros Hin.
  destruct (emitWrongTokenError_run (A:=A) message st Hin) as (l & Hrun & Hl).
  exists l. split; [done|]. split; [done|].
  destruct Hl as [->|(k & c & -> & _ & Hlt & _)]; lia.
Qed.

Lemma parseToken_wrong k message st :
  Token.kind (curToken st) ≠ k →
  stepsBackInBuffer st →
  ∃ l, parseToken k message st = (Failure, reported (plainError message l) st)
       ∧ wrongTokenLoc st l.
Proof.
  intros Hk Hin. unfold parseToken.
  rewrite (bind_Success _ _ _ _ _ (consumeIf_false _ _ Hk)).
  by apply emitWrongTokenError_run.
Qed.

Lemma parseToken_outside k message st :
  Token.kind (curToken st) ≠ k →
  ¬ stepsBackInBuffer st →
  parseToken k message st = (Undefined, st).
Proof.
  intros Hk Hout. unfold parseToken.
  rewrite (bind_Success _ _ _ _ _ (consumeIf_false _ _ Hk)).
  by apply emitWrongTokenError_outside.
Qed.

(** X2. [parseToken] for a kind that is neither the end of the file nor an
    error: a current token of that kind is consumed and nothing else changes;
    at any other token the call consumes nothing, and, where the step back
    of [emitWrongTokenError] stays in the buffer, fails and reports the
    message where [emitWrongTokenError] puts it; at the end of an empty
    buffer the behaviour is undefined. *)
Theorem parseToken_behaviour k message st :
  k ≠ Token.eof → k ≠ Token.error →
  (Token.kind (curToken st) = k →
   parseToken k message st = (Success (), advance st))
  ∧ (Token.kind (curToken st) ≠ k →
     stepsBackInBuffer st →
     ∃ l, parseToken k message st =
            (Failure, reported (plainError message l) st)
          ∧ wrongTokenLoc st l)
  ∧ (Token.kind (curToken st) ≠ k →
     ¬ stepsBackInBuffer st →
     parseToken k message st = (Undefined, st)).
Proof.
  intros Heof Herr. split_and!.
  - intros Hk. by apply parseToken_ok.
  - apply parseToken_wrong.
  - apply parseToken_outside.
Qed.

(** X3. While the current token is an error of the lexer, the error functions
    of the parser report nothing: [emitError] (with or without a location),
    [emitWrongTokenError] and a failing [parseToken] fail with the state as it
    was, and [reportErrorAt] changes nothing. *)
Theorem no_diagnostic_after_lexer_error st :
  Token.kind (curToken st) = Token.error →
  (∀ A l args notes, emitErrorAt (A:=A) l args notes st = (Failure, st))
  ∧ (∀ A args, emitError (A:=A) args st = (Failure, st))
  ∧ (∀ A message, emitWrongTokenError (A:=A) message st = (Failure, st))
  ∧ (∀ k message, k ≠ Token.error → parseToken k message st = (Failure, st))
  ∧ (∀ l args notes, reportErrorAt l args notes st = (Success (), st)).
Proof.
  intros Herr.
  assert (∀ d, reported d st = st) as Hrep.
  { intros d. unfold reported, Token.is_.
    by rewrite bool_decide_eq_true_2. }
  split_and!.
  - intros. by rewrite emitErrorAt_run, Hrep.
  - intros. by rewrite emitError_run, Hrep.
  - intros A message.
    destruct (emitWrongTokenError_run (A:=A) message st) as (l & -> & _);
      [apply not_eof_stepsBackInBuffer; by rewrite Herr|].
    by rewrite Hrep.
  - intros k message Hk. unfold parseToken.
    rewrite (bind_Success _ _ _ false st).
    + destruct (emitWrongTokenError_run (A:=()) message st) as (l & -> & _);
        [apply not_eof_stepsBackInBuffer; by rewrite Herr|].
      by rewrite Hrep.
    + apply consumeIf_false. by rewrite Herr.
  - intros. unfold reportErrorAt, bind, getToken, gets, Token.is_.
    by rewrite bool_decide_eq_true_2.
Qed.

(** ** Comma separated lists *)

Section Lists.
Context {St : Type} (lift : ∀ A, P A → StateM St A)
  (proj : St → ParserState) (inj : ParserState → St → St).
Context (Hlift : liftsBy lift proj inj).

Lemma lift_run {A} (m : P A) s :
  lift A m s = let '(r, st) := m (proj s) in (r, inj st s).
Proof. destruct Hlift as (H & _). by rewrite H. Qed.

Lemma lift_getToken s : lift _ getToken s = (Success (curToken (proj s)), s).
Proof.
  rewrite lift_run. unfold getToken, gets.
  destruct Hlift as (_ & H & _). by rewrite H.
Qed.

Lemma lift_consumeIf_false k s :
  Token.kind (curToken (proj s)) ≠ k → lift _ (consumeIf k) s = (Success false, s).
Proof.
  intros Hk. rewrite lift_run, consumeIf_false by done.
  destruct Hlift as (_ & H & _). by rewrite H.
Qed.

Lemma lift_consumeIf_true k s :
  Token.kind (curToken (proj s)) = k → k ≠ Token.eof → k ≠ Token.error →
  lift _ (consumeIf k) s = (Success true, inj (advance (proj s)) s).
Proof. intros Hk H1 H2. by rewrite lift_run, consumeIf_true. Qed.

Lemma opening_not_end d l : opening d = Some l → l ≠ Token.eof ∧ l ≠ Token.error.
Proof. by destruct d; intros [= <-]. Qed.

Lemma closing_not_end d r : closing d = Some r → r ≠ Token.eof ∧ r ≠ Token.error.
Proof. by destruct d; intros [= <-]. Qed.

(** X4. [parseCommaSeparatedList] with an optional delimiter, at a token that
    is not the opening one: success, nothing is consumed and the element
    parser is not run. *)
Theorem absent_optional_list fuel d l parseElementFn contextMessage s :
  isOptional d = true → opening d = Some l →
  Token.kind (curToken (proj s)) ≠ l →
  parseCommaSeparatedList lift fuel d parseElementFn contextMessage s
    = (Success (), s).
Proof.
  intros Hopt Hl Hk.
  unfold parseCommaSeparatedList, parseListOpening.
  destruct d; try done; simpl in Hl; injection Hl as <-;
    rewrite (bind_Success _ _ s false s); try done;
    rewrite (bind_Success _ _ _ _ _ (lift_getToken s));
    unfold Token.isNot, Token.is_;
    by rewrite bool_decide_eq_false_2.
Qed.

Lemma attempt_Success {T A} (m : StateM T A) s a s' :
  m s = (Success a, s') → attempt m s = (Success (Some a), s').
Proof. unfold attempt. by intros ->. Qed.

Lemma attempt_Failure {T A} (m : StateM T A) s s' :
  m s = (Failure, s') → attempt m s = (Success None, s').
Proof. unfold attempt. by intros ->. Qed.

Lemma attempt_Undefined {T A} (m : StateM T A) s s' :
  m s = (Undefined, s') → attempt m s = (Undefined, s').
Proof. unfold attempt. by intros ->. Qed.

Lemma bind_Undefined {T A B} (m : StateM T A) (k : A → StateM T B) s s' :
  m s = (Undefined, s') → bind m k s = (Undefined, s').
Proof. unfold bind. by intros ->. Qed.

(** X5. [parseCommaSeparatedList] on an empty list: when the opening token is
    followed at once by the closing one, both are consumed and the call
    succeeds without running the element parser. *)
Theorem empty_delimited_list fuel d l r parseElementFn contextMessage s t rest :
  opening d = Some l → closing d = Some r →
  Token.kind (curToken (proj s)) = l →
  lexRest (proj s) = t :: rest → Token.kind t = r →
  parseCommaSeparatedList lift fuel d parseElementFn contextMessage s
    = (Success (), inj (advance (advance (proj s))) s).
Proof.
  intros Hl Hr Hk Hrest Ht.
  destruct (opening_not_end _ _ Hl) as [Hl1 Hl2].
  destruct (closing_not_end _ _ Hr) as [Hr1 Hr2].
  destruct Hlift as (_ & _ & Hpg & Hpp).
  unfold parseCommaSeparatedList, parseListOpening.
  destruct d; simpl in Hl, Hr; try done;
    injection Hl as <-; injection Hr as <-; cbv zeta;
    (erewrite bind_Success;
       [|rewrite (bind_Success _ _ _ _ _ (lift_getToken s));
         unfold Token.isNot, Token.is_; rewrite bool_decide_eq_true_2 by done;
         rewrite ?andb_false_r; simpl;
         (erewrite bind_Success;
            [|apply attempt_Success; rewrite lift_run, parseToken_ok by done;
              done]);
         cbv beta iota;
         (erewrite bind_Success;
            [|apply lift_consumeIf_true;
              [rewrite Hpg; by erewrite curToken_advance|done..]]);
         by rewrite Hpg, Hpp]);
    done.
Qed.

(** X6. [parseCommaSeparatedList] with a delimiter that is not optional, at a
    token that is not the opening one.  Where the step back of
    [emitWrongTokenError] stays in the buffer (any token but the end of an
    empty buffer) the missing token is reported with the message of the
    delimiter followed by the context message, nothing is consumed, and the
    call fails; except for [LessGreater], where the call returns success
    after the report.  At the end of an empty buffer the behaviour is
    undefined. *)
Theorem missing_opening_delimiter fuel d l parseElementFn contextMessage s :
  isOptional d = false → opening d = Some l →
  Token.kind (curToken (proj s)) ≠ l →
  (stepsBackInBuffer (proj s) →
   ∃ loc,
     parseCommaSeparatedList lift fuel d parseElementFn contextMessage s
       = (missingOpeningOutcome d,
          inj (reported (plainError (openingMessage d ++ contextMessage) loc)
                 (proj s)) s)
     ∧ wrongTokenLoc (proj s) loc)
  ∧ (¬ stepsBackInBuffer (proj s) →
     parseCommaSeparatedList lift fuel d parseElementFn contextMessage s
       = (Undefined, inj (proj s) s)).
Proof.
  intros Hopt Hl Hk. split; cycle 1.
  { intros Hout.
    pose proof (parseToken_outside l (openingMessage d ++ contextMessage)
                  (proj s) Hk Hout) as Hrun.
    unfold parseCommaSeparatedList, parseListOpening.
    destruct d; simpl in Hl, Hopt; try done; injection Hl as <-; simpl;
      (apply bind_Undefined;
       rewrite (bind_Success _ _ _ _ _ (lift_getToken s)); simpl;
       apply bind_Undefined, attempt_Undefined;
       rewrite lift_run; simpl in Hrun; by rewrite Hrun). }
  intros Hin.
  destruct (parseToken_wrong l (openingMessage d ++ contextMessage)
              (proj s) Hk Hin) as (loc & Hrun & Hloc).
  exists loc. split; [|done].
  unfold parseCommaSeparatedList, parseListOpening.
  destruct d; simpl in Hl, Hopt; try done; injection Hl as <-; simpl.
  - erewrite bind_Failure; [reflexivity|].
    rewrite (bind_Success _ _ _ _ _ (lift_getToken s)). simpl.
    erewrite bind_Success; cycle 1.
    { apply attempt_Failure. rewrite lift_run. simpl in Hrun. by rewrite Hrun. }
    done.
  - erewrite bind_Failure; [reflexivity|].
    rewrite (bind_Success _ _ _ _ _ (lift_getToken s)). simpl.
    erewrite bind_Success; cycle 1.
    { apply attempt_Failure. rewrite lift_run. simpl in Hrun. by rewrite Hrun. }
    done.
  - erewrite bind_Success; cycle 1.
    { rewrite (bind_Success _ _ _ _ _ (lift_getToken s)). simpl.
      erewrite bind_Success; cycle 1.
      { apply attempt_Failure. rewrite lift_run. simpl in Hrun. by rewrite Hrun. }
      done. }
    done.
  - erewrite bind_Failure; [reflexivity|].
    rewrite (bind_Success _ _ _ _ _ (lift_getToken s)). simpl.
    erewrite bind_Success; cycle 1.
    { apply attempt_Failure. rewrite lift_run. simpl in Hrun. by rewrite Hrun. }
    done.
Qed.

Lemma listUntil_rejects_empty fuel rightToken parseElement s :
  Token.kind (curToken (proj s)) = rightToken →
  rightToken ≠ Token.eof →
  ∃ loc,
    parseCommaSeparatedListUntil lift fuel rightToken parseElement false s
      = (Failure,
         inj (reported (plainError "expected list element" loc) (proj s)) s)
    ∧ wrongTokenLoc (proj s) loc.
Proof.
  intros Hk Hne. unfold parseCommaSeparatedListUntil.
  destruct (emitWrongTokenError_run (A:=()) "expected list element" (proj s))
    as (loc & Hrun & Hloc);
    [apply not_eof_stepsBackInBuffer; by rewrite Hk|].
  exists loc. split; [|done].
  rewrite (bind_Success _ _ _ _ _ (lift_getToken s)).
  unfold Token.is_. rewrite bool_decide_eq_true_2 by done. simpl.
  by rewrite lift_run, Hrun.
Qed.

(** X7. [parseCommaSeparatedListUntil] at the right token: with
    [allowEmptyList] the token is consumed and the call succeeds; without, the
    call fails with "expected list element" and consumes nothing. *)
Theorem list_until_at_right_token fuel rightToken parseElement s :
  Token.kind (curToken (proj s)) = rightToken →
  rightToken ≠ Token.eof → rightToken ≠ Token.error →
  parseCommaSeparatedListUntil lift fuel rightToken parseElement true s
    = (Success (), inj (advance (proj s)) s)
  ∧ ∃ loc,
      parseCommaSeparatedListUntil lift fuel rightToken parseElement false s
        = (Failure,
           inj (reported (plainError "expected list element" loc) (proj s)) s)
      ∧ wrongTokenLoc (proj s) loc.
Proof.
  intros Hk H1 H2. split; [|by apply listUntil_rejects_empty].
  unfold parseCommaSeparatedListUntil.
  rewrite (bind_Success _ _ _ _ _ (lift_getToken s)).
  unfold Token.is_. rewrite bool_decide_eq_true_2 by done. simpl.
  by rewrite lift_run, consumeTokenOfKind_advance.
Qed.

End Lists.

(** The lifts the operation parser uses. *)
Lemma liftsBy_id : liftsBy (λ A (m : P A), m) id (λ st _, st).
Proof.
  split_and!; try done. intros A m s. unfold zoom, id. simpl.
  by destruct (m s).
Qed.

Lemma liftsBy_liftP : liftsBy (@liftP) state set_state.
Proof. split_and!; try done. intros s. by destruct s. Qed.

Lemma liftsBy_liftLocal {L} :
  liftsBy (λ A (m : P A), liftLocal (L:=L) m) snd (λ st ls, (ls.1, st)).
Proof. split_and!; try done. by intros []. Qed.

Lemma liftsBy_liftLocal_liftP {L} :
  liftsBy (λ A (m : P A), liftLocal (L:=L) (liftP m))
    (λ ls, state ls.2) (λ st ls, (ls.1, set_state st ls.2)).
Proof.
  split_and!.
  - intros A m [l p]. unfold liftLocal, liftP, zoom. simpl.
    by destruct (m (state p)).
  - intros [l p]. simpl. by rewrite set_state_id.
  - by intros st [l []].
  - by intros st1 st2 [l []].
Qed.

(** ** Successors *)

(** X8. [parseSuccessors] rejects [[]]: the left bracket is consumed, then
    "expected list element" is reported for the right bracket, which stays
    the current token, and the call fails. *)
Theorem empty_successor_list_rejected fuel p t rest :
  Token.kind (curToken (state p)) = Token.l_square →
  lexRest (state p) = t :: rest →
  Token.kind t = Token.r_square →
  ∃ loc,
    parseSuccessors fuel p
      = (Failure,
         set_state
           (reported (plainError "expected list element" loc)
              (advance (state p))) p)
    ∧ wrongTokenLoc (advance (state p)) loc.
Proof.
  intros Hk Hrest Ht. unfold parseSuccessors.
  erewrite bind_Success; cycle 1.
  { unfold liftP, zoom. rewrite parseToken_ok by done. done. }
  destruct (listUntil_rejects_empty _ _ _ liftsBy_liftLocal_liftP fuel
              Token.r_square
              (dest <- liftLocal parseSuccessor ;;
               destinations <- getLocal ;;
               setLocal (destinations ++ [dest]))
              ([], set_state (advance (state p)) p))
    as (loc & Hrun & Hloc).
  { simpl. by erewrite curToken_advance. }
  { done. }
  exists loc. split; [|done].
  erewrite bind_Failure; [done|].
  unfold runLocal. rewrite Hrun. simpl. by destruct p.
Qed.

(** ** SSA name scopes *)

Lemma setSSAValueEntry_run n E p :
  isolatedNameScopes p ≠ [] →
  setSSAValueEntry n E p = (Success (), setEntries n E p).
Proof.
  intros Hs. destruct p as [? ? [|scope rest] ? ? ? ? ? ? ?]; done.
Qed.

Lemma isolatedNameScopes_setEntries n E p :
  isolatedNameScopes p ≠ [] → isolatedNameScopes (setEntries n E p) ≠ [].
Proof.
  unfold setEntries. by destruct (isolatedNameScopes p) as [|scope rest].
Qed.

Lemma setEntries_setEntries n E1 E2 p :
  setEntries n E2 (setEntries n E1 p) = setEntries n E2 p.
Proof.
  unfold setEntries. destruct p as [? ? [|scope rest] ? ? ? ? ? ? ?]; simpl;
    [done|].
  by rewrite insert_insert_eq.
Qed.

Lemma entriesOf_setEntries n E p :
  isolatedNameScopes p ≠ [] → entriesOf n (setEntries n E p) = E.
Proof.
  unfold entriesOf, setEntries.
  destruct (isolatedNameScopes p) as [|scope rest]; [done|]. simpl.
  by rewrite lookup_insert_eq.
Qed.

Lemma getSSAValueEntry_run n p :
  isolatedNameScopes p ≠ [] →
  getSSAValueEntry n p
    = (Success (entriesOf n p), setEntries n (entriesOf n p) p).
Proof.
  intros Hs. destruct p as [? ? [|scope rest] ? ? ? ? ? ? ?]; done.
Qed.

Lemma recordDefinition_run n p :
  scopeOpen p → recordDefinition n p = (Success (), recorded n p).
Proof.
  intros (scope & rest & defs & drest & Hs & Hd).
  destruct p as [? ? ? ? ? ? ? ? ? ?]. simpl in *. subst.
  destruct scope as [vals ?]. simpl in *. by subst.
Qed.

Lemma scopeOpen_setEntries n E p : scopeOpen p → scopeOpen (setEntries n E p).
Proof.
  intros (scope & rest & defs & drest & Hs & Hd).
  unfold setEntries. rewrite Hs. destruct p. simpl in *. subst.
  by eexists _, _, _, _.
Qed.

Lemma scopeOpen_scopes p : scopeOpen p → isolatedNameScopes p ≠ [].
Proof. by intros (scope & rest & defs & drest & -> & _). Qed.

(** X9. [pushSSANameScope] followed at once by [popSSANameScope] leaves the
    parser as it was.  For a scope that is not isolated this needs the
    innermost isolated scope to have a current scope; an isolated scope can
    be pushed and popped in any state. *)
Theorem push_then_pop_scope isIsolated p :
  (isIsolated = false → scopeOpen p) →
  (pushSSANameScope isIsolated ;;; popSSANameScope) p = (Success (), p).
Proof.
  intros Hopen. destruct isIsolated.
  - by destruct p as [? ? ? ? ? ? ? ? ? ?].
  - destruct (Hopen eq_refl) as (scope & rest & defs & drest & Hs & Hd).
    destruct p as [? ? ? ? ? ? ? ? ? ?]. simpl in *. subst.
    destruct scope as [vals ?]. simpl in *. subst.
    unfold bind, pushSSANameScope, popSSANameScope, bind. simpl.
    rewrite bool_decide_eq_true_2 by done. simpl.
    by rewrite elements_empty.
Qed.

(** X10. [popSSANameScope] of a nested scope in which no block is left
    undefined: it succeeds; of the innermost isolated scope it erases exactly
    the names defined in the scope that is popped and keeps the entries of all
    other names; it drops the label scope and the forward-reference scope, and
    leaves the token state, the graph and the placeholders alone. *)
Theorem popSSANameScope_erases p scope rest defs outer drest frest m brest :
  forwardRef p = ∅ :: frest →
  isolatedNameScopes p = scope :: rest →
  definitionsPerScope scope = defs :: outer :: drest →
  blocksByName p = m :: brest →
  ∃ p' scope',
    popSSANameScope p = (Success (), p') ∧
    isolatedNameScopes p' = scope' :: rest ∧
    definitionsPerScope scope' = outer :: drest ∧
    (∀ n, values scope' !! n
          = if bool_decide (n ∈ defs) then None else values scope !! n) ∧
    forwardRef p' = frest ∧ blocksByName p' = brest ∧
    state p' = state p ∧ ir p' = ir p ∧
    forwardRefPlaceholders p' = forwardRefPlaceholders p.
Proof.
  intros Hf Hs Hd Hb.
  destruct p as [? ? ? ? ? ? ? ? ? ?]. simpl in *. subst.
  destruct scope as [vals ?]. simpl in *. subst.
  eexists _, _. split.
  { unfold popSSANameScope, bind. simpl.
    rewrite bool_decide_eq_true_2 by done. simpl.
    reflexivity. }
  simpl. split_and!; try done.
  intros n. case_bool_decide as Hn.
  - apply lookup_foldr_delete. by apply elem_of_elements.
  - apply lookup_foldr_delete_not_elem_of. by rewrite elem_of_elements.
Qed.

Lemma boundTo_setEntries n E p num v l :
  isolatedNameScopes p ≠ [] →
  E !! num = Some (mkValueDefinition (Some v) l) →
  boundTo (setEntries n E p) n num v l.
Proof.
  intros Hs HE. unfold setEntries.
  destruct p as [? ? [|scope rest] ? ? ? ? ? ? ?]; [done|]. simpl.
  eexists _, _, E. split_and!; [done| |done]. simpl. by rewrite lookup_insert_eq.
Qed.

Lemma boundTo_setEntries_frame n E p n' num' x l :
  boundTo p n' num' x l →
  (n' = n → E !! num' = Some (mkValueDefinition (Some x) l)) →
  boundTo (setEntries n E p) n' num' x l.
Proof.
  intros (scope & rest & entries & Hs & Hv & He) HE. unfold setEntries.
  rewrite Hs.
  destruct (lookup_entries_frame (values scope) n' num' _ entries n E Hv He HE)
    as (entries' & Hv' & He').
  destruct p. simpl in *. by eexists _, _, entries'.
Qed.

Lemma boundTo_recorded n p n' num' x l :
  boundTo p n' num' x l → boundTo (recorded n p) n' num' x l.
Proof.
  intros (scope & rest & entries & Hs & Hv & He). unfold recorded. rewrite Hs.
  destruct (definitionsPerScope scope) as [|defs drest];
    [by eexists _, _, _|].
  destruct p. simpl in *. by eexists _, _, entries.
Qed.

Lemma typeOf_run p v t : getType (ir p) v = Some t → typeOf v p = (Success t, p).
Proof. intros H. unfold typeOf, bind, get. by rewrite H. Qed.

(** X11. [addDefinition] of a name and result number that are bound to a value
    which is no forward-reference placeholder fails with "redefinition of SSA
    value '<name>'" at the new definition and the note "previously defined
    here" at the old one; nothing else changes.  (The current token is no
    error of the lexer, or nothing would be reported.) *)
Theorem addDefinition_redefinition p n num existing prevLoc defLoc value :
  boundTo p n num existing prevLoc →
  forwardRefPlaceholders p !! existing = None →
  notLexerError p →
  addDefinition (mkUnresolvedOperand defLoc n num) value p
    = (Failure, addDiagnostics [redefinitionError defLoc n prevLoc] p).
Proof.
  intros (scope & rest & entries & Hs & Hv & He) Hph Htok.
  unfold addDefinition. simpl.
  erewrite bind_Success; [|by eapply getSSAValueEntry_bound].
  rewrite bool_decide_eq_false_2 by (apply lookup_lt_Some in He; lia).
  erewrite bind_Success; [|by eapply setSSAValueEntry_id].
  rewrite He. simpl.
  erewrite bind_Success; [|done]. simpl.
  erewrite bind_Failure; [reflexivity|].
  erewrite bind_Success; [|done].
  unfold isForwardRefPlaceholder.
  rewrite bool_decide_eq_false_2 by (rewrite Hph; by intros [? ?]). simpl.
  by apply emitErrorAt_emits.
Qed.

(** X12. [addDefinition] of a name that is bound to a forward-reference
    placeholder of the type of the value: it succeeds, every use of the
    placeholder becomes a use of the value, the placeholder is no longer
    tracked, the name is bound to the value at the location of the
    definition, and the other bindings stay. *)
Theorem addDefinition_resolves_forward_use p n num existing useLoc t defLoc
    value :
  boundTo p n num existing useLoc →
  placeholderOfType p existing t →
  getType (ir p) value = Some t →
  scopeOpen p →
  ∃ p',
    addDefinition (mkUnresolvedOperand defLoc n num) value p = (Success (), p') ∧
    boundTo p' n num value defLoc ∧
    (∀ n' num' x l, boundTo p n' num' x l → (n', num') ≠ (n, num) →
                    boundTo p' n' num' x l) ∧
    forwardRefPlaceholders p' = delete existing (forwardRefPlaceholders p) ∧
    ir p' = replaceAllUsesWith existing value (ir p) ∧
    state p' = state p.
Proof.
  intros (scope & rest & entries & Hs & Hv & He) (Hph & Hty & _) Hval Hopen.
  pose proof (scopeOpen_scopes _ Hopen) as Hne.
  set (q := set_forwardRefPlaceholders
              (delete existing (forwardRefPlaceholders p))
              (set_ir (replaceAllUsesWith existing value (ir p)) p)).
  assert (Hq : scopeOpen q).
  { destruct Hopen as (s0 & r0 & d0 & dr0 & ? & ?). by exists s0, r0, d0, dr0. }
  pose proof (scopeOpen_scopes _ Hq) as Hqne.
  set (E := <[num := mkValueDefinition (Some value) defLoc]> entries).
  exists (recorded n (setEntries n E q)). split.
  { unfold addDefinition. simpl.
    erewrite bind_Success; [|by eapply getSSAValueEntry_bound].
    rewrite bool_decide_eq_false_2 by (apply lookup_lt_Some in He; lia).
    erewrite bind_Success; [|by eapply setSSAValueEntry_id].
    rewrite He. simpl.
    erewrite bind_Success; [|done]. simpl.
    erewrite (bind_Success _ _ p () q); cycle 1.
    { erewrite bind_Success; [|done].
      unfold isForwardRefPlaceholder. rewrite bool_decide_eq_true_2 by done.
      simpl.
      erewrite bind_Success; [|by apply typeOf_run].
      erewrite bind_Success; [|by apply typeOf_run].
      by rewrite bool_decide_eq_true_2. }
    erewrite bind_Success; [|by apply setSSAValueEntry_run].
    apply recordDefinition_run. by apply scopeOpen_setEntries. }
  assert (HE : E !! num = Some (mkValueDefinition (Some value) defLoc)).
  { unfold E. apply list_lookup_insert_eq. by apply lookup_lt_Some in He. }
  split_and!.
  - by apply boundTo_recorded, boundTo_setEntries.
  - intros n' num' x l (scope' & rest' & entries' & Hs' & Hv' & He') Hdiff.
    apply boundTo_recorded, boundTo_setEntries_frame.
    + by exists scope', rest', entries'.
    + intros ->. rewrite Hs in Hs'. simplify_eq. unfold E.
      rewrite list_lookup_insert_ne; [done|]. congruence.
  - unfold recorded, setEntries.
    destruct Hq as (s0 & r0 & d0 & dr0 & -> & Hd0). simpl. by rewrite Hd0.
  - unfold recorded, setEntries.
    destruct Hq as (s0 & r0 & d0 & dr0 & -> & Hd0). simpl. by rewrite Hd0.
  - unfold recorded, setEntries.
    destruct Hq as (s0 & r0 & d0 & dr0 & -> & Hd0). simpl. by rewrite Hd0.
Qed.

Lemma withSlot_unbound num E :
  (Z.of_nat num + 1 < 2 ^ 32)%Z →
  E !! num ≫= vd_value = None →
  ∃ e, withSlot num E !! num = Some e ∧ vd_value e = None.
Proof.
  intros Hnum Hun. unfold withSlot. case_bool_decide as Hlen.
  - exists (mkValueDefinition None nullLoc). split; [|done].
    unfold resizeEntries, wrap32. rewrite Z.mod_small by lia.
    apply lookup_resize_new; lia.
  - destruct (E !! num) as [e|] eqn:He.
    + exists e. by destruct e as [[x|] l].
    + apply lookup_ge_None in He. lia.
Qed.

Lemma withSlot_frame num E i :
  (Z.of_nat num + 1 < 2 ^ 32)%Z → i < length E →
  withSlot num E !! i = E !! i.
Proof.
  intros Hnum Hi. unfold withSlot. case_bool_decide as Hlen; [|done].
  apply lookup_resizeEntries_lt; [done|].
  unfold wrap32. rewrite Z.mod_small by lia. lia.
Qed.

Lemma length_withSlot num E :
  (Z.of_nat num + 1 < 2 ^ 32)%Z → num < length (withSlot num E).
Proof.
  intros Hnum. unfold withSlot. case_bool_decide as Hlen; [|lia].
  rewrite length_resizeEntries. unfold wrap32. rewrite Z.mod_small by lia. lia.
Qed.

Lemma unbound_entriesOf p n num :
  unbound p n num →
  isolatedNameScopes p ≠ [] ∧ entriesOf n p !! num ≫= vd_value = None.
Proof.
  intros (scope & rest & Hs & Hun). unfold entriesOf. rewrite Hs. simpl.
  split; [done|]. by destruct (values scope !! n).
Qed.

Lemma boundTo_entriesOf p n num v l :
  boundTo p n num v l →
  entriesOf n p !! num = Some (mkValueDefinition (Some v) l).
Proof.
  intros (scope & rest & entries & Hs & Hv & He). unfold entriesOf.
  rewrite Hs. simpl. by rewrite Hv.
Qed.

Lemma resolveSSAUse_known p n num v l useLoc t :
  boundTo p n num v l →
  getType (ir p) v = Some t →
  resolveSSAUse (mkUnresolvedOperand useLoc n num) t p = (Success v, p).
Proof.
  intros (scope & rest & entries & Hs & Hv & He) Hty.
  unfold resolveSSAUse. simpl.
  erewrite bind_Success; [|by eapply getSSAValueEntry_bound].
  rewrite He. simpl.
  erewrite bind_Success; [|by apply typeOf_run].
  by rewrite bool_decide_eq_true_2.
Qed.

(** X13. [resolveSSAUse] of a name that is bound to a value: with the type of
    the value it returns the value and changes nothing; with any other type it
    fails with "use of value '<name>' expects different type than prior uses:
    <type> vs <type of the value>" and the note "prior use here" at the
    location recorded with the binding (the current token being no error of
    the lexer). *)
Theorem resolveSSAUse_of_defined_value p n num v l tv useLoc :
  boundTo p n num v l →
  getType (ir p) v = Some tv →
  resolveSSAUse (mkUnresolvedOperand useLoc n num) tv p = (Success v, p) ∧
  (∀ t, t ≠ tv → notLexerError p →
     resolveSSAUse (mkUnresolvedOperand useLoc n num) t p
       = (Failure, addDiagnostics [useTypeError useLoc n t tv l] p)).
Proof.
  intros Hb Hty. split; [by eapply resolveSSAUse_known|].
  destruct Hb as (scope & rest & entries & Hs & Hv & He).
  intros t Hne Htok. unfold resolveSSAUse. simpl.
  erewrite bind_Success; [|by eapply getSSAValueEntry_bound].
  rewrite He. simpl.
  erewrite bind_Success; [|by apply typeOf_run].
  rewrite bool_decide_eq_false_2 by done.
  by apply emitErrorAt_emits.
Qed.

(** X14. A definition, then a use: [addDefinition] of a name and result number
    that hold no value yet succeeds in an open scope, binds them to the value
    and keeps all other bindings, the graph, the token state and the
    placeholders; a [resolveSSAUse] of that name with the type of the value
    then returns the value and changes nothing. *)
Theorem addDefinition_then_use p n num value t defLoc :
  unbound p n num →
  scopeOpen p →
  (Z.of_nat num + 1 < 2 ^ 32)%Z →
  getType (ir p) value = Some t →
  ∃ p',
    addDefinition (mkUnresolvedOperand defLoc n num) value p = (Success (), p') ∧
    boundTo p' n num value defLoc ∧
    (∀ n' num' x l, boundTo p n' num' x l → boundTo p' n' num' x l) ∧
    ir p' = ir p ∧ state p' = state p ∧
    forwardRefPlaceholders p' = forwardRefPlaceholders p ∧
    (∀ useLoc,
       resolveSSAUse (mkUnresolvedOperand useLoc n num) t p' = (Success value, p')).
Proof.
  intros Hun Hopen Hnum Hty.
  destruct (unbound_entriesOf _ _ _ Hun) as [Hne Hnone].
  destruct (withSlot_unbound num (entriesOf n p) Hnum Hnone) as (e & He & Hev).
  set (E1 := withSlot num (entriesOf n p)) in *.
  set (E := <[num := mkValueDefinition (Some value) defLoc]> E1).
  exists (recorded n (setEntries n E p)).
  assert (HE : E !! num = Some (mkValueDefinition (Some value) defLoc)).
  { unfold E. apply list_lookup_insert_eq. by apply lookup_lt_Some in He. }
  assert (Hb : boundTo (recorded n (setEntries n E p)) n num value defLoc)
    by by apply boundTo_recorded, boundTo_setEntries.
  assert (Hfields : ∀ q, scopeOpen q →
            ir (recorded n q) = ir q ∧ state (recorded n q) = state q ∧
            forwardRefPlaceholders (recorded n q) = forwardRefPlaceholders q).
  { intros q (s0 & r0 & d0 & dr0 & Hs0 & Hd0). unfold recorded.
    by rewrite Hs0, Hd0. }
  assert (Hfields' : ir (setEntries n E p) = ir p ∧
            state (setEntries n E p) = state p ∧
            forwardRefPlaceholders (setEntries n E p) = forwardRefPlaceholders p).
  { unfold setEntries. by destruct (isolatedNameScopes p). }
  destruct (Hfields (setEntries n E p)) as (Hi & Hst & Hfp);
    [by apply scopeOpen_setEntries|].
  destruct Hfields' as (Hi' & Hst' & Hfp').
  split_and!.
  - unfold addDefinition. simpl.
    erewrite bind_Success; [|by apply getSSAValueEntry_run].
    change (if bool_decide (length (entriesOf n p) ≤ num)
            then resizeEntries (Z.to_nat (wrap32 (Z.of_nat num + 1)))
                   (entriesOf n p)
            else entriesOf n p) with E1.
    erewrite bind_Success;
      [|by apply setSSAValueEntry_run, isolatedNameScopes_setEntries].
    rewrite setEntries_setEntries, He. simpl.
    erewrite bind_Success; [|done]. rewrite Hev.
    erewrite bind_Success; [|done].
    erewrite bind_Success;
      [|by apply setSSAValueEntry_run, isolatedNameScopes_setEntries].
    rewrite setEntries_setEntries.
    apply recordDefinition_run. by apply scopeOpen_setEntries.
  - done.
  - intros n' num' x l Hb'.
    apply boundTo_recorded, boundTo_setEntries_frame; [done|].
    intros ->. pose proof (boundTo_entriesOf _ _ _ _ _ Hb') as He'.
    unfold E. rewrite list_lookup_insert_ne.
    + unfold E1. rewrite withSlot_frame; [done..|]. by apply lookup_lt_Some in He'.
    + intros <-. rewrite He' in Hnone. done.
  - by rewrite Hi.
  - by rewrite Hst.
  - by rewrite Hfp.
  - intros useLoc. eapply resolveSSAUse_known; [done|]. by rewrite Hi, Hi'.
Qed.

Lemma value_unbound_pair (E : list ValueDefinition) i :
  E !! i ≫= vd_value = None →
  E !! i ≫= (λ e, (λ v : Value, (v, e)) <$> vd_value e) = None.
Proof. by destruct (E !! i) as [[[x|] l]|]. Qed.

(** X15. [resolveSSAUse] of a result number that holds no value, for a name
    whose first result is bound to a value that is no placeholder, fails with
    "reference to invalid result number" (the current token being no error of
    the lexer); the entry of the name has been resized for the number by
    then. *)
Theorem resolveSSAUse_invalid_result_number p n num v0 l0 useLoc t :
  unbound p n num →
  boundTo p n 0 v0 l0 →
  forwardRefPlaceholders p !! v0 = None →
  (Z.of_nat num + 1 < 2 ^ 32)%Z →
  notLexerError p →
  resolveSSAUse (mkUnresolvedOperand useLoc n num) t p
    = (Failure,
       addDiagnostics [invalidResultNumberError useLoc]
         (setEntries n (withSlot num (entriesOf n p)) p)).
Proof.
  intros Hun Hb Hph Hnum Htok.
  destruct (unbound_entriesOf _ _ _ Hun) as [Hne Hnone].
  pose proof (boundTo_entriesOf _ _ _ _ _ Hb) as H0.
  set (E1 := withSlot num (entriesOf n p)).
  assert (HE0 : E1 !! 0 = Some (mkValueDefinition (Some v0) l0)).
  { unfold E1. rewrite withSlot_frame; [done..|]. by apply lookup_lt_Some in H0. }
  unfold resolveSSAUse. simpl.
  erewrite bind_Success; [|by apply getSSAValueEntry_run].
  rewrite (value_unbound_pair _ _ Hnone).
  change (if bool_decide (length (entriesOf n p) ≤ num)
          then resizeEntries (Z.to_nat (wrap32 (Z.of_nat num + 1)))
                 (entriesOf n p)
          else entriesOf n p) with E1.
  erewrite bind_Success;
    [|by apply setSSAValueEntry_run, isolatedNameScopes_setEntries].
  rewrite setEntries_setEntries, HE0. simpl.
  erewrite bind_Success; [|done].
  erewrite bind_Success; [|done].
  erewrite bind_Failure; [reflexivity|].
  unfold isForwardRefPlaceholder. simpl.
  replace (forwardRefPlaceholders (setEntries n E1 p))
    with (forwardRefPlaceholders p)
    by (unfold setEntries; by destruct (isolatedNameScopes p)).
  rewrite bool_decide_eq_false_2 by (rewrite Hph; by intros [? ?]). simpl.
  apply emitErrorAt_emits.
  unfold notLexerError, setEntries. by destruct (isolatedNameScopes p).
Qed.

(** X16. [resolveSSAUse] of a name and result number that hold no value, where
    the first result of the name is not bound to a defined value: it succeeds
    with a new placeholder, the first result of a new operation, of the type
    asked for; the name is bound to it at the location of the use, the
    placeholder and its operation are recorded as forward references, the
    other bindings stay and no token is consumed. *)
Theorem resolveSSAUse_forward_reference p n num useLoc t :
  unbound p n num →
  (∀ v0 l0, boundTo p n 0 v0 l0 → is_Some (forwardRefPlaceholders p !! v0)) →
  (Z.of_nat num + 1 < 2 ^ 32)%Z →
  ∃ p',
    resolveSSAUse (mkUnresolvedOperand useLoc n num) t p
      = (Success (OpResult (ir_nextOp (ir p)) 0), p') ∧
    boundTo p' n num (OpResult (ir_nextOp (ir p)) 0) useLoc ∧
    (∀ n' num' x l, boundTo p n' num' x l → boundTo p' n' num' x l) ∧
    forwardRefPlaceholders p'
      = <[OpResult (ir_nextOp (ir p)) 0 := useLoc]> (forwardRefPlaceholders p) ∧
    forwardRefOps p' = {[ir_nextOp (ir p)]} ∪ forwardRefOps p ∧
    getType (ir p') (OpResult (ir_nextOp (ir p)) 0) = Some t ∧
    ir_nextOp (ir p') = S (ir_nextOp (ir p)) ∧
    state p' = state p.
Proof.
  intros Hun Hfirst Hnum.
  destruct (unbound_entriesOf _ _ _ Hun) as [Hne Hnone].
  destruct (withSlot_unbound num (entriesOf n p) Hnum Hnone) as (e & He & Hev).
  pose proof (length_withSlot num (entriesOf n p) Hnum) as Hlen.
  set (E1 := withSlot num (entriesOf n p)) in *.
  set (v := OpResult (ir_nextOp (ir p)) 0).
  set (E := <[num := mkValueDefinition (Some v) useLoc]> E1).
  set (o := mkOperation "builtin.unrealized_conversion_cast"
              (getEncodedSourceLocation useLoc) [] [t] [] [] [] None).
  set (q := set_forwardRefOps ({[ir_nextOp (ir p)]} ∪ forwardRefOps p)
              (set_forwardRefPlaceholders
                 (<[v := useLoc]> (forwardRefPlaceholders p))
                 (set_ir (createOperation o (ir p)).2 p))).
  assert (Hq : isolatedNameScopes q = isolatedNameScopes p) by done.
  assert (Hqne : isolatedNameScopes q ≠ []) by by rewrite Hq.
  assert (HE : E !! num = Some (mkValueDefinition (Some v) useLoc)).
  { unfold E. by apply list_lookup_insert_eq. }
  assert (Hfields : ∀ q' F, ir (setEntries n F q') = ir q' ∧
            state (setEntries n F q') = state q' ∧
            forwardRefPlaceholders (setEntries n F q')
              = forwardRefPlaceholders q' ∧
            forwardRefOps (setEntries n F q') = forwardRefOps q').
  { intros q' F. unfold setEntries. by destruct (isolatedNameScopes q'). }
  destruct (Hfields q E) as (Hi & Hst & Hfp & Hfo).
  exists (setEntries n E q). split_and!.
  - unfold resolveSSAUse. simpl.
    erewrite bind_Success; [|by apply getSSAValueEntry_run].
    rewrite (value_unbound_pair _ _ Hnone).
    change (if bool_decide (length (entriesOf n p) ≤ num)
            then resizeEntries (Z.to_nat (wrap32 (Z.of_nat num + 1)))
                   (entriesOf n p)
            else entriesOf n p) with E1.
    erewrite bind_Success;
      [|by apply setSSAValueEntry_run, isolatedNameScopes_setEntries].
    rewrite setEntries_setEntries.
    destruct (E1 !! 0) as [first|] eqn:H0;
      [|apply lookup_ge_None in H0; lia].
    erewrite bind_Success; [|done].
    erewrite bind_Success; [|done].
    destruct (Hfields p E1) as (Hi1 & Hst1 & Hfp1 & Hfo1).
    erewrite (bind_Success _ _ _ () (setEntries n E1 p)); cycle 1.
    { destruct (vd_value first) as [v0|] eqn:Hv0; [|done].
      unfold isForwardRefPlaceholder. rewrite Hfp1.
      rewrite bool_decide_eq_true_2; [done|].
      destruct (decide (num = 0)) as [->|Hnz].
      { rewrite He in H0. by simplify_eq. }
      apply (Hfirst v0 (vd_loc first)).
      destruct Hun as (scope & rest & Hs & _).
      assert (H0' : entriesOf n p !! 0 = Some first).
      { revert H0. unfold E1, withSlot. case_bool_decide as Hl; [|done].
        unfold resizeEntries, wrap32. rewrite Z.mod_small by lia.
        destruct (decide (0 < length (entriesOf n p))) as [Hpos|Hz].
        - rewrite lookup_resize by lia. done.
        - rewrite lookup_resize_new by lia. intros. simplify_eq/=. }
      unfold entriesOf in H0'. rewrite Hs in H0'. simpl in H0'.
      destruct (values scope !! n) as [entries|] eqn:Hv; [|done].
      exists scope, rest, entries. split_and!; [done..|].
      simpl in H0'. rewrite H0'. by destruct first as [? ?]; simplify_eq/=. }
    erewrite (bind_Success _ _ _ v (setEntries n E1 q)); cycle 1.
    { unfold createForwardRefPlaceholder, allocIR, bind, modify, ret.
      rewrite Hi1. simpl. unfold q, setEntries. simpl.
      by destruct (isolatedNameScopes p). }
    rewrite bool_decide_eq_true_2 by done.
    erewrite bind_Success; [|done].
    erewrite bind_Success;
      [|by apply setSSAValueEntry_run, isolatedNameScopes_setEntries].
    by rewrite setEntries_setEntries.
  - by apply boundTo_setEntries.
  - intros n' num' x l Hb'.
    apply boundTo_setEntries_frame.
    { destruct Hb' as (scope & rest & entries & Hs & Hv & Hen).
      by exists scope, rest, entries. }
    intros ->. pose proof (boundTo_entriesOf _ _ _ _ _ Hb') as He'.
    unfold E. rewrite list_lookup_insert_ne.
    + unfold E1. rewrite withSlot_frame; [done..|]. by apply lookup_lt_Some in He'.
    + intros <-. rewrite He' in Hnone. done.
  - by rewrite Hfp.
  - by rewrite Hfo.
  - rewrite Hi. simpl. by rewrite lookup_insert_eq.
  - by rewrite Hi.
  - by rewrite Hst.
Qed.

(** ** Blocks and locations *)

Lemma liftP_run {A} (m : P A) p r st :
  m (state p) = (r, st) → liftP m p = (r, set_state st p).
Proof. intros H. unfold liftP, zoom. by rewrite H. Qed.

Lemma defineBlock_redefinition p m rest f rest' n b l nameLoc blk :
  blocksByName p = m :: rest →
  m !! n = Some (mkBlockDefinition (Some b) l) →
  forwardRef p = f :: rest' →
  f !! b = None →
  notLexerError p →
  defineBlock n nameLoc blk p
    = (Failure,
       addDiagnostics [redefinedBlockError nameLoc n]
         (set_blocksByName
            (<[n := mkBlockDefinition (Some b) nameLoc]> m :: rest) p)).
Proof.
  intros Hm Hn Hf Hb Htok. unfold defineBlock.
  erewrite bind_Success; [|by eapply getBlockInfoByName_known].
  erewrite bind_Success; [|by eapply setBlockInfoByName_run].
  simpl.
  erewrite bind_Success; cycle 1.
  { unfold eraseForwardRef, bind, get, modify, ret. simpl. rewrite Hf.
    reflexivity. }
  rewrite bool_decide_eq_false_2 by (rewrite Hb; by intros [? ?]). simpl.
  rewrite delete_id by done.
  rewrite emitErrorAt_emits; [|done].
  f_equal. destruct p. simpl in *. by subst.
Qed.

(** X17. [parseBlock] at a label that stands for a block which is not a pending
    forward reference: the label is consumed, and the call fails with
    "redefinition of block '<label>'" at the label (the next token being no
    error of the lexer); the location recorded for the label is by then the
    one of the new definition. *)
Theorem parseBlock_redefinition env fuel parseOperationRec blk p m rest f rest'
    b l :
  let tok := curToken (state p) in
  Token.kind tok = Token.caret_identifier →
  blocksByName p = m :: rest →
  m !! Token.spelling tok = Some (mkBlockDefinition (Some b) l) →
  forwardRef p = f :: rest' →
  f !! b = None →
  Token.kind (curToken (advance (state p))) ≠ Token.error →
  parseBlock env fuel parseOperationRec blk p
    = (Failure,
       addDiagnostics [redefinedBlockError (Token.loc tok) (Token.spelling tok)]
         (set_blocksByName
            (<[Token.spelling tok := mkBlockDefinition (Some b) (Token.loc tok)]> m
               :: rest)
            (set_state (advance (state p)) p))).
Proof.
  intros tok Hk Hm Hn Hf Hb Htok.
  unfold parseBlock.
  rewrite (bind_Success _ _ p tok p) by apply liftP_getToken.
  assert (Hrun :
    defineBlock (Token.spelling tok) (Token.loc tok) blk
      (set_state (advance (state p)) p)
    = (Failure,
       addDiagnostics [redefinedBlockError (Token.loc tok) (Token.spelling tok)]
         (set_blocksByName
            (<[Token.spelling tok := mkBlockDefinition (Some b) (Token.loc tok)]> m
               :: rest)
            (set_state (advance (state p)) p))))
    by by eapply defineBlock_redefinition.
  destruct blk as [b0|].
  - unfold Token.isNot, Token.is_. rewrite bool_decide_eq_true_2 by done.
    simpl.
    erewrite bind_Success; [|apply liftP_run; by apply parseToken_ok].
    erewrite bind_Failure; [reflexivity|]. exact Hrun.
  - erewrite bind_Success; [|apply liftP_run; by apply parseToken_ok].
    erewrite bind_Failure; [reflexivity|]. exact Hrun.
Qed.

Lemma set_state_set_state st1 st2 p :
  set_state st2 (set_state st1 p) = set_state st2 p.
Proof. by destruct p. Qed.

Lemma lexRest_advance st t rest :
  lexRest st = t :: rest → lexRest (advance st) = rest.
Proof. unfold advance. by intros ->. Qed.

Lemma aliases_advance st :
  attributeAliasDefinitions (advance st) = attributeAliasDefinitions st.
Proof. unfold advance. by destruct (lexRest st). Qed.

Lemma contains_drop_front c s :
  contains c s = false → contains c (drop_front s) = false.
Proof. destruct s as [|c' s]; [done|]. simpl. by intros [_ ?]%orb_false_elim. Qed.

(** X18. [parseTrailingLocationSpecifier]: at a token other than [loc] it
    succeeds and changes nothing; at [loc] not followed by a left parenthesis
    it consumes [loc] and fails with "expected '(' in location"; this where
    the step back of [emitWrongTokenError] from the token after [loc] stays
    in the buffer, as it does in a buffer that holds [loc]: where it does
    not, the behaviour is undefined. *)
Theorem trailing_location_is_optional env x p :
  (Token.kind (curToken (state p)) ≠ Token.kw_loc →
   parseTrailingLocationSpecifier env x p = (Success (), p))
  ∧ (Token.kind (curToken (state p)) = Token.kw_loc →
     Token.kind (curToken (advance (state p))) ≠ Token.l_paren →
     stepsBackInBuffer (advance (state p)) →
     ∃ loc,
       parseTrailingLocationSpecifier env x p
         = (Failure,
            set_state (reported (plainError "expected '(' in location" loc)
                         (advance (state p))) p)
       ∧ wrongTokenLoc (advance (state p)) loc)
  ∧ (Token.kind (curToken (state p)) = Token.kw_loc →
     Token.kind (curToken (advance (state p))) ≠ Token.l_paren →
     ¬ stepsBackInBuffer (advance (state p)) →
     parseTrailingLocationSpecifier env x p
       = (Undefined, set_state (advance (state p)) p)).
Proof.
  split_and!.
  - intros Hk. unfold parseTrailingLocationSpecifier.
    erewrite bind_Success; [|apply liftP_run; by apply consumeIf_false].
    simpl. by rewrite set_state_id.
  - intros Hk Hparen Hin.
    destruct (parseToken_wrong Token.l_paren "expected '(' in location"
                (advance (state p)) Hparen Hin) as (loc & Hrun & Hloc).
    exists loc. split; [|done]. unfold parseTrailingLocationSpecifier.
    erewrite bind_Success; [|apply liftP_run; by apply consumeIf_true].
    simpl. erewrite bind_Failure; [reflexivity|].
    erewrite liftP_run; [|exact Hrun]. by destruct p.
  - intros Hk Hparen Hout.
    pose proof (parseToken_outside Token.l_paren "expected '(' in location"
                  (advance (state p)) Hparen Hout) as Hrun.
    unfold parseTrailingLocationSpecifier.
    erewrite bind_Success; [|apply liftP_run; by apply consumeIf_true].
    simpl. apply bind_Undefined.
    erewrite liftP_run; [|exact Hrun]. by destruct p.
Qed.

(** X19. [parseTrailingLocationSpecifier] on [loc(#alias)] where the alias is
    defined as a location: the four tokens are consumed, the location of the
    operation or argument is set to that location at once, and no deferred
    reference is recorded. *)
Theorem trailing_location_of_defined_alias env x p lp alias rp rest l :
  Token.kind (curToken (state p)) = Token.kw_loc →
  lexRest (state p) = lp :: alias :: rp :: rest →
  Token.kind lp = Token.l_paren →
  Token.kind alias = Token.hash_identifier →
  Token.kind rp = Token.r_paren →
  contains "."%char (Token.spelling alias) = false →
  attributeAliasDefinitions (state p) !! drop_front (Token.spelling alias)
    = Some (LocationAttr l) →
  parseTrailingLocationSpecifier env x p
    = (Success (),
       set_ir (setLoc x l (ir p))
         (set_state (advance (advance (advance (advance (state p))))) p)).
Proof.
  intros Hk Hrest Hlp Halias Hrp Hdot Hdef.
  set (s1 := advance (state p)).
  assert (Hc1 : curToken s1 = lp) by by eapply curToken_advance.
  assert (Hr1 : lexRest s1 = alias :: rp :: rest) by by eapply lexRest_advance.
  set (s2 := advance s1).
  assert (Hc2 : curToken s2 = alias) by by eapply curToken_advance.
  assert (Hr2 : lexRest s2 = rp :: rest) by by eapply lexRest_advance.
  set (s3 := advance s2).
  assert (Hc3 : curToken s3 = rp) by by eapply curToken_advance.
  unfold parseTrailingLocationSpecifier.
  erewrite bind_Success; [|apply liftP_run; by apply consumeIf_true].
  simpl. fold s1.
  erewrite bind_Success;
    [|apply liftP_run; apply parseToken_ok; simpl; by rewrite ?Hc1].
  simpl. rewrite set_state_set_state. fold s2.
  erewrite bind_Success; [|apply liftP_getToken]. simpl. rewrite Hc2.
  unfold Token.is_ at 1. rewrite bool_decide_eq_true_2 by done.
  rewrite Hdot. simpl.
  erewrite (bind_Success _ _ _ l (set_state s3 p)); cycle 1.
  { unfold parseLocationAlias.
    erewrite bind_Success; [|apply liftP_getToken]. simpl. rewrite Hc2.
    erewrite bind_Success; cycle 1.
    { apply liftP_run. apply consumeTokenOfKind_advance; simpl; by rewrite ?Hc2. }
    rewrite contains_drop_front by done. simpl.
    rewrite set_state_set_state. fold s3.
    erewrite bind_Success; [|done]. simpl.
    unfold s3, s2, s1. by rewrite !aliases_advance, Hdef. }
  erewrite bind_Success;
    [|apply liftP_run; apply parseToken_ok; simpl; by rewrite ?Hc3].
  by destruct p.
Qed.

(** ** SSA uses *)

(** The first steps of [parseSSAUse] at a value name. *)
Ltac parseSSAUse_start Hk :=
  unfold parseSSAUse;
  unfold bind at 1, getToken at 1, gets;
  unfold Token.isCodeCompletion; unfold Token.is_ at 1;
  rewrite bool_decide_eq_false_2 by (by rewrite Hk);
  (erewrite bind_Success; [|by apply parseToken_ok]);
  (erewrite bind_Success; [|reflexivity]);
  cbv beta.

(** X20. [parseSSAUse] at a value name.  Not followed by a [#number]: the use
    of result 0 of the name, and the name is consumed.  Followed by one: an
    error "result number not allowed in argument list" where result numbers
    are not allowed, the use of that result with both tokens consumed where
    the number is valid, and an error "invalid SSA value result number"
    otherwise; both errors are reported at the number, after the name is
    consumed. *)
Theorem parseSSAUse_behaviour env allowResultNumber st :
  let tok := curToken st in
  let next := curToken (advance st) in
  Token.kind tok = Token.percent_identifier →
  (Token.kind next ≠ Token.hash_identifier →
   parseSSAUse env allowResultNumber st
     = (Success (mkUnresolvedOperand (Token.loc tok) (Token.spelling tok) 0),
        advance st))
  ∧ (Token.kind next = Token.hash_identifier →
     match allowResultNumber, getHashIdentifierNumber env next with
     | true, Some value =>
         parseSSAUse env allowResultNumber st
           = (Success (mkUnresolvedOperand (Token.loc tok) (Token.spelling tok)
                         value),
              advance (advance st))
     | true, None =>
         parseSSAUse env allowResultNumber st
           = (Failure,
              reported (plainError "invalid SSA value result number"
                          (Token.loc next)) (advance st))
     | false, _ =>
         parseSSAUse env allowResultNumber st
           = (Failure,
              reported (plainError "result number not allowed in argument list"
                          (Token.loc next)) (advance st))
     end).
Proof.
  intros tok next Hk. subst tok next.
  assert (Herr : Token.kind (curToken (advance st)) = Token.hash_identifier →
    ∀ message,
      emitError (A:=UnresolvedOperand) [ArgString message] (advance st)
      = (Failure,
         reported (plainError message (Token.loc (curToken (advance st))))
           (advance st))).
  { intros Hnext message. rewrite emitError_emits; rewrite ?Hnext; [|done..].
    unfold reported, Token.is_.
    by rewrite bool_decide_eq_false_2 by by rewrite Hnext. }
  split; intros Hnext.
  - parseSSAUse_start Hk.
    unfold Token.is_. by rewrite bool_decide_eq_false_2.
  - destruct allowResultNumber.
    + destruct (getHashIdentifierNumber env (curToken (advance st)))
        as [value|] eqn:Hnum.
      * parseSSAUse_start Hk.
        unfold Token.is_ at 1. rewrite bool_decide_eq_true_2 by done. simpl.
        rewrite Hnum.
        erewrite bind_Success; [done|].
        by apply consumeTokenOfKind_advance.
      * parseSSAUse_start Hk.
        unfold Token.is_ at 1. rewrite bool_decide_eq_true_2 by done. simpl.
        rewrite Hnum. by apply Herr.
    + parseSSAUse_start Hk.
      unfold Token.is_ at 1. rewrite bool_decide_eq_true_2 by done. simpl.
      by apply Herr.
Qed.

Lemma parseSSAUse_plain env st :
  Token.kind (curToken st) = Token.percent_identifier →
  Token.kind (curToken (advance st)) ≠ Token.hash_identifier →
  parseSSAUse env true st = (Success (useOf (curToken st)), advance st).
Proof.
  intros Hk Hnext. parseSSAUse_start Hk.
  unfold Token.is_. by rewrite bool_decide_eq_false_2.
Qed.

Lemma head_moreNames pairs next rest t r :
  Forall commaThenName pairs →
  Token.kind next ≠ Token.hash_identifier →
  moreNames pairs ++ next :: rest = t :: r →
  Token.kind t ≠ Token.hash_identifier.
Proof.
  intros Hall Hnext Heq. destruct pairs as [|[c n] pairs]; simpl in Heq.
  - by simplify_eq.
  - apply Forall_cons in Hall as [[Hc _] _]. simplify_eq/=. by rewrite Hc.
Qed.

Lemma use_list_loop env next rest :
  Token.kind next ≠ Token.comma →
  Token.kind next ≠ Token.hash_identifier →
  ∀ pairs fuel acc st,
    Forall commaThenName pairs →
    curToken st :: lexRest st = moreNames pairs ++ next :: rest →
    length pairs < fuel →
    while fuel (liftLocal (consumeIf Token.comma))
      (result <- liftLocal (parseSSAUse env true) ;;
       results <- getLocal ;;
       setLocal (results ++ [result])) (acc, st)
    = (Success (), (acc ++ (useOf ∘ snd <$> pairs), set_tokens next rest st)).
Proof.
  intros Hcomma Hhash. induction pairs as [|[c n] pairs IH];
    intros fuel acc st Hall Htoks Hfuel;
    (destruct fuel as [|fuel]; [simpl in Hfuel; lia|]); simpl in Htoks.
  - simplify_eq. simpl.
    erewrite bind_Success; cycle 1.
    { rewrite liftLocal_run, consumeIf_false by done. reflexivity. }
    by rewrite app_nil_r, set_tokens_id.
  - apply Forall_cons in Hall as [[Hc Hn] Hall]. simpl in Hc, Hn.
    injection Htoks as Hcur Hrest.
    assert (Hadv : advance st = set_tokens n (moreNames pairs ++ next :: rest) st)
      by by apply advance_cons.
    destruct (moreNames pairs ++ next :: rest) as [|t r] eqn:Hafter.
    { by destruct pairs as [|[? ?] ?]. }
    assert (Ht : Token.kind t ≠ Token.hash_identifier)
      by by eapply head_moreNames.
    simpl.
    erewrite bind_Success; cycle 1.
    { rewrite liftLocal_run, consumeIf_true; [reflexivity|by rewrite ?Hcur..]. }
    cbv beta iota.
    erewrite bind_Success; cycle 1.
    { erewrite bind_Success; cycle 1.
      { rewrite liftLocal_run, parseSSAUse_plain; [reflexivity| |].
        - by rewrite Hadv.
        - rewrite Hadv. by erewrite curToken_advance. }
      reflexivity. }
    rewrite (IH fuel); [| done | | simpl in Hfuel; lia].
    + cbn [fst snd]. rewrite !set_tokens_advance, <- app_assoc.
      by rewrite Hadv.
    + cbn [fst snd]. by rewrite Hadv.
Qed.

(** X21. [parseOptionalSSAUseList] on value names separated by commas and
    followed by a token that is neither a comma nor a result number: it
    returns the uses of result 0 of the names, in the order of the text, and
    stops at the token after the last name, given a budget above the number
    of commas. *)
Theorem parseOptionalSSAUseList_names env fuel st pairs next rest :
  Token.kind (curToken st) = Token.percent_identifier →
  lexRest st = moreNames pairs ++ next :: rest →
  Forall commaThenName pairs →
  Token.kind next ≠ Token.comma →
  Token.kind next ≠ Token.hash_identifier →
  length pairs < fuel →
  parseOptionalSSAUseList env fuel st
    = (Success (useOf (curToken st) :: (useOf ∘ snd <$> pairs)),
       set_tokens next rest st).
Proof.
  intros Hk Hrest Hall Hcomma Hhash Hfuel.
  destruct (moreNames pairs ++ next :: rest) as [|t r] eqn:Hafter.
  { by destruct pairs as [|[? ?] ?]. }
  assert (Ht : Token.kind t ≠ Token.hash_identifier)
    by by eapply head_moreNames.
  assert (Hadv : advance st = set_tokens t r st) by by apply advance_cons.
  assert (Hrun :
    parseCommaSeparatedList (@liftLocal _ _) fuel DelimNone
      (result <- liftLocal (parseSSAUse env true) ;;
       results <- getLocal ;;
       setLocal (results ++ [result])) "" ([], st)
    = (Success (),
       (useOf (curToken st) :: (useOf ∘ snd <$> pairs),
        set_tokens next rest st))).
  { unfold parseCommaSeparatedList, parseListOpening.
    erewrite bind_Success; [|reflexivity]. cbv beta iota.
    erewrite bind_Success; cycle 1.
    { erewrite bind_Success; cycle 1.
      { rewrite liftLocal_run, parseSSAUse_plain; [reflexivity|done|].
        by rewrite Hadv. }
      reflexivity. }
    erewrite bind_Success; cycle 1.
    { apply (use_list_loop env next rest Hcomma Hhash pairs).
      - done.
      - cbn [fst snd]. by rewrite Hadv, Hafter.
      - done. }
    cbn [fst snd parseListClosing ret]. by rewrite set_tokens_advance. }
  unfold parseOptionalSSAUseList.
  unfold bind at 1, getToken at 1, gets.
  unfold isOrIsCodeCompletionFor, Token.is_ at 1.
  rewrite bool_decide_eq_true_2 by done. simpl.
  erewrite bind_Success; cycle 1.
  { unfold runLocal. rewrite Hrun. reflexivity. }
  done.
Qed.

(** ** Alias definitions *)

(** X22. [parseAttributeAliasDef] at [#name]: a name that is defined already
    is an error "redefinition of attribute alias id '<name>'", a new name with
    a ['.'] is reserved for the dialects, and neither consumes a token;
    otherwise, after [=] and an attribute, the alias is defined as that
    attribute in the state the attribute parser leaves. *)
Theorem parseAttributeAliasDef_behaviour env st :
  let tok := curToken st in
  let aliasName := drop_front (Token.spelling tok) in
  Token.kind tok = Token.hash_identifier →
  (is_Some (attributeAliasDefinitions st !! aliasName) →
   parseAttributeAliasDef env st
     = (Failure,
        reported
          (plainError ("redefinition of attribute alias id '" ++ aliasName ++ "'")
             (Token.loc tok)) st))
  ∧ (attributeAliasDefinitions st !! aliasName = None →
     contains "."%char aliasName = true →
     parseAttributeAliasDef env st
       = (Failure,
          reported
            (plainError
               "attribute names with a '.' are reserved for dialect-defined names"
               (Token.loc tok)) st))
  ∧ (attributeAliasDefinitions st !! aliasName = None →
     contains "."%char aliasName = false →
     ∀ eqTok rest attr st',
       lexRest st = eqTok :: rest →
       Token.kind eqTok = Token.equal →
       parseAttribute env (advance (advance st)) = (Success attr, st') →
       parseAttributeAliasDef env st
         = (Success (),
            set_attributeAliasDefinitions
              (<[aliasName := attr]> (attributeAliasDefinitions st')) st')).
Proof.
  intros tok aliasName Hk. subst tok aliasName.
  assert (Herr : ∀ message,
    emitError (A:=unit) [ArgString message] st
    = (Failure, reported (plainError message (Token.loc (curToken st))) st)).
  { intros message. rewrite emitError_emits; rewrite ?Hk; [|done..].
    unfold reported, Token.is_.
    by rewrite bool_decide_eq_false_2 by by rewrite Hk. }
  assert (Hstart : ∀ k : Token.t → P unit,
    (tok <- getToken ;;
     if negb (Token.is_ tok Token.hash_identifier) then undefined else k tok) st
    = k (curToken st) st).
  { intros k. unfold bind, getToken, gets, Token.is_.
    by rewrite bool_decide_eq_true_2. }
  unfold parseAttributeAliasDef. rewrite Hstart.
  split_and!.
  - intros Hdef.
    erewrite bind_Success; [|reflexivity].
    rewrite bool_decide_eq_true_2 by done. apply Herr.
  - intros Hnone Hdot.
    erewrite bind_Success; [|reflexivity].
    rewrite bool_decide_eq_false_2 by (rewrite Hnone; by intros [? ?]).
    rewrite Hdot. apply Herr.
  - intros Hnone Hdot eqTok rest attr st' Hrest Heq Hattr.
    erewrite bind_Success; [|reflexivity].
    rewrite bool_decide_eq_false_2 by (rewrite Hnone; by intros [? ?]).
    rewrite Hdot.
    erewrite bind_Success; [|by apply consumeTokenOfKind_advance].
    erewrite bind_Success;
      [|apply parseToken_ok; [by erewrite curToken_advance|done..]].
    erewrite bind_Success; [|exact Hattr]. done.
Qed.

(** ** The generic form *)

Lemma forEach_resolve uses : ∀ r p vs p',
  resolveAll uses p = (Success vs, p') →
  forEach (λ ut : UnresolvedOperand * Ty,
             v <- liftM (resolveSSAUse ut.1 ut.2) ;;
             modifyResult (addOperand v)) uses (r, p)
  = (Success (), (addOperands vs r, p')).
Proof.
  induction uses as [|[u t] uses IH]; intros r p vs p' Hall; simpl in Hall.
  - unfold ret in Hall. by simplify_eq.
  - unfold bind at 1 in Hall.
    destruct (resolveSSAUse u t p) as [[v| |] p1] eqn:Hone; [|done..].
    unfold bind at 1 in Hall.
    destruct (resolveAll uses p1) as [[vs'| |] p2] eqn:Hrest; [|done..].
    unfold ret in Hall. simplify_eq. simpl.
    erewrite bind_Success; cycle 1.
    { erewrite bind_Success; cycle 1.
      { unfold liftM. rewrite liftLocal_run. simpl. rewrite Hone. reflexivity. }
      reflexivity. }
    by apply IH.
Qed.

(** X23. The end of [parseGenericOperationAfterOpName] when the caller provides
    the properties, the regions, the attributes and the function type: the
    pieces are added to the operation state; if the number of operand types is
    not the number of operands, "expected <n> operand type(s) but had <m>" is
    reported at the location of the operation, also when the current token is
    an error of the lexer, and the call fails; otherwise the operands are
    resolved in order against the operand types and added in that order. *)
Theorem parseGenericRemainder_with_pieces env fuel parseOperationRec uses
    regions attrs properties operandTypes resultTypes r p :
  (length operandTypes ≠ length uses →
   parseGenericRemainder env fuel parseOperationRec uses (Some regions)
     (Some attrs) (Some properties) (Some (operandTypes, resultTypes)) (r, p)
   = (Failure,
      (withPieces regions attrs properties resultTypes r,
       addDiagnostics
         [operandCountError (os_location r) (length uses) (length operandTypes)]
         p)))
  ∧ (length operandTypes = length uses →
     ∀ vs p',
       resolveAll (zip uses operandTypes) p = (Success vs, p') →
       parseGenericRemainder env fuel parseOperationRec uses (Some regions)
         (Some attrs) (Some properties) (Some (operandTypes, resultTypes)) (r, p)
       = (Success (),
          (addOperands vs (withPieces regions attrs properties resultTypes r),
           p'))).
Proof.
  split.
  - intros Hlen. unfold parseGenericRemainder.
    do 4 (erewrite bind_Success; [|reflexivity]). simpl.
    erewrite bind_Success; [|reflexivity]. simpl.
    erewrite bind_Success; [|reflexivity].
    erewrite bind_Failure; [reflexivity|].
    rewrite bool_decide_eq_false_2 by done. simpl.
    by destruct r, p.
  - intros Hlen vs p' Hall. unfold parseGenericRemainder.
    do 4 (erewrite bind_Success; [|reflexivity]). simpl.
    erewrite bind_Success; [|reflexivity]. simpl.
    erewrite bind_Success; [|reflexivity].
    erewrite bind_Success; cycle 1.
    { rewrite bool_decide_eq_true_2 by done. reflexivity. }
    by apply forEach_resolve.
Qed.

(** X24. [parseRegion]: at a token other than a left brace it fails with
    "expected '{' to begin a region" and consumes nothing; this where the
    step back of [emitWrongTokenError] stays in the buffer, as it does after
    the tokens of an operation: at the end of an empty buffer the behaviour
    is undefined.  On [{}] without entry arguments it consumes the two braces
    and changes nothing else: no block is created and no scope is pushed. *)
Theorem parseRegion_without_body env fuel parseOperationRec region iso p :
  (Token.kind (curToken (state p)) ≠ Token.l_brace →
   stepsBackInBuffer (state p) →
   ∀ entryArguments,
   ∃ loc,
     parseRegion env fuel parseOperationRec region entryArguments iso p
       = (Failure,
          set_state (reported (plainError "expected '{' to begin a region" loc)
                       (state p)) p)
     ∧ wrongTokenLoc (state p) loc)
  ∧ (Token.kind (curToken (state p)) = Token.l_brace →
     ∀ t rest,
       lexRest (state p) = t :: rest →
       Token.kind t = Token.r_brace →
       parseRegion env fuel parseOperationRec region [] iso p
         = (Success (), set_state (advance (advance (state p))) p))
  ∧ (Token.kind (curToken (state p)) ≠ Token.l_brace →
     ¬ stepsBackInBuffer (state p) →
     ∀ entryArguments,
       parseRegion env fuel parseOperationRec region entryArguments iso p
         = (Undefined, p)).
Proof.
  split_and!; cycle 2.
  { intros Hk Hout entryArguments.
    pose proof (parseToken_outside Token.l_brace
                  "expected '{' to begin a region" (state p) Hk Hout) as Hrun.
    unfold parseRegion.
    erewrite bind_Success; [|apply liftP_getToken].
    apply bind_Undefined.
    erewrite liftP_run; [|exact Hrun]. by rewrite set_state_id. }
  - intros Hk Hin entryArguments.
    destruct (parseToken_wrong Token.l_brace "expected '{' to begin a region"
                (state p) Hk Hin) as (loc & Hrun & Hloc).
    exists loc. split; [|done]. unfold parseRegion.
    erewrite bind_Success; [|apply liftP_getToken].
    erewrite bind_Failure; [reflexivity|]. by apply liftP_run.
  - intros Hk t rest Hrest Ht. unfold parseRegion.
    erewrite bind_Success; [|apply liftP_getToken].
    erewrite bind_Success; [|apply liftP_run; by apply parseToken_ok].
    erewrite bind_Success; [|apply liftP_getToken]. simpl.
    erewrite curToken_advance by done.
    unfold Token.isNot, Token.is_. rewrite (bool_decide_eq_true_2 _ Ht). simpl.
    erewrite bind_Success; [|reflexivity].
    erewrite liftP_run; cycle 1.
    { apply consumeTokenOfKind_advance; [|done..]. simpl.
      by erewrite curToken_advance. }
    by rewrite set_state_set_state.
Qed.

(** ** The names of the results of a custom operation *)

Lemma getNumResults_sum resultIDs : ∀ count,
  unsignedSizes resultIDs →
  (0 ≤ count)%Z → (count + resultsIn resultIDs < 2 ^ 64)%Z →
  foldl (λ count (entry : ResultRecord), wrap64 (count + entry.1.2)) count
    resultIDs
  = (count + resultsIn resultIDs)%Z.
Proof.
  induction resultIDs as [|entry ids IH]; intros count Hall Hc Hsum; simpl.
  - lia.
  - apply Forall_cons in Hall as [He Hall]. simpl in Hsum.
    assert (0 ≤ resultsIn ids)%Z.
    { clear -Hall. induction Hall as [|e l He _ IH]; simpl; lia. }
    unfold wrap64 at 2. rewrite Z.mod_small by lia.
    rewrite IH; [lia|done|lia|lia].
Qed.

(** X25. [CustomOpAsmParser::getResultName]: the result number that is [i]
    results into a group of the result list, counted over the groups before
    it, gives the name of that group without its first character and [i]. *)
Theorem getResultName_of_group pre entry post i :
  unsignedSizes pre →
  (0 ≤ i < entry.1.2)%Z →
  (resultsIn pre + i < 2 ^ 32)%Z →
  CustomOpAsmParser.getResultName (pre ++ entry :: post) (resultsIn pre + i)
    = (drop_front entry.1.1, i).
Proof.
  intros Hall Hi. revert i Hi.
  induction Hall as [|e pre He Hall IH]; intros i Hi Hsum; simpl.
  - by rewrite bool_decide_eq_true_2 by lia.
  - assert (0 ≤ resultsIn pre)%Z.
    { clear -Hall. induction Hall as [|e' l He' _ IH']; simpl; lia. }
    simpl in Hsum.
    rewrite bool_decide_eq_false_2 by lia.
    replace (wrap32 (e.1.2 + resultsIn pre + i - e.1.2))
      with (resultsIn pre + i)%Z.
    + apply IH; [done|lia].
    + unfold wrap32. rewrite Z.mod_small by lia. lia.
Qed.

(** X26. [CustomOpAsmParser::getNumResults] is the sum of the sizes of the
    groups where that sum fits [size_t], and [getResultName] of a result
    number at or above it is the empty name with [~0U]. *)
Theorem getResultName_invalid resultIDs :
  unsignedSizes resultIDs →
  (resultsIn resultIDs < 2 ^ 64)%Z →
  CustomOpAsmParser.getNumResults resultIDs = resultsIn resultIDs
  ∧ (∀ resultNo,
       (CustomOpAsmParser.getNumResults resultIDs ≤ resultNo < 2 ^ 32)%Z →
       CustomOpAsmParser.getResultName resultIDs resultNo
         = (EmptyString, (2 ^ 32 - 1)%Z)).
Proof.
  intros Hall Hsum.
  assert (Hnum : CustomOpAsmParser.getNumResults resultIDs
                 = resultsIn resultIDs).
  { unfold CustomOpAsmParser.getNumResults.
    rewrite getNumResults_sum; [lia|done|lia|lia]. }
  split; [done|]. rewrite Hnum. clear Hnum Hsum.
  induction Hall as [|e ids He Hall IH]; intros resultNo Hno; simpl in *.
  - done.
  - assert (0 ≤ resultsIn ids)%Z.
    { clear -Hall. induction Hall as [|e' l He' _ IH']; simpl; lia. }
    rewrite bool_decide_eq_false_2 by lia.
    apply IH. unfold wrap32. rewrite Z.mod_small by lia. lia.
Qed.

(** ** The names of the results of an operation *)

Lemma withSlot_keeps num E i :
  num < length (withSlot num E) → i < length E →
  withSlot num E !! i = E !! i.
Proof.
  unfold withSlot. case_bool_decide as Hlen; [|done].
  rewrite length_resizeEntries. intros Hnum Hi.
  apply lookup_resizeEntries_lt; lia.
Qed.

(** What a successful [addDefinition] leaves: the name is bound to the value,
    what was bound to a value that is no placeholder is still bound to it, and
    no placeholder is added. *)
Lemma addDefinition_Success u v p p' :
  addDefinition u v p = (Success (), p') →
  boundTo p' (name u) (number u) v (location u)
  ∧ (∀ n num x l, boundTo p n num x l →
       forwardRefPlaceholders p !! x = None → boundTo p' n num x l)
  ∧ (∀ x, forwardRefPlaceholders p !! x = None →
          forwardRefPlaceholders p' !! x = None).
Proof.
  destruct u as [loc n num]. simpl. intros Hrun.
  destruct (decide (isolatedNameScopes p = [])) as [Hnil|Hne].
  { unfold addDefinition, getSSAValueEntry, backScope in Hrun.
    unfold bind at 1 2 3, get at 1, deref in Hrun. rewrite Hnil in Hrun.
    done. }
  unfold addDefinition in Hrun. simpl in Hrun.
  erewrite bind_Success in Hrun; [|by apply getSSAValueEntry_run].
  change (if bool_decide (length (entriesOf n p) ≤ num)
          then resizeEntries (Z.to_nat (wrap32 (Z.of_nat num + 1)))
                 (entriesOf n p)
          else entriesOf n p) with (withSlot num (entriesOf n p)) in Hrun.
  set (E1 := withSlot num (entriesOf n p)) in *.
  erewrite bind_Success in Hrun;
    [|by apply setSSAValueEntry_run, isolatedNameScopes_setEntries].
  rewrite setEntries_setEntries in Hrun.
  destruct (E1 !! num) as [e|] eqn:He; [|done].
  erewrite bind_Success in Hrun; [|reflexivity].
  apply bind_Success_inv in Hrun as ([] & q & Hmid & Hrun).
  assert (Hfields : isolatedNameScopes (setEntries n E1 p) ≠ []
            ∧ forwardRefPlaceholders (setEntries n E1 p)
              = forwardRefPlaceholders p).
  { split; [by apply isolatedNameScopes_setEntries|].
    unfold setEntries. by destruct (isolatedNameScopes p). }
  destruct Hfields as [Hne1 Hfp1].
  assert (Hq : isolatedNameScopes q = isolatedNameScopes (setEntries n E1 p)
            ∧ (∀ x, forwardRefPlaceholders p !! x = None →
                    forwardRefPlaceholders q !! x = None)
            ∧ (∀ x, vd_value e = Some x →
                    is_Some (forwardRefPlaceholders p !! x))).
  { destruct (vd_value e) as [existing|] eqn:Hev.
    - apply bind_Success_inv in Hmid as (p0 & s0 & Hget & Hmid).
      unfold get in Hget. simplify_eq.
      unfold isForwardRefPlaceholder in Hmid. rewrite Hfp1 in Hmid.
      case_bool_decide as Hph; simpl in Hmid.
      + apply bind_Success_inv in Hmid as (t1 & s1 & Ht1 & Hmid).
        unfold typeOf, bind, get, deref in Ht1.
        destruct (getType _ existing); [|done]. unfold ret in Ht1. simplify_eq.
        apply bind_Success_inv in Hmid as (t2 & s2 & Ht2 & Hmid).
        unfold typeOf, bind, get, deref in Ht2.
        destruct (getType _ v); [|done]. unfold ret in Ht2. simplify_eq.
        case_bool_decide as Hty; simpl in Hmid.
        * unfold bind, modifyIR, modify in Hmid. simplify_eq. simpl.
          split_and!; [done| |by intros ? [= <-]].
          intros x Hx. rewrite Hfp1.
          destruct (decide (x = existing)) as [->|Hxe].
          -- by rewrite lookup_delete_eq.
          -- by rewrite lookup_delete_ne.
        * exfalso. revert Hmid. unfold liftP, zoom.
          destruct (emitErrorAt _ _ _ _) as [[a| |] s'] eqn:Hem; [|done..].
          by apply neverSucceeds_emitErrorAt in Hem.
      + exfalso. revert Hmid. unfold liftP, zoom.
        destruct (emitErrorAt _ _ _ _) as [[a| |] s'] eqn:Hem; [|done..].
        by apply neverSucceeds_emitErrorAt in Hem.
    - unfold ret in Hmid. simplify_eq. by rewrite Hfp1. }
  destruct Hq as (Hqs & Hqph & Hqe).
  assert (Hqne : isolatedNameScopes q ≠ []) by by rewrite Hqs.
  erewrite bind_Success in Hrun; [|by apply setSSAValueEntry_run].
  set (E := <[num := mkValueDefinition (Some v) loc]> E1) in *.
  assert (Hopen : scopeOpen (setEntries n E q)).
  { unfold recordDefinition, backScope, setBackScope in Hrun.
    unfold bind, get, deref, modify in Hrun.
    destruct (isolatedNameScopes (setEntries n E q)) as [|scope rest] eqn:Hs;
      [done|]. simpl in Hrun.
    unfold Isolated_recordDefinition in Hrun.
    destruct (definitionsPerScope scope) as [|defs drest] eqn:Hd; [done|].
    by exists scope, rest, defs, drest. }
  rewrite recordDefinition_run in Hrun by done. simplify_eq.
  assert (Hlen : num < length E1) by by apply lookup_lt_Some in He.
  assert (HE : E !! num = Some (mkValueDefinition (Some v) loc))
    by by apply list_lookup_insert_eq.
  assert (Hrec : ∀ x, forwardRefPlaceholders (recorded n (setEntries n E q)) !! x
                      = forwardRefPlaceholders q !! x).
  { intros x. destruct Hopen as (s0 & r0 & d0 & dr0 & Hs0 & Hd0).
    unfold recorded. rewrite Hs0, Hd0. simpl.
    unfold setEntries. by destruct (isolatedNameScopes q). }
  split_and!.
  - by apply boundTo_recorded, boundTo_setEntries.
  - intros n' num' x l Hb Hx.
    pose proof (boundTo_entriesOf _ _ _ _ _ Hb) as Hold.
    apply boundTo_recorded, boundTo_setEntries_frame.
    + destruct Hb as (scope & rest & entries & Hs & Hv & Hen).
      assert (Hb1 : boundTo (setEntries n E1 p) n' num' x l).
      { apply boundTo_setEntries_frame; [by exists scope, rest, entries|].
        intros ->. unfold E1. rewrite withSlot_keeps; [done..|].
        by apply lookup_lt_Some in Hold. }
      destruct Hb1 as (scope1 & rest1 & entries1 & Hs1 & Hv1 & Hen1).
      exists scope1, rest1, entries1. by rewrite Hqs.
    + intros ->.
      assert (Hkeep : E1 !! num' = Some (mkValueDefinition (Some x) l)).
      { unfold E1. rewrite withSlot_keeps; [done..|].
        by apply lookup_lt_Some in Hold. }
      unfold E. destruct (decide (num = num')) as [<-|Hnum].
      * rewrite Hkeep in He. simplify_eq.
        destruct (Hqe x eq_refl) as [? Hsome]. by rewrite Hx in Hsome.
      * by rewrite list_lookup_insert_ne.
  - intros x Hx. rewrite Hrec. by apply Hqph.
Qed.

Lemma keepsDefinitions_refl p : keepsDefinitions p p.
Proof. by split. Qed.

Lemma keepsDefinitions_trans p1 p2 p3 :
  keepsDefinitions p1 p2 → keepsDefinitions p2 p3 → keepsDefinitions p1 p3.
Proof.
  intros [Hb1 Hp1] [Hb2 Hp2]. split.
  - intros n num x l Hb Hx. apply Hb2; [by apply Hb1|by apply Hp1].
  - intros x Hx. by apply Hp2, Hp1.
Qed.

Lemma registerResult_Success op resIt subRes k q k' q' :
  registerResult op resIt subRes (k, q) = (Success (), (k', q')) →
  k' = S k
  ∧ addDefinition (mkUnresolvedOperand resIt.2 resIt.1.1 subRes) (OpResult op k) q
    = (Success (), q').
Proof.
  unfold registerResult. intros Hrun.
  erewrite bind_Success in Hrun; [|reflexivity].
  erewrite bind_Success in Hrun; [|reflexivity]. simpl in Hrun.
  apply bind_Success_inv in Hrun as (v & [k1 q1] & Hres & Hrun).
  rewrite liftLocal_run in Hres. rewrite liftLocal_run in Hrun.
  unfold getResult, bind, get, deref in Hres.
  destruct (getNumResults (ir q) op) as [numResults|]; [|done].
  simpl in Hres. case_bool_decide; [|done]. unfold ret in Hres. simplify_eq.
  destruct (addDefinition _ _ q1) as [[[]| |] q2]; by simplify_eq.
Qed.

Lemma registerResult_group op resIt : ∀ subs k q k' q',
  forEach (registerResult op resIt) subs (k, q) = (Success (), (k', q')) →
  (∀ i, forwardRefPlaceholders q !! OpResult op i = None) →
  k' = k + length subs
  ∧ keepsDefinitions q q'
  ∧ (∀ j sub, subs !! j = Some sub →
       boundTo q' resIt.1.1 sub (OpResult op (k + j)) resIt.2).
Proof.
  induction subs as [|sub subs IH]; intros k q k' q' Hrun Hph; simpl in Hrun.
  - unfold ret in Hrun. simplify_eq.
    split_and!; [simpl; lia|apply keepsDefinitions_refl|done].
  - apply bind_Success_inv in Hrun as ([] & [k1 q1] & Hone & Hrun).
    apply registerResult_Success in Hone as [-> Hone].
    apply addDefinition_Success in Hone as (Hb & Hkeep). simpl in Hb.
    assert (Hph1 : ∀ i, forwardRefPlaceholders q1 !! OpResult op i = None).
    { intros i. by apply Hkeep. }
    destruct (IH _ _ _ _ Hrun Hph1) as (-> & Hkeep' & Hrest).
    split_and!.
    + simpl. lia.
    + by eapply keepsDefinitions_trans.
    + intros [|j] sub' Hj; simpl in Hj.
      * simplify_eq. replace (k + 0) with k by lia.
        by apply Hkeep'.
      * replace (k + S j) with (S k + j) by lia. by apply Hrest.
Qed.

Lemma resultsBefore_cons e pre :
  resultsBefore (e :: pre) = groupSize e + resultsBefore pre.
Proof. done. Qed.

Lemma registerResult_groups op : ∀ groups k q k' q',
  forEach (λ resIt : ResultRecord,
             forEach (registerResult op resIt) (seq 0 (Z.to_nat resIt.1.2)))
    groups (k, q) = (Success (), (k', q')) →
  (∀ i, forwardRefPlaceholders q !! OpResult op i = None) →
  keepsDefinitions q q'
  ∧ (∀ pre entry post sub,
       groups = pre ++ entry :: post → sub < groupSize entry →
       boundTo q' entry.1.1 sub (OpResult op (k + resultsBefore pre + sub))
         entry.2).
Proof.
  induction groups as [|e groups IH]; intros k q k' q' Hrun Hph; simpl in Hrun.
  - unfold ret in Hrun. simplify_eq. split; [apply keepsDefinitions_refl|].
    intros pre entry post sub Heq. by destruct pre.
  - apply bind_Success_inv in Hrun as ([] & [k1 q1] & Hgroup & Hrun).
    apply registerResult_group in Hgroup as (-> & Hkeep & Hbound); [|done].
    assert (Hph1 : ∀ i, forwardRefPlaceholders q1 !! OpResult op i = None).
    { intros i. by apply Hkeep. }
    destruct (IH _ _ _ _ Hrun Hph1) as (Hkeep' & Hrest).
    split; [by eapply keepsDefinitions_trans|].
    intros pre entry post sub Heq Hsub. destruct pre as [|e0 pre]; simpl in Heq.
    + simplify_eq. unfold resultsBefore. simpl.
      replace (k + 0 + sub) with (k + sub) by lia.
      apply Hkeep'; [|done]. apply Hbound.
      apply lookup_seq. unfold groupSize in Hsub. lia.
    + simplify_eq. rewrite resultsBefore_cons.
      specialize (Hrest pre entry post sub eq_refl Hsub).
      rewrite length_seq in Hrest.
      replace (k + (groupSize e0 + resultsBefore pre) + sub)
        with (k + Z.to_nat e0.1.2 + resultsBefore pre + sub)
        by (unfold groupSize; lia).
      done.
Qed.

Lemma emitErrorAt_never {A} l args notes p (a : A) p' :
  liftP (emitErrorAt l args notes) p = (Success a, p') → False.
Proof.
  unfold liftP, zoom.
  destruct (emitErrorAt _ _ _ _) as [[a'| |] s'] eqn:Hem; [|done..].
  by apply neverSucceeds_emitErrorAt in Hem.
Qed.

(** X27. The end of [parseOperation]: when the registration of a result list
    succeeds for an operation whose results are no placeholders, every name
    of the list is bound: the result [sub] of a group to the result of the
    operation numbered by the sizes of the groups before it plus [sub], at the
    location of the group. *)
Theorem registerResults_binds_names loc resultIDs numExpectedResults op p p' :
  registerResults loc resultIDs numExpectedResults op p = (Success (), p') →
  (∀ i, forwardRefPlaceholders p !! OpResult op i = None) →
  ∀ pre entry post sub,
    resultIDs = pre ++ entry :: post → sub < groupSize entry →
    boundTo p' entry.1.1 sub (OpResult op (resultsBefore pre + sub)) entry.2.
Proof.
  intros Hrun Hph pre entry post sub Heq Hsub.
  unfold registerResults in Hrun.
  rewrite bool_decide_eq_false_2 in Hrun by (rewrite Heq; by destruct pre).
  simpl in Hrun.
  apply bind_Success_inv in Hrun as (p0 & s0 & Hget & Hrun).
  unfold get in Hget. simplify_eq.
  apply bind_Success_inv in Hrun as (numResults & s1 & Hnum & Hrun).
  unfold deref in Hnum. destruct (getNumResults (ir p0) op); [|done].
  unfold ret in Hnum. simplify_eq.
  case_bool_decide; [by apply emitErrorAt_never in Hrun|].
  case_bool_decide; simpl in Hrun; [|by apply emitErrorAt_never in Hrun].
  apply bind_Success_inv in Hrun as ([[] k'] & s2 & Hloop & Hrun).
  unfold ret in Hrun. simplify_eq.
  unfold runLocal in Hloop.
  destruct (forEach _ _ (0, _)) as [[[]| |] [k1 q1]] eqn:Hall; [|done..].
  simplify_eq.
  destruct (registerResult_groups op _ _ _ _ _ Hall Hph) as [_ Hbound].
  by apply (Hbound pre entry post sub).
Qed.

(** ** The properties on concrete parsers *)

(** X1 on the file [()], and on the empty file. *)
Lemma emitWrongTokenError_location_witness :
  (∃ l, emitWrongTokenError (A:=unit) "expected ':'" Cases.parens
          = (Failure, reported (plainError "expected ':'" l) Cases.parens)
        ∧ wrongTokenLoc Cases.parens l ∧ (l ≤ errorLoc Cases.parens)%Z)
  ∧ emitWrongTokenError (A:=unit) "expected ':'" (Demo.stateOf [])
      = (Undefined, Demo.stateOf []).
Proof.
  split.
  - apply (emitWrongTokenError_location (A:=unit) "expected ':'" Cases.parens).
    by_evaluation.
  - apply (emitWrongTokenError_location (A:=unit) "expected ':'"
             (Demo.stateOf [])).
    intros Hin. specialize (Hin eq_refl). vm_compute in Hin. done.
Defined.

(** X2 on the file [()]: the left parenthesis is consumed, and a request for
    a colon is an error; on the empty file the request is undefined. *)
Lemma parseToken_behaviour_witness :
  parseToken Token.l_paren "expected '('" Cases.parens
    = (Success (), advance Cases.parens)
  ∧ (∃ l, parseToken Token.colon "expected ':'" Cases.parens
            = (Failure, reported (plainError "expected ':'" l) Cases.parens)
          ∧ wrongTokenLoc Cases.parens l)
  ∧ parseToken Token.colon "expected ':'" (Demo.stateOf [])
      = (Undefined, Demo.stateOf []).
Proof.
  split_and!.
  - apply (parseToken_behaviour Token.l_paren "expected '('" Cases.parens);
      by_evaluation.
  - apply (parseToken_behaviour Token.colon "expected ':'" Cases.parens);
      by_evaluation.
  - apply (parseToken_behaviour Token.colon "expected ':'" (Demo.stateOf []));
      [by_evaluation..|].
    intros Hin. specialize (Hin eq_refl). vm_compute in Hin. done.
Defined.

(** X3 on a file that starts with an error of the lexer. *)
Lemma no_diagnostic_after_lexer_error_witness :
  Token.kind (curToken Cases.lexerError) = Token.error
  ∧ emitError (A:=unit) [ArgString "expected operation name in quotes"]
      Cases.lexerError = (Failure, Cases.lexerError).
Proof.
  split; [by_evaluation|].
  apply (no_diagnostic_after_lexer_error Cases.lexerError). by_evaluation.
Defined.

(** X4 on [()]: an optional list in square brackets is absent. *)
Lemma absent_optional_list_witness :
  parseCommaSeparatedList (λ A (m : P A), m) 4 OptionalSquare
    (emitError [ArgString "no element"]) "" Cases.parens
  = (Success (), Cases.parens).
Proof.
  apply (absent_optional_list _ _ _ liftsBy_id 4 OptionalSquare Token.l_square);
    by_evaluation.
Defined.

(** X5 on [()], read by the operation parser. *)
Lemma empty_delimited_list_witness :
  parseCommaSeparatedList (@liftP) 4 Paren
    (liftP (emitError [ArgString "no element"])) ""
    (Demo.start [Demo.lp; Demo.rp])
  = (Success (),
     set_state (advance (advance (state (Demo.start [Demo.lp; Demo.rp]))))
       (Demo.start [Demo.lp; Demo.rp])).
Proof.
  eapply (empty_delimited_list _ _ _ liftsBy_liftP 4 Paren Token.l_paren
            Token.r_paren); by_evaluation.
Defined.

(** X6 on [()]: a list in angle brackets is absent, which is reported and
    is no failure; a list in braces is missing; and on the empty file. *)
Lemma missing_opening_delimiter_witness :
  (∃ loc,
     parseCommaSeparatedList (λ A (m : P A), m) 4 LessGreater
       (emitError [ArgString "no element"]) " in list" Cases.parens
     = (Success (),
        reported (plainError "expected '<' in list" loc) Cases.parens)
     ∧ wrongTokenLoc Cases.parens loc)
  ∧ (∃ loc,
       parseCommaSeparatedList (λ A (m : P A), m) 4 Braces
         (emitError [ArgString "no element"]) " in list" Cases.parens
       = (Failure,
          reported (plainError "expected '{' in list" loc) Cases.parens)
       ∧ wrongTokenLoc Cases.parens loc)
  ∧ parseCommaSeparatedList (λ A (m : P A), m) 4 Braces
      (emitError [ArgString "no element"]) " in list" (Demo.stateOf [])
    = (Undefined, Demo.stateOf []).
Proof.
  split_and!.
  - apply (missing_opening_delimiter _ _ _ liftsBy_id 4 LessGreater Token.less);
      by_evaluation.
  - apply (missing_opening_delimiter _ _ _ liftsBy_id 4 Braces Token.l_brace);
      by_evaluation.
  - apply (missing_opening_delimiter _ _ _ liftsBy_id 4 Braces Token.l_brace
             (emitError [ArgString "no element"]) " in list" (Demo.stateOf []));
      [by_evaluation..|].
    intros Hin. specialize (Hin eq_refl). vm_compute in Hin. done.
Defined.

(** X7 on a file that starts with [)]. *)
Lemma list_until_at_right_token_witness :
  parseCommaSeparatedListUntil (λ A (m : P A), m) 4 Token.r_paren
    (emitError [ArgString "no element"]) true (Demo.stateOf [Demo.rp])
  = (Success (), advance (Demo.stateOf [Demo.rp])).
Proof.
  apply (list_until_at_right_token _ _ _ liftsBy_id 4 Token.r_paren);
    by_evaluation.
Defined.

(** X8 on [[]]. *)
Lemma empty_successor_list_rejected_witness :
  ∃ loc,
    parseSuccessors 4 Cases.brackets
      = (Failure,
         set_state
           (reported (plainError "expected list element" loc)
              (advance (state Cases.brackets))) Cases.brackets)
    ∧ wrongTokenLoc (advance (state Cases.brackets)) loc.
Proof.
  eapply (empty_successor_list_rejected 4 Cases.brackets); by_evaluation.
Defined.

(** X9 in the scope of [%a]. *)
Lemma push_then_pop_scope_witness :
  scopeOpen Cases.defined
  ∧ (pushSSANameScope false ;;; popSSANameScope) Cases.defined
    = (Success (), Cases.defined).
Proof.
  assert (Hopen : scopeOpen Cases.defined).
  { eexists _, _, _, _. split; by_evaluation. }
  split; [exact Hopen|].
  apply (push_then_pop_scope false Cases.defined). intros _. exact Hopen.
Defined.

(** X10 on the scope of [%y], nested in the scope of [%a]: [%y] is erased
    and [%a] is kept. *)
Lemma popSSANameScope_erases_witness :
  ∃ p' scope',
    popSSANameScope Cases.nested = (Success (), p') ∧
    isolatedNameScopes p' = [scope'] ∧
    values scope' !! "%y" = None ∧
    values scope' !! "%a" = Some [mkValueDefinition (Some (OpResult 1 0)) 3%Z].
Proof.
  destruct (popSSANameScope_erases Cases.nested
              (mkIsolatedSSANameScope
                 {["%a" := [mkValueDefinition (Some (OpResult 1 0)) 3%Z];
                   "%y" := [mkValueDefinition (Some (OpResult 1 0)) 9%Z]]}
                 [{["%y"]}; {["%a"]}])
              [] {["%y"]} {["%a"]} [] [∅] ∅ [∅])
    as (p' & scope' & Hrun & Hs & _ & Hvals & _); try by_evaluation.
  exists p', scope'. split_and!; [done..| |].
  - rewrite Hvals. by_evaluation.
  - rewrite Hvals. by_evaluation.
Defined.

(** X11: a second definition of [%a]. *)
Lemma addDefinition_redefinition_witness :
  boundTo Cases.defined "%a" 0 (OpResult 1 0) 3%Z
  ∧ addDefinition (mkUnresolvedOperand 20%Z "%a" 0) (OpResult 1 0) Cases.defined
    = (Failure,
       addDiagnostics [redefinitionError 20%Z "%a" 3%Z] Cases.defined).
Proof.
  assert (Hb : boundTo Cases.defined "%a" 0 (OpResult 1 0) 3%Z).
  { eexists _, _, _. split_and!; by_evaluation. }
  split; [exact Hb|].
  apply (addDefinition_redefinition _ _ _ _ _ _ _ Hb); by_evaluation.
Defined.

(** X12: [%x], used with type [i16], is defined as the result of [b]. *)
Lemma addDefinition_resolves_forward_use_witness :
  ∃ p',
    addDefinition (mkUnresolvedOperand 20%Z "%x" 0) (OpResult 1 0) Cases.used
      = (Success (), p') ∧
    boundTo p' "%x" 0 (OpResult 1 0) 20%Z ∧
    forwardRefPlaceholders p' = ∅.
Proof.
  destruct (addDefinition_resolves_forward_use Cases.used "%x" 0 (OpResult 2 0)
              7%Z (Demo.intTy 16) 20%Z (OpResult 1 0))
    as (p' & Hrun & Hb & _ & Hph & _).
  - eexists _, _, _. split_and!; by_evaluation.
  - split_and!; [eexists; by_evaluation|by_evaluation|].
    exists 2, 0. split; [done|]. vm_compute. lia.
  - by_evaluation.
  - eexists _, _, _, _. split; by_evaluation.
  - exists p'. split_and!; [done..|]. rewrite Hph. by_evaluation.
Defined.

(** X13: the uses of [%a], with the type of its value and with another. *)
Lemma resolveSSAUse_of_defined_value_witness :
  resolveSSAUse (mkUnresolvedOperand 30%Z "%a" 0) (Demo.intTy 16) Cases.defined
    = (Success (OpResult 1 0), Cases.defined)
  ∧ resolveSSAUse (mkUnresolvedOperand 30%Z "%a" 0) (Demo.intTy 32) Cases.defined
    = (Failure,
       addDiagnostics
         [useTypeError 30%Z "%a" (Demo.intTy 32) (Demo.intTy 16) 3%Z]
         Cases.defined).
Proof.
  destruct (resolveSSAUse_of_defined_value Cases.defined "%a" 0 (OpResult 1 0)
              3%Z (Demo.intTy 16) 30%Z) as [Hsame Hother].
  - eexists _, _, _. split_and!; by_evaluation.
  - by_evaluation.
  - split; [exact Hsame|]. apply Hother; by_evaluation.
Defined.

(** X14: [%b] is defined in the scope of [%a], then used. *)
Lemma addDefinition_then_use_witness :
  ∃ p',
    addDefinition (mkUnresolvedOperand 20%Z "%b" 0) (OpResult 1 0) Cases.defined
      = (Success (), p') ∧
    boundTo p' "%b" 0 (OpResult 1 0) 20%Z ∧
    resolveSSAUse (mkUnresolvedOperand 30%Z "%b" 0) (Demo.intTy 16) p'
      = (Success (OpResult 1 0), p').
Proof.
  destruct (addDefinition_then_use Cases.defined "%b" 0 (OpResult 1 0)
              (Demo.intTy 16) 20%Z)
    as (p' & Hrun & Hb & _ & _ & _ & _ & Huse).
  - eexists _, _. split; by_evaluation.
  - eexists _, _, _, _. split; by_evaluation.
  - lia.
  - by_evaluation.
  - exists p'. split_and!; [done..|]. apply Huse.
Defined.

(** X15: [%a#1], where [%a] is the one result of [b]. *)
Lemma resolveSSAUse_invalid_result_number_witness :
  (resolveSSAUse (mkUnresolvedOperand 30%Z "%a" 1) (Demo.intTy 16)
     Cases.defined).1 = Failure
  ∧ diagnostics
      (state (resolveSSAUse (mkUnresolvedOperand 30%Z "%a" 1) (Demo.intTy 16)
                Cases.defined).2)
    = [invalidResultNumberError 30%Z].
Proof.
  rewrite (resolveSSAUse_invalid_result_number Cases.defined "%a" 1
             (OpResult 1 0) 3%Z 30%Z (Demo.intTy 16)).
  - split; by_evaluation.
  - eexists _, _. split; by_evaluation.
  - eexists _, _, _. split_and!; by_evaluation.
  - by_evaluation.
  - lia.
  - by_evaluation.
Defined.

(** X16: a first use of [%x]. *)
Lemma resolveSSAUse_forward_reference_witness :
  ∃ p',
    resolveSSAUse (mkUnresolvedOperand 7%Z "%x" 0) (Demo.intTy 16) Demo.definer
      = (Success (OpResult 2 0), p') ∧
    boundTo p' "%x" 0 (OpResult 2 0) 7%Z ∧
    getType (ir p') (OpResult 2 0) = Some (Demo.intTy 16).
Proof.
  destruct (resolveSSAUse_forward_reference Demo.definer "%x" 0 7%Z
              (Demo.intTy 16))
    as (p' & Hrun & Hb & _ & _ & _ & Hty & _).
  - eexists _, _. split; by_evaluation.
  - intros v0 l0 (scope & rest & entries & Hs & Hv & _).
    vm_compute in Hs; simplify_eq; by vm_compute in Hv.
  - lia.
  - exists p'. split_and!; done.
Defined.

(** X17: a second [^bb0:]. *)
Lemma parseBlock_redefinition_witness :
  (parseBlock Demo.env 8 (parseOperation Demo.env 8) None Cases.labelled).1
    = Failure
  ∧ diagnostics
      (state (parseBlock Demo.env 8 (parseOperation Demo.env 8) None
                Cases.labelled).2)
    = [redefinedBlockError 0%Z "^bb0"].
Proof.
  rewrite (parseBlock_redefinition Demo.env 8 (parseOperation Demo.env 8) None
             Cases.labelled {["^bb0" := mkBlockDefinition (Some 2) 0%Z]} []
             ∅ [] 2 0%Z); by_evaluation.
Defined.

(** X18 on [()], which is no location, and on a file [loc] that ends
    there. *)
Lemma trailing_location_is_optional_witness :
  parseTrailingLocationSpecifier Demo.env (IsOperation 0)
    (Demo.start [Demo.lp; Demo.rp])
  = (Success (), Demo.start [Demo.lp; Demo.rp])
  ∧ stepsBackInBuffer (advance (state (Demo.start [Demo.kloc])))
  ∧ ∃ loc,
      parseTrailingLocationSpecifier Demo.env (IsOperation 0)
        (Demo.start [Demo.kloc])
      = (Failure,
         set_state (reported (plainError "expected '(' in location" loc)
                      (advance (state (Demo.start [Demo.kloc]))))
           (Demo.start [Demo.kloc])).
Proof.
  split_and!.
  - apply (trailing_location_is_optional Demo.env (IsOperation 0)
             (Demo.start [Demo.lp; Demo.rp])). by_evaluation.
  - by_evaluation.
  - destruct (proj1 (proj2 (trailing_location_is_optional Demo.env
                              (IsOperation 0) (Demo.start [Demo.kloc]))))
      as (loc & Hrun & _); [by_evaluation..|].
    by exists loc.
Defined.

(** X19: [loc(#L)] after the operation [b], where [#L] is a location. *)
Lemma trailing_location_of_defined_alias_witness :
  ∃ p',
    parseTrailingLocationSpecifier Demo.env (IsOperation 1) Cases.aliasKnown
      = (Success (), p') ∧
    getLoc (ir p') (IsOperation 1) = Some (LiteralLoc 3) ∧
    deferredLocsReferences p' = [].
Proof.
  eexists. split.
  - eapply (trailing_location_of_defined_alias Demo.env (IsOperation 1)
              Cases.aliasKnown); by_evaluation.
  - split; by_evaluation.
Defined.

(** X20 on [%a#1)], where a result number is allowed and where it is not. *)
Lemma parseSSAUse_behaviour_witness :
  parseSSAUse Demo.env true Cases.numbered
    = (Success (mkUnresolvedOperand 0%Z "%a" 1),
       advance (advance Cases.numbered))
  ∧ parseSSAUse Demo.env false Cases.numbered
    = (Failure,
       reported (plainError "result number not allowed in argument list" 3%Z)
         (advance Cases.numbered)).
Proof.
  split.
  - apply (proj2 (parseSSAUse_behaviour Demo.env true Cases.numbered
                    ltac:(by_evaluation))). by_evaluation.
  - apply (proj2 (parseSSAUse_behaviour Demo.env false Cases.numbered
                    ltac:(by_evaluation))). by_evaluation.
Defined.

(** X21 on [%a, %b, %c)]. *)
Lemma parseOptionalSSAUseList_names_witness :
  parseOptionalSSAUseList Demo.env 8 Cases.names
    = (Success [mkUnresolvedOperand 0%Z "%a" 0; mkUnresolvedOperand 5%Z "%b" 0;
                mkUnresolvedOperand 10%Z "%c" 0],
       set_tokens (Demo.tk Token.r_paren ")" 13) [] Cases.names).
Proof.
  apply (parseOptionalSSAUseList_names Demo.env 8 Cases.names
           [(Demo.tk Token.comma "," 3, Demo.tk Token.percent_identifier "%b" 5);
            (Demo.tk Token.comma "," 8, Demo.tk Token.percent_identifier "%c" 10)]
           (Demo.tk Token.r_paren ")" 13) []); try by_evaluation.
  - repeat constructor.
  - simpl. lia.
Defined.

(** X22 on [#L = loc("a")], where [#L] is new and where it is defined. *)
Lemma parseAttributeAliasDef_behaviour_witness :
  (∃ st', parseAttributeAliasDef Demo.env Cases.aliasDefinition
            = (Success (), st')
          ∧ attributeAliasDefinitions st' !! "L"
            = Some (LocationAttr (LiteralLoc 3)))
  ∧ parseAttributeAliasDef Demo.env
      (set_attributeAliasDefinitions {["L" := OtherAttr 0]}
         Cases.aliasDefinition)
    = (Failure,
       reported
         (plainError "redefinition of attribute alias id 'L'" 0%Z)
         (set_attributeAliasDefinitions {["L" := OtherAttr 0]}
            Cases.aliasDefinition)).
Proof.
  split.
  - eexists. split.
    + eapply (proj2 (proj2 (parseAttributeAliasDef_behaviour Demo.env
                              Cases.aliasDefinition ltac:(by_evaluation))));
        by_evaluation.
    + by_evaluation.
  - apply (proj1 (parseAttributeAliasDef_behaviour Demo.env
                    (set_attributeAliasDefinitions {["L" := OtherAttr 0]}
                       Cases.aliasDefinition) ltac:(by_evaluation))).
    eexists. by_evaluation.
Defined.

(** X23: the operation [use] with the operand [%a] and the type
    [(i16) -> ()], and with the type [() -> ()]. *)
Lemma parseGenericRemainder_with_pieces_witness :
  parseGenericRemainder Demo.env 8 (parseOperation Demo.env 8)
    [mkUnresolvedOperand 30%Z "%a" 0] (Some []) (Some []) (Some (OtherAttr 0))
    (Some ([Demo.intTy 16], [])) (Demo.named "use", Cases.defined)
  = (Success (),
     (addOperands [OpResult 1 0]
        (withPieces [] [] (OtherAttr 0) [] (Demo.named "use")),
      Cases.defined))
  ∧ parseGenericRemainder Demo.env 8 (parseOperation Demo.env 8)
      [mkUnresolvedOperand 30%Z "%a" 0] (Some []) (Some []) (Some (OtherAttr 0))
      (Some ([], [])) (Demo.named "use", Cases.defined)
    = (Failure,
       (withPieces [] [] (OtherAttr 0) [] (Demo.named "use"),
        addDiagnostics [operandCountError (FileLineColLoc 0%Z) 1 0]
          Cases.defined)).
Proof.
  split.
  - apply (proj2 (parseGenericRemainder_with_pieces Demo.env 8
                    (parseOperation Demo.env 8)
                    [mkUnresolvedOperand 30%Z "%a" 0] [] [] (OtherAttr 0)
                    [Demo.intTy 16] [] (Demo.named "use") Cases.defined));
      by_evaluation.
  - apply (proj1 (parseGenericRemainder_with_pieces Demo.env 8
                    (parseOperation Demo.env 8)
                    [mkUnresolvedOperand 30%Z "%a" 0] [] [] (OtherAttr 0)
                    [] [] (Demo.named "use") Cases.defined)).
    by_evaluation.
Defined.

(** X24 on [{}], on [[]] where a region is expected, and on the empty
    file. *)
Lemma parseRegion_without_body_witness :
  parseRegion Demo.env 8 (parseOperation Demo.env 8) 0 [] true Cases.braces
    = (Success (),
       set_state (advance (advance (state Cases.braces))) Cases.braces)
  ∧ (∃ loc,
       parseRegion Demo.env 8 (parseOperation Demo.env 8) 0 [] true
         Cases.brackets
       = (Failure,
          set_state (reported (plainError "expected '{' to begin a region" loc)
                       (state Cases.brackets)) Cases.brackets))
  ∧ parseRegion Demo.env 8 (parseOperation Demo.env 8) 0 [] true
      (Demo.start [])
    = (Undefined, Demo.start []).
Proof.
  split_and!.
  - eapply (proj1 (proj2 (parseRegion_without_body Demo.env 8
                            (parseOperation Demo.env 8) 0 true Cases.braces)));
      by_evaluation.
  - destruct (proj1 (parseRegion_without_body Demo.env 8
                       (parseOperation Demo.env 8) 0 true Cases.brackets)
                ltac:(by_evaluation) ltac:(by_evaluation) [])
      as (loc & Hrun & _).
    by exists loc.
  - apply (proj2 (proj2 (parseRegion_without_body Demo.env 8
                           (parseOperation Demo.env 8) 0 true (Demo.start []))));
      [by_evaluation|].
    intros Hin. specialize (Hin eq_refl). vm_compute in Hin. done.
Defined.

(** X25 on the result list [%x, %y:2, %z]: the result 2 is [y#1]. *)
Lemma getResultName_of_group_witness :
  CustomOpAsmParser.getResultName Cases.resultIDs 2 = ("y", 1%Z).
Proof.
  apply (getResultName_of_group [("%x", 1%Z, 0%Z)] ("%y", 2%Z, 4%Z)
           [("%z", 1%Z, 10%Z)] 1%Z).
  - repeat constructor; simpl; lia.
  - simpl. lia.
  - simpl. lia.
Defined.

(** X26 on that list: four results are declared, and 4 is the number of
    none. *)
Lemma getResultName_invalid_witness :
  CustomOpAsmParser.getNumResults Cases.resultIDs = 4%Z
  ∧ CustomOpAsmParser.getResultName Cases.resultIDs 4
    = (EmptyString, 4294967295%Z).
Proof.
  destruct (getResultName_invalid Cases.resultIDs) as [Hnum Hname].
  - repeat constructor; simpl; lia.
  - simpl. lia.
  - split; [exact Hnum|]. apply Hname. rewrite Hnum. simpl. lia.
Defined.

(** X27: the names of [%x, %y:2, %z] for an operation with four results. *)
Lemma registerResults_binds_names_witness :
  ∃ p',
    registerResults 0%Z Cases.resultIDs 4 1 Cases.fourResults
      = (Success (), p')
    ∧ boundTo p' "%x" 0 (OpResult 1 0) 0%Z
    ∧ boundTo p' "%y" 1 (OpResult 1 2) 4%Z
    ∧ boundTo p' "%z" 0 (OpResult 1 3) 10%Z.
Proof.
  eexists. split; [by_evaluation|].
  assert (Hph : ∀ i, forwardRefPlaceholders Cases.fourResults
                       !! OpResult 1 i = None).
  { intros i. vm_compute. done. }
  split_and!.
  - apply (registerResults_binds_names 0%Z Cases.resultIDs 4 1
             Cases.fourResults _ ltac:(by_evaluation) Hph
             [] ("%x", 1%Z, 0%Z) [("%y", 2%Z, 4%Z); ("%z", 1%Z, 10%Z)] 0);
      [done|vm_compute; lia].
  - apply (registerResults_binds_names 0%Z Cases.resultIDs 4 1
             Cases.fourResults _ ltac:(by_evaluation) Hph
             [("%x", 1%Z, 0%Z)] ("%y", 2%Z, 4%Z) [("%z", 1%Z, 10%Z)] 1);
      [done|vm_compute; lia].
  - apply (registerResults_binds_names 0%Z Cases.resultIDs 4 1
             Cases.fourResults _ ltac:(by_evaluation) Hph
             [("%x", 1%Z, 0%Z); ("%y", 2%Z, 4%Z)] ("%z", 1%Z, 10%Z) [] 0);
      [done|vm_compute; lia].
Defined.
